(** * A shallow embedding of the statsd metrics engine

    This development embeds the parts of the statsd daemon that decide
    matching of log events (matchers/matcher_util.cpp), nested state
    tracking (state/StateTracker.cpp), the uid <-> package map with its
    change log (packages/UidMap.cpp), and, from the specification, the
    preserve/replace decision of a configuration update and the periodic
    alarm schedule, and proves properties of them. *)

From Stdlib Require Import ZArith Lia Bool List.
From stdpp Require Import base gmap list strings.
From Stdlib Require Import Sorting.Sorted.
From Stdlib Require Import Floats.
Import ListNotations.

Open Scope Z_scope.

(* ================================================================== *)
(** * Matcher engine: matchers/matcher_util.cpp *)
(* ================================================================== *)

Module Matcher.

(** [MatchingState] of matcher_util.h: kNotComputed = -1, kNotMatched = 0,
    kMatched = 1. *)
Inductive MatchingState := kNotComputed | kNotMatched | kMatched.

Definition MatchingState_eqb (a b : MatchingState) : bool :=
  match a, b with
  | kNotComputed, kNotComputed | kNotMatched, kNotMatched | kMatched, kMatched => true
  | _, _ => false
  end.

Inductive LogicalOperation :=
  LOGICAL_OPERATION_UNSPECIFIED | AND | OR | NOT | NAND | NOR.

(** [matcherResults[childIndex]]: the children indices are indices of the
    evaluation graph, always in range of the results vector; an out-of-range
    read (undefined behaviour in C++) is read here as kNotComputed. *)
Definition resultAt (matcherResults : list MatchingState) (childIndex : nat) : MatchingState :=
  default kNotComputed (matcherResults !! childIndex).

(** The four loops of [combinationMatch], each with its [break]. *)
Fixpoint and_loop (children : list nat) (rs : list MatchingState) : bool :=
  match children with
  | [] => true
  | c :: cs => if negb (MatchingState_eqb (resultAt rs c) kMatched) then false else and_loop cs rs
  end.

Fixpoint or_loop (children : list nat) (rs : list MatchingState) : bool :=
  match children with
  | [] => false
  | c :: cs => if MatchingState_eqb (resultAt rs c) kMatched then true else or_loop cs rs
  end.

Fixpoint nand_loop (children : list nat) (rs : list MatchingState) : bool :=
  match children with
  | [] => false
  | c :: cs => if negb (MatchingState_eqb (resultAt rs c) kMatched) then true else nand_loop cs rs
  end.

Fixpoint nor_loop (children : list nat) (rs : list MatchingState) : bool :=
  match children with
  | [] => true
  | c :: cs => if MatchingState_eqb (resultAt rs c) kMatched then false else nor_loop cs rs
  end.

(** [combinationMatch]. NOT reads [children[0]]; a NOT combination without
    a child is rejected by configuration validation (and reading
    [children[0]] of an empty vector is undefined), here it yields false. *)
Definition combinationMatch (children : list nat) (operation : LogicalOperation)
    (matcherResults : list MatchingState) : bool :=
  match operation with
  | AND => and_loop children matcherResults
  | OR => or_loop children matcherResults
  | NOT =>
      match children with
      | c :: _ => MatchingState_eqb (resultAt matcherResults c) kNotMatched
      | [] => false
      end
  | NAND => nand_loop children matcherResults
  | NOR => nor_loop children matcherResults
  | LOGICAL_OPERATION_UNSPECIFIED => false
  end.


(** ** Fields and values of a log event

    Modelled from the spec: FieldValue.h is not part of this source tree.
    A field path has up to three positions [p0; p1; p2] (one per depth) and a
    flag per depth telling whether the position is the last sibling
    ([getPosAtDepth], [isLastPos]); a value is a tagged primitive. A missing
    depth reads as position 0, not last. *)
Record Field := mkField { fld_tag : Z; fld_pos : list Z; fld_last : list bool }.

Definition getPosAtDepth (f : Field) (depth : nat) : Z := default 0 (fld_pos f !! depth).
Definition isLastPos (f : Field) (depth : nat) : bool := default false (fld_last f !! depth).

(** Value types read by the matchers: INT, LONG, FLOAT and STRING. A FLOAT
    (a 32-bit float) is held exactly by a primitive binary64 float, whose
    comparisons agree with those of the 32-bit values. [VOther] stands for
    DOUBLE, STORAGE and the like. *)
Inductive Value := VInt (v : Z) | VLong (v : Z) | VFloat (f : float) | VString (s : string) | VOther.

(** [mValue.int_value]: the int member of the value union. Uid fields are
    always of type INT. *)
Definition int_value (v : Value) : Z := match v with VInt z => z | _ => 0 end.

(** A field value; [fv_uid] is [isAttributionUidField(fv) || isUidField(fv)]. *)
Record FieldValue := mkFieldValue { mField : Field; mValue : Value; fv_uid : bool }.

Definition defaultFieldValue : FieldValue := mkFieldValue (mkField 0 [] []) VOther false.

(** [values[i]]: indices stay in range of the event's values. *)
Definition value_at (values : list FieldValue) (i : nat) : FieldValue :=
  default defaultFieldValue (values !! i).

Definition pos_at (values : list FieldValue) (depth i : nat) : Z :=
  getPosAtDepth (mField (value_at values i)) depth.

Inductive Position := FIRST | LAST | ANY | ALL | POSITION_UNKNOWN.

(** [FieldValueMatcher] of statsd_config.proto: a field id, an optional
    position and a value matcher (the oneof; [VALUE_MATCHER_NOT_SET] when no
    case is set). *)
Inductive FieldValueMatcher :=
  FVM (field : Z) (position : option Position) (value_matcher : ValueMatcher)
with ValueMatcher :=
  | MatchesTuple (field_value_matcher : list FieldValueMatcher)
  | EqBool (b : bool)
  | EqString (s : string)
  | NeqAnyString (l : list string)
  | EqAnyString (l : list string)
  | EqWildcardString (s : string)
  | EqAnyWildcardString (l : list string)
  | NeqAnyWildcardString (l : list string)
  | EqInt (z : Z)
  | EqAnyInt (l : list Z)
  | NeqAnyInt (l : list Z)
  | LtInt (z : Z)
  | GtInt (z : Z)
  | LtFloat (f : float)
  | GtFloat (f : float)
  | LteInt (z : Z)
  | GteInt (z : Z)
  | VALUE_MATCHER_NOT_SET.

Definition is_matches_tuple (vm : ValueMatcher) : bool :=
  match vm with MatchesTuple _ => true | _ => false end.

(** [UidMap::sAidToUidMapping]. *)
Definition sAidToUidMapping : list (string * Z) :=
  [ ("AID_ROOT", 0); ("AID_SYSTEM", 1000); ("AID_RADIO", 1001); ("AID_BLUETOOTH", 1002);
    ("AID_GRAPHICS", 1003); ("AID_INPUT", 1004); ("AID_AUDIO", 1005); ("AID_CAMERA", 1006);
    ("AID_LOG", 1007); ("AID_COMPASS", 1008); ("AID_MOUNT", 1009); ("AID_WIFI", 1010);
    ("AID_ADB", 1011); ("AID_INSTALL", 1012); ("AID_MEDIA", 1013); ("AID_DHCP", 1014);
    ("AID_SDCARD_RW", 1015); ("AID_VPN", 1016); ("AID_KEYSTORE", 1017); ("AID_USB", 1018);
    ("AID_DRM", 1019); ("AID_MDNSR", 1020); ("AID_GPS", 1021); ("AID_MEDIA_RW", 1023);
    ("AID_MTP", 1024); ("AID_DRMRPC", 1026); ("AID_NFC", 1027); ("AID_SDCARD_R", 1028);
    ("AID_CLAT", 1029); ("AID_LOOP_RADIO", 1030); ("AID_MEDIA_DRM", 1031);
    ("AID_PACKAGE_INFO", 1032); ("AID_SDCARD_PICS", 1033); ("AID_SDCARD_AV", 1034);
    ("AID_SDCARD_ALL", 1035); ("AID_LOGD", 1036); ("AID_SHARED_RELRO", 1037);
    ("AID_DBUS", 1038); ("AID_TLSDATE", 1039); ("AID_MEDIA_EX", 1040);
    ("AID_AUDIOSERVER", 1041); ("AID_METRICS_COLL", 1042); ("AID_METRICSD", 1043);
    ("AID_WEBSERV", 1044); ("AID_DEBUGGERD", 1045); ("AID_MEDIA_CODEC", 1046);
    ("AID_CAMERASERVER", 1047); ("AID_FIREWALL", 1048); ("AID_TRUNKS", 1049);
    ("AID_NVRAM", 1050); ("AID_DNS", 1051); ("AID_DNS_TETHER", 1052);
    ("AID_WEBVIEW_ZYGOTE", 1053); ("AID_VEHICLE_NETWORK", 1054); ("AID_MEDIA_AUDIO", 1055);
    ("AID_MEDIA_VIDEO", 1056); ("AID_MEDIA_IMAGE", 1057); ("AID_TOMBSTONED", 1058);
    ("AID_MEDIA_OBB", 1059); ("AID_ESE", 1060); ("AID_OTA_UPDATE", 1061);
    ("AID_AUTOMOTIVE_EVS", 1062); ("AID_LOWPAN", 1063); ("AID_HSM", 1064);
    ("AID_RESERVED_DISK", 1065); ("AID_STATSD", 1066); ("AID_INCIDENTD", 1067);
    ("AID_SECURE_ELEMENT", 1068); ("AID_LMKD", 1069); ("AID_LLKD", 1070);
    ("AID_IORAPD", 1071); ("AID_GPU_SERVICE", 1072); ("AID_NETWORK_STACK", 1073);
    ("AID_GSID", 1074); ("AID_FSVERITY_CERT", 1075); ("AID_CREDSTORE", 1076);
    ("AID_EXTERNAL_STORAGE", 1077); ("AID_EXT_DATA_RW", 1078); ("AID_EXT_OBB_RW", 1079);
    ("AID_CONTEXT_HUB", 1080); ("AID_VIRTUALIZATIONSERVICE", 1081); ("AID_ARTD", 1082);
    ("AID_UWB", 1083); ("AID_THREAD_NETWORK", 1084); ("AID_DICED", 1085);
    ("AID_DMESGD", 1086); ("AID_JC_WEAVER", 1087); ("AID_JC_STRONGBOX", 1088);
    ("AID_JC_IDENTITYCRED", 1089); ("AID_SDK_SANDBOX", 1090);
    ("AID_SECURITY_LOG_WRITER", 1091); ("AID_PRNG_SEEDER", 1092); ("AID_SHELL", 2000);
    ("AID_CACHE", 2001); ("AID_DIAG", 2002); ("AID_NOBODY", 9999) ].

(** [sAidToUidMapping.find(name)]. *)
Definition aid_find (name : string) : option Z :=
  snd <$> find (fun p : string * Z => bool_decide (fst p = name)) sAidToUidMapping.

(** The iteration of the wildcard matcher: the aid whose uid is [uid]
    (uids of the table are distinct, so the iteration order does not
    matter). *)
Definition aid_of_uid (uid : Z) : option string :=
  fst <$> find (fun p : string * Z => snd p =? uid) sAidToUidMapping.

Section Matching.

(** [uidMap->getAppNamesFromUid(uid, true)] and libc's [fnmatch(p, s, 0) == 0]. *)
Variable getAppNamesFromUid : Z -> list string.
Variable fnmatch : string -> string -> bool.

Definition tryMatchString (fieldValue : FieldValue) (str_match : string) : bool :=
  if fv_uid fieldValue then
    let uid := int_value (mValue fieldValue) in
    match aid_find str_match with
    | Some u => bool_decide (u = uid)
    | None => bool_decide (str_match ∈ getAppNamesFromUid uid)
    end
  else match mValue fieldValue with
       | VString s => bool_decide (s = str_match)
       | _ => false
       end.

Definition tryMatchWildcardString (fieldValue : FieldValue) (wildcardPattern : string) : bool :=
  if fv_uid fieldValue then
    let uid := int_value (mValue fieldValue) in
    let by_names := existsb (fnmatch wildcardPattern) (getAppNamesFromUid uid) in
    if uid <? 10000 then
      match aid_of_uid uid with
      | Some aid => fnmatch wildcardPattern aid
      | None => by_names
      end
    else by_names
  else match mValue fieldValue with
       | VString s => fnmatch wildcardPattern s
       | _ => false
       end.

(** [getStartEndAtDepth]: the scan over [start, end) with its [break];
    [None] is the [-1] of [newStart]. *)
Fixpoint start_end_loop (targetField : Z) (depth : nat) (values : list FieldValue)
    (i k : nat) (newStart : option nat) (newEnd : nat) : option nat * nat :=
  match k with
  | O => (newStart, newEnd)
  | S k' =>
      let pos := pos_at values depth i in
      if pos =? targetField then
        start_end_loop targetField depth values (S i) k'
          (match newStart with None => Some i | Some s => Some s end) (S i)
      else if targetField <? pos then (newStart, newEnd)
      else start_end_loop targetField depth values (S i) k' newStart newEnd
  end.

Definition getStartEndAtDepth (targetField : Z) (start end_ depth : nat)
    (values : list FieldValue) : option nat * nat :=
  start_end_loop targetField depth values start (end_ - start) None end_.

(** The FIRST loop: cut the range at the first position other than 1. *)
Fixpoint first_loop (values : list FieldValue) (depth i k end_ : nat) : nat :=
  match k with
  | O => end_
  | S k' => if negb (pos_at values depth i =? 1) then i else first_loop values depth (S i) k' end_
  end.

(** The LAST loop: move the start to the first entry flagged last. *)
Fixpoint last_loop (values : list FieldValue) (depth i k start : nat) : nat :=
  match k with
  | O => start
  | S k' => if isLastPos (mField (value_at values i)) depth then i
            else last_loop values depth (S i) k' start
  end.

(** The ANY loop with [matches_tuple]: emits [(start, i)] whenever the
    position at [depth] changes and returns the ranges emitted together with
    the final [start]. *)
Fixpoint any_loop (values : list FieldValue) (depth i k start : nat) (currentPos : Z)
    : list (nat * nat) * nat :=
  match k with
  | O => ([], start)
  | S k' =>
      let newPos := pos_at values depth i in
      if negb (newPos =? currentPos) then
        let '(rs, st) := any_loop values depth (S i) k' i newPos in ((start, i) :: rs, st)
      else any_loop values depth (S i) k' start currentPos
  end.

(** [computeRanges]: the ranges and the updated [depth] reference. *)
Definition computeRanges (matcher : FieldValueMatcher) (values : list FieldValue)
    (start end_ depth : nat) : list (nat * nat) * nat :=
  match matcher with
  | FVM field position vm =>
      match getStartEndAtDepth field start end_ depth values with
      | (None, _) => ([], depth)
      | (Some start, end_) =>
          match position with
          | None => ([(start, end_)], depth)
          | Some p =>
              let depth := S depth in
              if Nat.ltb 2 depth then ([], depth) else
              match p with
              | FIRST => ([(start, first_loop values depth start (end_ - start) end_)], depth)
              | LAST => ([(last_loop values depth start (end_ - start) start, end_)], depth)
              | ANY =>
                  if is_matches_tuple vm then
                    let '(rs, st) :=
                      any_loop values depth start (end_ - start) start (pos_at values depth start) in
                    (rs ++ [(st, end_)], depth)
                  else ([(start, end_)], depth)
              | ALL | POSITION_UNKNOWN => ([], depth)
              end
          end
      end
  end.

(** [for (int i = start; i < end; i++) if (test(values[i])) return true;
    return false;] *)
Fixpoint exists_loop (test : FieldValue -> bool) (values : list FieldValue) (i k : nat) : bool :=
  match k with
  | O => false
  | S k' => if test (value_at values i) then true else exists_loop test values (S i) k'
  end.

Definition exists_in_range (test : FieldValue -> bool) (values : list FieldValue)
    (start end_ : nat) : bool :=
  exists_loop test values start (end_ - start).

Definition int_or_long_test (p : Z -> bool) (fv : FieldValue) : bool :=
  match mValue fv with VInt v | VLong v => p v | _ => false end.

Definition float_test (p : float -> bool) (fv : FieldValue) : bool :=
  match mValue fv with VFloat v => p v | _ => false end.

(** [for (const int int_value : int_list.int_value())]: each int64 entry of
    the list is converted to a 32-bit int (wrap-around). *)
Definition narrow_to_int (z : Z) : Z := (z + 2 ^ 31) mod 2 ^ 32 - 2 ^ 31.

(** The leaf cases of the value-matcher switch. *)
Definition leafMatch (vm : ValueMatcher) (values : list FieldValue) (start end_ : nat) : bool :=
  let ex t := exists_in_range t values start end_ in
  match vm with
  | MatchesTuple _ => false
  | EqBool b => ex (int_or_long_test (fun v => Bool.eqb (negb (v =? 0)) b))
  | EqString s => ex (fun fv => tryMatchString fv s)
  | NeqAnyString l => ex (fun fv => forallb (fun s => negb (tryMatchString fv s)) l)
  | EqAnyString l => ex (fun fv => existsb (tryMatchString fv) l)
  | EqWildcardString s => ex (fun fv => tryMatchWildcardString fv s)
  | EqAnyWildcardString l => ex (fun fv => existsb (tryMatchWildcardString fv) l)
  | NeqAnyWildcardString l =>
      ex (fun fv => forallb (fun s => negb (tryMatchWildcardString fv s)) l)
  | EqInt z => ex (int_or_long_test (fun v => z =? v))
  | EqAnyInt l =>
      ex (fun fv => existsb (fun z => int_or_long_test (fun v => narrow_to_int z =? v) fv) l)
  | NeqAnyInt l =>
      ex (fun fv => forallb (fun z => negb (int_or_long_test (fun v => narrow_to_int z =? v) fv)) l)
  | LtInt z => ex (int_or_long_test (fun v => v <? z))
  | GtInt z => ex (int_or_long_test (fun v => z <? v))
  | LtFloat f => ex (float_test (fun v => PrimFloat.ltb v f))
  | GtFloat f => ex (float_test (fun v => PrimFloat.ltb f v))
  | LteInt z => ex (int_or_long_test (fun v => v <=? z))
  | GteInt z => ex (int_or_long_test (fun v => z <=? v))
  | VALUE_MATCHER_NOT_SET => false
  end.

(** [matchesSimple] on one field value matcher over [values[start, end)]. *)
Fixpoint matchesSimple (matcher : FieldValueMatcher) (values : list FieldValue)
    (start end_ depth : nat) {struct matcher} : bool :=
  if Nat.ltb 2 depth then false else
  if Nat.leb end_ start then false else
  let '(ranges, depth) := computeRanges matcher values start end_ depth in
  match ranges with
  | [] => false
  | (start, end_) :: _ =>
      match matcher with
      | FVM _ _ vm =>
          match vm with
          | MatchesTuple subs =>
              let depth := S depth in
              (* if any range matches all sub-matchers (each loop breaks early) *)
              existsb (fun '(rangeStart, rangeEnd) =>
                         forallb (fun sub => matchesSimple sub values rangeStart rangeEnd depth)
                           subs)
                ranges
          | _ => leafMatch vm values start end_
          end
      end
  end.

(** A simple atom matcher and the top-level [matchesSimple] on an event. *)
Record SimpleAtomMatcher := mkSimpleAtomMatcher
  { atom_id : Z; field_value_matcher : list FieldValueMatcher }.

Record LogEvent := mkLogEvent { tagId : Z; eventValues : list FieldValue }.

Definition matchesSimpleAtom (simpleMatcher : SimpleAtomMatcher) (event : LogEvent) : bool :=
  if negb (tagId event =? atom_id simpleMatcher) then false
  else forallb (fun m => matchesSimple m (eventValues event) 0 (length (eventValues event)) 0)
         (field_value_matcher simpleMatcher).

End Matching.

(** The ranges [rs] cut [a, b) into consecutive non-empty runs, each holding
    one position at [depth], two neighbouring runs holding different ones. *)
Fixpoint runs_chain (values : list FieldValue) (depth : nat) (a : nat) (rs : list (nat * nat))
    (b : nat) : Prop :=
  match rs with
  | [] => a = b
  | (x, y) :: rs' =>
      x = a /\ (x < y)%nat /\
      (forall j, (x <= j < y)%nat -> pos_at values depth j = pos_at values depth x) /\
      ((y < b)%nat -> pos_at values depth y <> pos_at values depth x) /\
      runs_chain values depth y rs' b
  end.

(** [v] is an INT or LONG whose value is in [l]. *)
Definition int_in (l : list Z) (v : Value) : Prop :=
  match v with VInt z | VLong z => In z l | _ => False end.

(** Example events: [fv_at p] sits at position p at depth 0; [fv2 p0 p1 l]
    at positions p0 and p1, flagged last at depth 1 when l. The tuple
    example holds field 1 with children at positions 1, 1 and 2 (the last
    one flagged last), then field 2. A uid field holding uid 1000. *)
Definition fv_at (p : Z) : FieldValue := mkFieldValue (mkField 0 [p] [false]) (VInt 0) false.

Definition fv2 (p0 p1 : Z) (last1 : bool) : FieldValue :=
  mkFieldValue (mkField 0 [p0; p1] [false; last1]) (VInt 0) false.

Definition example_tuple_values : list FieldValue :=
  [fv2 1 1 false; fv2 1 1 false; fv2 1 2 true; fv2 2 1 false].

Definition example_uid_field : FieldValue := mkFieldValue (mkField 0 [1] [false]) (VInt 1000) true.

End Matcher.

(* ================================================================== *)
(** * State tracker: state/StateTracker.cpp *)
(* ================================================================== *)

Module StateTracker.
Import Matcher.

Definition kStateUnknown : Z := -1.

(** Modelled from the spec: StateTracker.h is not part of this source tree.
    Per primary key the tracker holds [(state, count)]; an entry created by
    [mStateMap[primaryKey]] starts as [(kStateUnknown, 0)], the value
    [getStateValue] reports for an absent key. *)
Record StateValueInfo := mkStateValueInfo { state : Z; count : Z }.

Definition defaultStateValueInfo : StateValueInfo := mkStateValueInfo kStateUnknown 0.

(** One [onStateChanged] call received by a listener. *)
Record StateChange := mkStateChange
  { sc_listener : nat; sc_time : Z; sc_atom : Z; sc_key : list Z; sc_old : Z; sc_new : Z }.

(** The tracker: its atom, [mStateMap] keyed by the primary key (the
    values of the primary fields), the live listeners of [mListeners] (those
    whose weak pointer promotes), and the calls they received so far. *)
Record Tracker := mkTracker
  { atomId : Z;
    mStateMap : gmap (list Z) StateValueInfo;
    mListeners : list nat;
    notified : list StateChange }.

Definition with_map (t : Tracker) (m : gmap (list Z) StateValueInfo) : Tracker :=
  mkTracker (atomId t) m (mListeners t) (notified t).

Definition notifyListeners (t : Tracker) (eventTimeNs : Z) (primaryKey : list Z)
    (oldState newState : Z) : Tracker :=
  mkTracker (atomId t) (mStateMap t) (mListeners t)
    (notified t ++ map (fun l => mkStateChange l eventTimeNs (atomId t) primaryKey oldState newState)
                     (mListeners t)).

(** [updateStateForPrimaryKey]: [stateValueInfo] is the map entry of
    [primaryKey]; the new entry is written back, listeners are notified, and
    the entry is erased when the new state is unknown. *)
Definition updateStateForPrimaryKey (t : Tracker) (eventTimeNs : Z) (primaryKey : list Z)
    (newStateValue : Z) (nested : bool) (stateValueInfo : StateValueInfo) : Tracker :=
  let oldStateValue := state stateValueInfo in
  let '(info, notify) :=
    if negb nested then
      if negb (newStateValue =? oldStateValue) then (mkStateValueInfo newStateValue 1, true)
      else (stateValueInfo, false)
    else if newStateValue =? kStateUnknown then
      (stateValueInfo, negb (oldStateValue =? kStateUnknown))
    else if oldStateValue =? kStateUnknown then (mkStateValueInfo newStateValue 1, true)
    else if oldStateValue =? newStateValue then
      (mkStateValueInfo oldStateValue (count stateValueInfo + 1), false)
    else if count stateValueInfo - 1 =? 0 then (mkStateValueInfo newStateValue 1, true)
    else (mkStateValueInfo oldStateValue (count stateValueInfo - 1), false) in
  let t1 := with_map t (<[primaryKey := info]> (mStateMap t)) in
  let t2 := if notify then notifyListeners t1 eventTimeNs primaryKey oldStateValue newStateValue
            else t1 in
  if newStateValue =? kStateUnknown then with_map t2 (delete primaryKey (mStateMap t2)) else t2.

Definition handleReset (t : Tracker) (eventTimeNs : Z) (newState : Z) : Tracker :=
  map_fold (fun primaryKey info acc =>
              updateStateForPrimaryKey acc eventTimeNs primaryKey newState false info)
    t (mStateMap t).

Definition clearStateForPrimaryKey (t : Tracker) (eventTimeNs : Z) (primaryKey : list Z) : Tracker :=
  match mStateMap t !! primaryKey with
  | Some info => updateStateForPrimaryKey t eventTimeNs primaryKey kStateUnknown false info
  | None => t
  end.

(** A state atom event as the tracker sees it: its time, its primary key
    (the [filterPrimaryKey] projection), the exclusive state field value
    ([None] when the event has no exclusive state field), the reset state
    ([-1] when absent) and the nested annotation of the state field. *)
Record StateEvent := mkStateEvent
  { ev_time : Z; ev_primaryKey : list Z; ev_state : option Value; ev_resetState : Z;
    ev_nested : bool }.

Definition onLogEvent (t : Tracker) (event : StateEvent) : Tracker :=
  let eventTimeNs := ev_time event in
  let primaryKey := ev_primaryKey event in
  match ev_state event with
  | None => clearStateForPrimaryKey t eventTimeNs primaryKey
  | Some (VInt newState) =>
      if negb (ev_resetState event =? -1) then handleReset t eventTimeNs (ev_resetState event)
      else updateStateForPrimaryKey t eventTimeNs primaryKey newState (ev_nested event)
             (default defaultStateValueInfo (mStateMap t !! primaryKey))
  | Some _ => clearStateForPrimaryKey t eventTimeNs primaryKey
  end.

Definition getStateValue (t : Tracker) (queryKey : list Z) : Z :=
  match mStateMap t !! queryKey with
  | Some info => state info
  | None => kStateUnknown
  end.

(** A nested state event without reset. *)
Definition nestedEvent (eventTimeNs : Z) (primaryKey : list Z) (newState : Z) : StateEvent :=
  mkStateEvent eventTimeNs primaryKey (Some (VInt newState)) (-1) true.

(** The calls [notifyListeners] makes for one state change. *)
Definition changes_for (t : Tracker) (eventTimeNs : Z) (primaryKey : list Z) (oldState newState : Z)
    : list StateChange :=
  map (fun l => mkStateChange l eventTimeNs (atomId t) primaryKey oldState newState) (mListeners t).

(** A sequence of nested ON/OFF events on one key: [true] logs [on],
    [false] logs [off]. *)
Fixpoint run_on_off (t : Tracker) (primaryKey : list Z) (on off : Z) (bs : list bool) : Tracker :=
  match bs with
  | [] => t
  | b :: bs' => run_on_off (onLogEvent t (nestedEvent 0 primaryKey (if b then on else off)))
                  primaryKey on off bs'
  end.

(** The running count: number of ON events minus number of OFF events. *)
Definition on_off_balance (bs : list bool) : Z :=
  Z.of_nat (length (List.filter (fun b : bool => b) bs)) - Z.of_nat (length (List.filter negb bs)).

(** The entry of a key after nested ON/OFF events with running count [r]:
    ON with count [r] while [r] is positive, OFF with count [1 - r]
    otherwise. *)
Definition on_off_entry (on off r : Z) : StateValueInfo :=
  if 0 <? r then mkStateValueInfo on r else mkStateValueInfo off (1 - r).

(** [mListeners] is a [std::set] of listeners ordered by pointer: a list
    kept sorted and without duplicates. [registerListener] inserts into it,
    [unregisterListener] erases from it. *)
Fixpoint listener_set_insert (l : nat) (ls : list nat) : list nat :=
  match ls with
  | [] => [l]
  | x :: rest =>
      if Nat.eqb x l then ls
      else if Nat.ltb l x then l :: ls
      else x :: listener_set_insert l rest
  end.

Definition registerListener (t : Tracker) (listener : nat) : Tracker :=
  mkTracker (atomId t) (mStateMap t) (listener_set_insert listener (mListeners t)) (notified t).

Definition unregisterListener (t : Tracker) (listener : nat) : Tracker :=
  mkTracker (atomId t) (mStateMap t)
    (List.filter (fun x => negb (Nat.eqb x listener)) (mListeners t)) (notified t).

(** The shape of [mStateMap] that [updateStateForPrimaryKey] keeps: every
    entry has a known state and a positive count. *)
Definition well_formed (t : Tracker) : Prop :=
  map_Forall (fun _ info => state info <> kStateUnknown /\ 0 < count info) (mStateMap t).

(** The entry [handleReset] leaves for a key: the reset state with count 1,
    unless the key already had that state. *)
Definition reset_entry (r : Z) (info : StateValueInfo) : StateValueInfo :=
  if state info =? r then info else mkStateValueInfo r 1.

End StateTracker.

(** The sub-ranges of a narrowed range [lo, hi) at a repeated-field depth:
    the maximal runs of consecutive values sharing one position at that
    depth (for DFS-sorted values, the values sharing one position). *)
Module MatcherSpec.
Import Matcher.

Definition is_subrange (values : list FieldValue) (depth lo hi x y : nat) : Prop :=
  (lo <= x)%nat /\ (x < y)%nat /\ (y <= hi)%nat /\
  (forall j, (x <= j < y)%nat -> pos_at values depth j = pos_at values depth x) /\
  (x = lo \/ pos_at values depth (x - 1)%nat <> pos_at values depth x) /\
  (y = hi \/ pos_at values depth y <> pos_at values depth (y - 1)%nat).

End MatcherSpec.

(* ================================================================== *)
(** * Configuration update: the preserve/replace decision *)
(* ================================================================== *)

(** Modelled from the spec: metrics/parsing_utils/config_update_utils.cpp is
    not part of this source tree. Its matcher pass
    [determineMatcherUpdateStatus] is modelled from the preserve/replace
    rules of the specification and the unit tests of
    config_update_utils_test.cpp: a matcher already examined is skipped; a
    matcher whose id has no old tracker is NEW; one whose serialization
    differs from its old tracker's is REPLACE without examining its
    children; a simple matcher is otherwise PRESERVE; a combination marks
    itself in progress in [cycleTracker], examines its children in order
    (an unknown child id or a child in progress is an error), stops at the
    first child that is REPLACE or NEW and is then REPLACE, and is PRESERVE
    when every child is PRESERVE. The serialization is a parameter. *)
Module ConfigUpdate.
Import Matcher.

Inductive UpdateStatus := UPDATE_UNKNOWN | UPDATE_PRESERVE | UPDATE_REPLACE | UPDATE_NEW.

#[global] Instance UpdateStatus_eq_dec : EqDecision UpdateStatus.
Proof. solve_decision. Defined.

Inductive AtomMatcherContents :=
  | kSimpleAtomMatcher (simple_atom_matcher : SimpleAtomMatcher)
  | kCombination (operation : LogicalOperation) (matcher : list Z)
  | CONTENTS_NOT_SET.

Record AtomMatcher := mkAtomMatcher { id : Z; contents : AtomMatcherContents }.

Inductive InvalidConfigReason :=
  | INVALID_CONFIG_REASON_MATCHER_NOT_IN_CONFIG (matcherIdx : nat)
  | INVALID_CONFIG_REASON_MATCHER_CHILD_NOT_FOUND (matcherId childId : Z)
  | INVALID_CONFIG_REASON_MATCHER_CYCLE (matcherId childId : Z)
  | INVALID_CONFIG_REASON_MATCHER_MALFORMED (matcherId : Z)
  | INVALID_CONFIG_REASON_MATCHER_DEPTH (matcherId : Z).

(** [matchersToUpdate] and [cycleTracker], indexed like the new config. *)
Record UpdateState := mkUpdateState
  { matchersToUpdate : list UpdateStatus; cycleTracker : list bool }.

Definition status_at (st : UpdateState) (i : nat) : UpdateStatus :=
  default UPDATE_UNKNOWN (matchersToUpdate st !! i).

Definition cycling (st : UpdateState) (i : nat) : bool :=
  default false (cycleTracker st !! i).

Definition set_status (st : UpdateState) (i : nat) (s : UpdateStatus) : UpdateState :=
  mkUpdateState (<[i := s]> (matchersToUpdate st)) (cycleTracker st).

Definition set_cycle (st : UpdateState) (i : nat) (b : bool) : UpdateState :=
  mkUpdateState (matchersToUpdate st) (<[i := b]> (cycleTracker st)).

(** The id -> index map of a list of matchers. *)
Fixpoint buildMatcherMap_from (i : nat) (matchers : list AtomMatcher) : gmap Z nat :=
  match matchers with
  | [] => ∅
  | m :: rest => <[id m := i]> (buildMatcherMap_from (S i) rest)
  end.

Definition buildMatcherMap (matchers : list AtomMatcher) : gmap Z nat :=
  buildMatcherMap_from 0 matchers.

Section Decide.
Variable SerializeToString : AtomMatcher -> list Z.
Variable config : list AtomMatcher.
Variable oldAtomMatchingTrackerMap : gmap Z nat.
(** The definition each old tracker was built from (its proto hash). *)
Variable oldAtomMatchingTrackers : list AtomMatcher.
Variable newAtomMatchingTrackerMap : gmap Z nat.

(** The loop over the children of a combination: [determine] examines one
    child. Returns the combination's status. *)
Fixpoint children_loop (determine : nat -> UpdateState -> InvalidConfigReason + UpdateState)
    (matcherId : Z) (children : list Z) (st : UpdateState)
    : InvalidConfigReason + (UpdateStatus * UpdateState) :=
  match children with
  | [] => inr (UPDATE_PRESERVE, st)
  | childMatcherId :: rest =>
      match newAtomMatchingTrackerMap !! childMatcherId with
      | None => inl (INVALID_CONFIG_REASON_MATCHER_CHILD_NOT_FOUND matcherId childMatcherId)
      | Some childIdx =>
          if cycling st childIdx
          then inl (INVALID_CONFIG_REASON_MATCHER_CYCLE matcherId childMatcherId)
          else match determine childIdx st with
               | inl e => inl e
               | inr st' =>
                   if bool_decide (status_at st' childIdx = UPDATE_REPLACE)
                      || bool_decide (status_at st' childIdx = UPDATE_NEW)
                   then inr (UPDATE_REPLACE, st')
                   else children_loop determine matcherId rest st'
               end
      end
  end.

(** [fuel] bounds the recursion depth (the number of matchers suffices:
    [cycleTracker] rejects a path through a matcher twice). *)
Fixpoint determineMatcherUpdateStatus (fuel : nat) (matcherIdx : nat) (st : UpdateState)
    : InvalidConfigReason + UpdateState :=
  if negb (bool_decide (status_at st matcherIdx = UPDATE_UNKNOWN)) then inr st else
  match config !! matcherIdx with
  | None => inl (INVALID_CONFIG_REASON_MATCHER_NOT_IN_CONFIG matcherIdx)
  | Some matcher =>
      match oldAtomMatchingTrackerMap !! id matcher with
      | None => inr (set_status st matcherIdx UPDATE_NEW)
      | Some oldIdx =>
          if negb (bool_decide (Some (SerializeToString matcher) =
                                SerializeToString <$> oldAtomMatchingTrackers !! oldIdx))
          then inr (set_status st matcherIdx UPDATE_REPLACE)
          else match contents matcher with
               | kSimpleAtomMatcher _ => inr (set_status st matcherIdx UPDATE_PRESERVE)
               | kCombination _ children =>
                   match fuel with
                   | O => inl (INVALID_CONFIG_REASON_MATCHER_DEPTH (id matcher))
                   | S fuel' =>
                       match children_loop (determineMatcherUpdateStatus fuel') (id matcher)
                               children (set_cycle st matcherIdx true) with
                       | inl e => inl e
                       | inr (status, st') =>
                           inr (set_cycle (set_status st' matcherIdx status) matcherIdx false)
                       end
                   end
               | CONTENTS_NOT_SET => inl (INVALID_CONFIG_REASON_MATCHER_MALFORMED (id matcher))
               end
      end
  end.

(** The pass over all matchers of the new config, in index order. *)
Fixpoint update_loop (fuel : nat) (idxs : list nat) (st : UpdateState)
    : InvalidConfigReason + UpdateState :=
  match idxs with
  | [] => inr st
  | i :: rest =>
      match determineMatcherUpdateStatus fuel i st with
      | inl e => inl e
      | inr st' => update_loop fuel rest st'
      end
  end.

(** Invariants of the decision state, used by the proofs: the arrays have
    one slot per matcher; a matcher in progress has no status yet; a
    PRESERVE combination has PRESERVE children; a NEW matcher has no old
    tracker. *)
Definition state_len (st : UpdateState) : Prop :=
  length (matchersToUpdate st) = length config /\ length (cycleTracker st) = length config.

Definition in_progress_unknown (st : UpdateState) : Prop :=
  forall j, cycling st j = true -> status_at st j = UPDATE_UNKNOWN.

Definition preserve_closed (st : UpdateState) : Prop :=
  forall i m op children, config !! i = Some m -> contents m = kCombination op children ->
  status_at st i = UPDATE_PRESERVE ->
  forall c, In c children ->
  exists ci, newAtomMatchingTrackerMap !! c = Some ci /\ status_at st ci = UPDATE_PRESERVE.

Definition new_unmatched (st : UpdateState) : Prop :=
  forall i m, config !! i = Some m -> status_at st i = UPDATE_NEW ->
  oldAtomMatchingTrackerMap !! id m = None.

Definition decision_invariant (st : UpdateState) : Prop :=
  state_len st /\ in_progress_unknown st /\ preserve_closed st /\ new_unmatched st.

End Decide.

(** A later decision state keeps every status already decided and every
    status of a matcher in progress, and the same in-progress marks. *)
Definition extends (st st' : UpdateState) : Prop :=
  (forall j, status_at st j <> UPDATE_UNKNOWN \/ cycling st j = true ->
             status_at st' j = status_at st j) /\
  cycleTracker st' = cycleTracker st.

(** The decision for every matcher of [newConfig] against the graph
    installed from [oldConfig]. *)
Definition updateAtomMatchingTrackers (SerializeToString : AtomMatcher -> list Z)
    (oldConfig newConfig : list AtomMatcher) : InvalidConfigReason + UpdateState :=
  let n := length newConfig in
  update_loop SerializeToString newConfig (buildMatcherMap oldConfig) oldConfig
    (buildMatcherMap newConfig) n (seq 0 n)
    (mkUpdateState (replicate n UPDATE_UNKNOWN) (replicate n false)).

(** The matchers of the unit tests [TestCombinationMatcher*]: simple
    matchers on atoms 10 and 11 and their OR combination; the ids 1, 2 and 3
    stand for [StringToId("TEST1")], [StringToId("TEST2")] and
    [StringToId("TEST3")]. [test_matcher2_changed] is the second matcher
    with its atom changed to 12 ([TestCombinationMatcherDepsChange]). *)
Definition test_matcher1 : AtomMatcher :=
  mkAtomMatcher 1 (kSimpleAtomMatcher (mkSimpleAtomMatcher 10 [])).
Definition test_matcher2 : AtomMatcher :=
  mkAtomMatcher 2 (kSimpleAtomMatcher (mkSimpleAtomMatcher 11 [])).
Definition test_matcher3 : AtomMatcher := mkAtomMatcher 3 (kCombination OR [1; 2]).
Definition test_matcher2_changed : AtomMatcher :=
  mkAtomMatcher 2 (kSimpleAtomMatcher (mkSimpleAtomMatcher 12 [])).

(** The installed config and the reordered new configs of the tests. *)
Definition test_old_config : list AtomMatcher := [test_matcher1; test_matcher2; test_matcher3].
Definition test_preserve_config : list AtomMatcher := [test_matcher2; test_matcher3; test_matcher1].
Definition test_deps_change_config : list AtomMatcher :=
  [test_matcher2_changed; test_matcher3; test_matcher1].

(** A serialization for these examples: the id, then the atom of a simple
    matcher or the operation and children of a combination. *)
Definition LogicalOperation_code (op : LogicalOperation) : Z :=
  match op with
  | LOGICAL_OPERATION_UNSPECIFIED => 0 | AND => 1 | OR => 2 | NOT => 3 | NAND => 4 | NOR => 5
  end.

Definition test_serialize (m : AtomMatcher) : list Z :=
  id m :: match contents m with
          | kSimpleAtomMatcher s => [0; atom_id s]
          | kCombination op children => 1 :: LogicalOperation_code op :: children
          | CONTENTS_NOT_SET => [2]
          end.

(** The passes after the matchers. The specification gives every kind of
    node the rule of the matchers: NEW without an old node of that id,
    REPLACE when the serializations differ or a dependency is REPLACE or
    NEW, PRESERVE otherwise; the kinds are decided in the order matchers,
    conditions (predicates), states, metrics, alerts, each by a DFS with a
    cycle marker over the children of its own kind (the combination
    conditions). A node is reduced to what the decision reads: its id, its
    children of its own kind, the nodes of earlier kinds it uses
    (matcher -> condition, {matcher, condition, state} -> metric,
    metric -> alert) and the rest of its definition. *)
Inductive NodeKind := KMatcher | KCondition | KState | KMetric | KAlert.

#[global] Instance NodeKind_eq_dec : EqDecision NodeKind.
Proof. solve_decision. Defined.

Record ConfigNode := mkConfigNode
  { node_id : Z; node_children : list Z; node_deps : list (NodeKind * Z); node_body : list Z }.

Inductive InvalidNodeReason :=
  | NODE_INVALID_MATCHER (reason : InvalidConfigReason)
  | NODE_NOT_IN_CONFIG (kind : NodeKind) (nodeIdx : nat)
  | NODE_CHILD_NOT_FOUND (kind : NodeKind) (nodeId childId : Z)
  | NODE_CYCLE (kind : NodeKind) (nodeId childId : Z)
  | NODE_DEP_NOT_FOUND (kind : NodeKind) (nodeId : Z) (depKind : NodeKind) (depId : Z)
  | NODE_DEPTH (kind : NodeKind) (nodeId : Z).

(** The kinds a node of each kind may use. *)
Definition deps_before (k : NodeKind) : list NodeKind :=
  match k with
  | KMatcher => []
  | KCondition => [KMatcher]
  | KState => []
  | KMetric => [KMatcher; KCondition; KState]
  | KAlert => [KMetric]
  end.

Fixpoint buildNodeMap_from (i : nat) (nodes : list ConfigNode) : gmap Z nat :=
  match nodes with
  | [] => ∅
  | nd :: rest => <[node_id nd := i]> (buildNodeMap_from (S i) rest)
  end.

Definition buildNodeMap (nodes : list ConfigNode) : gmap Z nat := buildNodeMap_from 0 nodes.

Section DecideNodes.
Variable kind : NodeKind.
Variable SerializeNode : ConfigNode -> list Z.
Variable nodes : list ConfigNode.
Variable oldNodeMap : gmap Z nat.
Variable oldNodes : list ConfigNode.
Variable newNodeMap : gmap Z nat.
(** The statuses decided by the earlier passes, by kind and id. *)
Variable dep_status : NodeKind -> Z -> option UpdateStatus.

(** The dependencies on earlier kinds: REPLACE as soon as one is REPLACE
    or NEW, an error for an unknown one. *)
Fixpoint deps_loop (nodeId : Z) (deps : list (NodeKind * Z)) : InvalidNodeReason + UpdateStatus :=
  match deps with
  | [] => inr UPDATE_PRESERVE
  | (k, x) :: rest =>
      match dep_status k x with
      | None => inl (NODE_DEP_NOT_FOUND kind nodeId k x)
      | Some s =>
          if bool_decide (s = UPDATE_REPLACE) || bool_decide (s = UPDATE_NEW)
          then inr UPDATE_REPLACE
          else deps_loop nodeId rest
      end
  end.

Fixpoint node_children_loop (determine : nat -> UpdateState -> InvalidNodeReason + UpdateState)
    (nodeId : Z) (children : list Z) (st : UpdateState)
    : InvalidNodeReason + (UpdateStatus * UpdateState) :=
  match children with
  | [] => inr (UPDATE_PRESERVE, st)
  | childId :: rest =>
      match newNodeMap !! childId with
      | None => inl (NODE_CHILD_NOT_FOUND kind nodeId childId)
      | Some childIdx =>
          if cycling st childIdx
          then inl (NODE_CYCLE kind nodeId childId)
          else match determine childIdx st with
               | inl e => inl e
               | inr st' =>
                   if bool_decide (status_at st' childIdx = UPDATE_REPLACE)
                      || bool_decide (status_at st' childIdx = UPDATE_NEW)
                   then inr (UPDATE_REPLACE, st')
                   else node_children_loop determine nodeId rest st'
               end
      end
  end.

(** The DFS of one node: as [determineMatcherUpdateStatus], with the
    dependencies on earlier kinds examined before the children. The status
    and cycle arrays are those of the matcher pass ([UpdateState]). *)
Fixpoint determineNodeUpdateStatus (fuel : nat) (nodeIdx : nat) (st : UpdateState)
    : InvalidNodeReason + UpdateState :=
  if negb (bool_decide (status_at st nodeIdx = UPDATE_UNKNOWN)) then inr st else
  match nodes !! nodeIdx with
  | None => inl (NODE_NOT_IN_CONFIG kind nodeIdx)
  | Some node =>
      match oldNodeMap !! node_id node with
      | None => inr (set_status st nodeIdx UPDATE_NEW)
      | Some oldIdx =>
          if negb (bool_decide (Some (SerializeNode node) =
                                SerializeNode <$> oldNodes !! oldIdx))
          then inr (set_status st nodeIdx UPDATE_REPLACE)
          else match deps_loop (node_id node) (node_deps node) with
               | inl e => inl e
               | inr depStatus =>
                   if bool_decide (depStatus = UPDATE_REPLACE)
                   then inr (set_status st nodeIdx UPDATE_REPLACE)
                   else match node_children node with
                        | [] => inr (set_status st nodeIdx UPDATE_PRESERVE)
                        | _ :: _ =>
                            match fuel with
                            | O => inl (NODE_DEPTH kind (node_id node))
                            | S fuel' =>
                                match node_children_loop (determineNodeUpdateStatus fuel')
                                        (node_id node) (node_children node)
                                        (set_cycle st nodeIdx true) with
                                | inl e => inl e
                                | inr (status, st') =>
                                    inr (set_cycle (set_status st' nodeIdx status) nodeIdx false)
                                end
                            end
                        end
               end
      end
  end.

Fixpoint update_nodes_loop (fuel : nat) (idxs : list nat) (st : UpdateState)
    : InvalidNodeReason + UpdateState :=
  match idxs with
  | [] => inr st
  | i :: rest =>
      match determineNodeUpdateStatus fuel i st with
      | inl e => inl e
      | inr st' => update_nodes_loop fuel rest st'
      end
  end.

End DecideNodes.

Definition updateNodes (kind : NodeKind) (SerializeNode : ConfigNode -> list Z)
    (oldNodes newNodes : list ConfigNode) (dep_status : NodeKind -> Z -> option UpdateStatus)
    : InvalidNodeReason + UpdateState :=
  let n := length newNodes in
  update_nodes_loop kind SerializeNode newNodes (buildNodeMap oldNodes) oldNodes
    (buildNodeMap newNodes) dep_status n (seq 0 n)
    (mkUpdateState (replicate n UPDATE_UNKNOWN) (replicate n false)).

(** A configuration and the statuses of its nodes, kind by kind. *)
Record StatsdConfig := mkStatsdConfig
  { atom_matcher : list AtomMatcher; predicate : list ConfigNode; state : list ConfigNode;
    metric : list ConfigNode; alert : list ConfigNode }.

Record ConfigUpdateResult := mkConfigUpdateResult
  { matcherStatus : list UpdateStatus; conditionStatus : list UpdateStatus;
    stateStatus : list UpdateStatus; metricStatus : list UpdateStatus;
    alertStatus : list UpdateStatus }.

Definition kind_nodes (c : StatsdConfig) (k : NodeKind) : list ConfigNode :=
  match k with
  | KMatcher => []
  | KCondition => predicate c
  | KState => state c
  | KMetric => metric c
  | KAlert => alert c
  end.

Definition kind_ids (c : StatsdConfig) (k : NodeKind) : list Z :=
  match k with
  | KMatcher => map id (atom_matcher c)
  | _ => map node_id (kind_nodes c k)
  end.

Definition status_by_id (m : gmap Z nat) (statuses : list UpdateStatus) (x : Z)
    : option UpdateStatus :=
  match m !! x with Some i => statuses !! i | None => None end.

Definition status_of (c : StatsdConfig) (r : ConfigUpdateResult) (k : NodeKind) (x : Z)
    : option UpdateStatus :=
  match k with
  | KMatcher => status_by_id (buildMatcherMap (atom_matcher c)) (matcherStatus r) x
  | KCondition => status_by_id (buildNodeMap (predicate c)) (conditionStatus r) x
  | KState => status_by_id (buildNodeMap (state c)) (stateStatus r) x
  | KMetric => status_by_id (buildNodeMap (metric c)) (metricStatus r) x
  | KAlert => status_by_id (buildNodeMap (alert c)) (alertStatus r) x
  end.

(** What a node of kind [k] sees of the statuses decided so far: the
    kinds it may use, nothing else. *)
Definition dep_status_for (c : StatsdConfig) (r : ConfigUpdateResult) (k dk : NodeKind) (x : Z)
    : option UpdateStatus :=
  if decide (dk ∈ deps_before k) then status_of c r dk x else None.

(** The decision for every node of [newConfig] against the graph
    installed from [oldConfig], kind after kind. *)
Definition updateStatsdConfig (SerializeToString : AtomMatcher -> list Z)
    (SerializeNode : ConfigNode -> list Z) (oldConfig newConfig : StatsdConfig)
    : InvalidNodeReason + ConfigUpdateResult :=
  match updateAtomMatchingTrackers SerializeToString (atom_matcher oldConfig)
          (atom_matcher newConfig) with
  | inl e => inl (NODE_INVALID_MATCHER e)
  | inr stM =>
      let r0 := mkConfigUpdateResult (matchersToUpdate stM) [] [] [] [] in
      match updateNodes KCondition SerializeNode (predicate oldConfig) (predicate newConfig)
              (dep_status_for newConfig r0 KCondition) with
      | inl e => inl e
      | inr stC =>
          let r1 := mkConfigUpdateResult (matchersToUpdate stM) (matchersToUpdate stC) [] [] [] in
          match updateNodes KState SerializeNode (state oldConfig) (state newConfig)
                  (dep_status_for newConfig r1 KState) with
          | inl e => inl e
          | inr stS =>
              let r2 := mkConfigUpdateResult (matchersToUpdate stM) (matchersToUpdate stC)
                          (matchersToUpdate stS) [] [] in
              match updateNodes KMetric SerializeNode (metric oldConfig) (metric newConfig)
                      (dep_status_for newConfig r2 KMetric) with
              | inl e => inl e
              | inr stMet =>
                  let r3 := mkConfigUpdateResult (matchersToUpdate stM) (matchersToUpdate stC)
                              (matchersToUpdate stS) (matchersToUpdate stMet) [] in
                  match updateNodes KAlert SerializeNode (alert oldConfig) (alert newConfig)
                          (dep_status_for newConfig r3 KAlert) with
                  | inl e => inl e
                  | inr stA =>
                      inr (mkConfigUpdateResult (matchersToUpdate stM) (matchersToUpdate stC)
                             (matchersToUpdate stS) (matchersToUpdate stMet)
                             (matchersToUpdate stA))
                  end
              end
          end
      end
  end.

(** A configuration with every kind: the three test matchers; a simple
    condition on matchers 1 and 2 and a combination of it; a state; a
    metric on matcher 3, the combination condition and the state; an alert
    on the metric. The new configuration lists the conditions and matchers
    in another order. A serialization of nodes for the example. *)
Definition test_condition_simple : ConfigNode := mkConfigNode 10 [] [(KMatcher, 1); (KMatcher, 2)] [0].
Definition test_condition_combination : ConfigNode := mkConfigNode 11 [10] [] [1].
Definition test_state : ConfigNode := mkConfigNode 20 [] [] [29].
Definition test_metric : ConfigNode :=
  mkConfigNode 30 [] [(KMatcher, 3); (KCondition, 11); (KState, 20)] [3].
Definition test_alert : ConfigNode := mkConfigNode 40 [] [(KMetric, 30)] [5].

Definition test_old_statsd_config : StatsdConfig :=
  mkStatsdConfig test_old_config [test_condition_simple; test_condition_combination] [test_state]
    [test_metric] [test_alert].
Definition test_new_statsd_config : StatsdConfig :=
  mkStatsdConfig test_preserve_config [test_condition_combination; test_condition_simple]
    [test_state] [test_metric] [test_alert].

Definition NodeKind_code (k : NodeKind) : Z :=
  match k with KMatcher => 0 | KCondition => 1 | KState => 2 | KMetric => 3 | KAlert => 4 end.

Definition test_serialize_node (nd : ConfigNode) : list Z :=
  node_id nd :: Z.of_nat (length (node_children nd)) :: node_children nd ++
  flat_map (fun d => [NodeKind_code d.1; d.2]) (node_deps nd) ++ node_body nd.

End ConfigUpdate.

(* ================================================================== *)
(** * Periodic alarms *)
(* ================================================================== *)

(** Modelled from the spec: anomaly/AlarmTracker.cpp is not part of this
    source tree. The next fire time (in seconds) of a periodic alarm with
    offset [offsetSec] and period [periodSec] is the offset itself while
    the offset is still ahead of the current time (TestUpdateAlarms of
    config_update_utils_test.cpp: offset 5s, update at 2s, next fire 5s),
    and otherwise the specification's epoch
    floor((now - offset)/period + 1) * period + offset. *)
Module Alarm.

Definition findNextAlarmSec (offsetSec periodSec currentTimeSec : Z) : Z :=
  if currentTimeSec <? offsetSec then offsetSec
  else ((currentTimeSec - offsetSec) / periodSec + 1) * periodSec + offsetSec.

End Alarm.

(* ================================================================== *)
(** * The uid map: packages/UidMap.cpp *)
(* ================================================================== *)

(** The map from (uid, package) to app data with its tombstones, the change
    log with its byte budget, and the per-config emission marks. Each public
    member function is a function on [UidMapState]; the listener is the
    boolean [mSubscriber] (a listener is set and still alive), and the
    callbacks it receives are appended to [notifications]. The byte budget
    loop may spin forever: the functions that run it return [None] then. *)
Module UidMap.

(** Modelled from the spec: UidMap.h is not part of this source tree; the
    fields are those UidMap.cpp reads and writes. *)
Record AppData := mkAppData
  { versionCode : Z; versionString : string; installer : string;
    certificateHash : string; deleted : bool }.

(** Modelled from the spec: the [ChangeRecord] of UidMap.h, with the fields
    in the order of its constructor as UidMap.cpp calls it. *)
Record ChangeRecord := mkChangeRecord
  { deletion : bool; timestampNs : Z; package : string; cr_uid : Z;
    version : Z; cr_versionString : string; prevVersion : Z;
    prevVersionString : string }.

(** Modelled from the spec: config/ConfigKey.h is not part of this source
    tree; a config key is a (uid, id) pair ordered lexicographically. *)
Record ConfigKey := mkConfigKey { ck_uid : Z; ck_id : Z }.

Definition ConfigKey_eqb (a b : ConfigKey) : bool :=
  (ck_uid a =? ck_uid b) && (ck_id a =? ck_id b).

Definition ConfigKey_ltb (a b : ConfigKey) : bool :=
  (ck_uid a <? ck_uid b) || ((ck_uid a =? ck_uid b) && (ck_id a <? ck_id b)).

(** An [AppInfo] entry of the [UidData] proto given to [updateMap]. *)
Record AppInfo := mkAppInfo
  { ai_uid : Z; package_name : string; ai_version : Z;
    version_string : string; ai_installer : string;
    certificate_hash : string }.

(** The callbacks of [PackageInfoListener]. *)
Inductive Notification :=
  | NotifyAppUpgrade (timestamp : Z) (appName : string) (uid : Z) (versionCode : Z)
  | NotifyAppRemoved (timestamp : Z) (appName : string) (uid : Z)
  | OnUidMapReceived (timestamp : Z).

Record UidMapState := mkUidMapState
  { mMap : gmap (Z * string) AppData;
    mDeletedApps : list (Z * string);
    mChanges : list ChangeRecord;
    mBytesUsed : Z;
    mLastUpdatePerConfigKey : list (ConfigKey * Z);
    mSubscriber : bool;
    maxBytesOverride : Z;
    notifications : list Notification }.

Definition initialUidMap (override : Z) : UidMapState :=
  mkUidMapState ∅ [] [] 0 [] false override [].

(** [mLastUpdatePerConfigKey], a [std::map] keyed by [ConfigKey]: an
    association list sorted by key. *)
Fixpoint mark_find (marks : list (ConfigKey * Z)) (key : ConfigKey) : option Z :=
  match marks with
  | [] => None
  | (k, v) :: rest => if ConfigKey_eqb k key then Some v else mark_find rest key
  end.

(** [marks[key] = v]. *)
Fixpoint mark_set (marks : list (ConfigKey * Z)) (key : ConfigKey) (v : Z)
    : list (ConfigKey * Z) :=
  match marks with
  | [] => [(key, v)]
  | (k, v') :: rest =>
      if ConfigKey_eqb k key then (k, v) :: rest
      else if ConfigKey_ltb key k then (key, v) :: (k, v') :: rest
      else (k, v') :: mark_set rest key v
  end.

(** [marks.erase(key)]. *)
Fixpoint mark_erase (marks : list (ConfigKey * Z)) (key : ConfigKey)
    : list (ConfigKey * Z) :=
  match marks with
  | [] => []
  | (k, v) :: rest => if ConfigKey_eqb k key then rest else (k, v) :: mark_erase rest key
  end.

(** [marks[key]] as an rvalue: a mark of 0 is inserted when [key] has none. *)
Definition mark_subscript (marks : list (ConfigKey * Z)) (key : ConfigKey)
    : list (ConfigKey * Z) * Z :=
  match mark_find marks key with
  | Some v => (marks, v)
  | None => (mark_set marks key 0, 0)
  end.

(** [::tolower] on one character. *)
Definition tolower (c : Ascii.ascii) : Ascii.ascii :=
  let n := Ascii.nat_of_ascii c in
  if (65 <=? n)%nat && (n <=? 90)%nat then Ascii.ascii_of_nat (n + 32) else c.

Fixpoint normalizeAppName (appName : string) : string :=
  match appName with
  | EmptyString => EmptyString
  | String c rest => String (tolower c) (normalizeAppName rest)
  end.

(** Whether a string holds an ASCII capital letter. *)
Fixpoint has_upper (str : string) : bool :=
  match str with
  | EmptyString => false
  | String c rest =>
      let n := Ascii.nat_of_ascii c in ((65 <=? n)%nat && (n <=? 90)%nat) || has_upper rest
  end.

Definition hasApp (s : UidMapState) (uid : Z) (packageName : string) : bool :=
  match mMap s !! (uid, packageName) with
  | Some d => negb (deleted d)
  | None => false
  end.

Definition getAppNamesFromUidLocked (s : UidMapState) (uid : Z)
    (returnNormalized : bool) : gset string :=
  map_fold (fun (k : Z * string) (d : AppData) (names : gset string) =>
              if (k.1 =? uid) && negb (deleted d)
              then {[ if returnNormalized then normalizeAppName k.2 else k.2 ]} ∪ names
              else names) ∅ (mMap s).

Definition getAppVersion (s : UidMapState) (uid : Z) (packageName : string) : Z :=
  match mMap s !! (uid, packageName) with
  | Some d => if deleted d then 0 else versionCode d
  | None => 0
  end.

Definition getAppUid (s : UidMapState) (package : string) : gset Z :=
  map_fold (fun (k : Z * string) (d : AppData) (results : gset Z) =>
              if bool_decide (k.2 = package) && negb (deleted d)
              then {[ k.1 ]} ∪ results
              else results) ∅ (mMap s).

(** The minimum of the marks, where a running minimum of 0 is replaced by
    the next mark. *)
Definition getMinimumTimestampNs (marks : list (ConfigKey * Z)) : Z :=
  fold_left (fun m kv => if m =? 0 then kv.2 else if kv.2 <? m then kv.2 else m) marks 0.

(** [int32_t prevVersion = it->second.versionCode]. *)
Definition to_int32 (z : Z) : Z := (z + 2 ^ 31) mod 2 ^ 32 - 2 ^ 31.

Section Ops.
Variable kBytesChangeRecord : Z.
Variable kMaxBytesUsedUidMap : Z.
Variable kMaxDeletedAppsInUidMap : nat.

Definition bytes_limit (s : UidMapState) : Z :=
  if maxBytesOverride s <=? 0 then kMaxBytesUsedUidMap else maxBytesOverride s.

(** The loop of [ensureBytesUsedBelowLimit] on (mBytesUsed, mChanges);
    [None] when it spins forever: the bytes are above the limit and no
    change record is left to drop. *)
Fixpoint ensure_loop (limit bytes : Z) (changes : list ChangeRecord)
    : option (Z * list ChangeRecord) :=
  if limit <? bytes then
    match changes with
    | [] => None
    | _ :: rest => ensure_loop limit (bytes - kBytesChangeRecord) rest
    end
  else Some (bytes, changes).

Definition updateMap (s : UidMapState) (timestamp : Z) (app_info : list AppInfo)
    : option UidMapState :=
  let deletedApps := filter (fun kv : (Z * string) * AppData => deleted kv.2 = true) (mMap s) in
  let m1 := fold_left (fun m a =>
               <[(ai_uid a, package_name a) :=
                   mkAppData (ai_version a) (version_string a) (ai_installer a)
                             (certificate_hash a) false]> m) app_info ∅ in
  let m2 := map_fold (fun k d (m : gmap (Z * string) AppData) =>
               if bool_decide (is_Some (m !! k)) then <[k := d]> m else m) m1 deletedApps in
  match ensure_loop (bytes_limit s) (mBytesUsed s) (mChanges s) with
  | None => None
  | Some (bytes, changes) =>
      Some (mkUidMapState m2 (mDeletedApps s) changes bytes (mLastUpdatePerConfigKey s)
              (mSubscriber s) (maxBytesOverride s)
              (notifications s ++ if mSubscriber s then [OnUidMapReceived timestamp] else []))
  end.

Definition updateApp (s : UidMapState) (timestamp : Z) (appName : string) (uid : Z)
    (appVersionCode : Z) (appVersionString appInstaller appCertificateHash : string)
    : option UidMapState :=
  let key := (uid, appName) in
  let data := mkAppData appVersionCode appVersionString appInstaller appCertificateHash false in
  let '(prevVer, prevVerString, broadcast) :=
    match mMap s !! key with
    | Some d => (to_int32 (versionCode d), versionString d, mSubscriber s)
    | None => (0, EmptyString, false)
    end in
  let changes := mChanges s ++ [mkChangeRecord false timestamp appName uid appVersionCode
                                   appVersionString prevVer prevVerString] in
  match ensure_loop (bytes_limit s) (mBytesUsed s + kBytesChangeRecord) changes with
  | None => None
  | Some (bytes, changes') =>
      Some (mkUidMapState (<[key := data]> (mMap s)) (mDeletedApps s) changes' bytes
              (mLastUpdatePerConfigKey s) (mSubscriber s) (maxBytesOverride s)
              (notifications s ++
                 if broadcast then [NotifyAppUpgrade timestamp appName uid appVersionCode] else []))
  end.

Definition removeApp (s : UidMapState) (timestamp : Z) (app : string) (uid : Z)
    : option UidMapState :=
  let key := (uid, app) in
  let '(prevVer, prevVerString, m1, deletedApps1) :=
    match mMap s !! key with
    | Some d =>
        if negb (deleted d)
        then (versionCode d, versionString d,
              <[key := mkAppData (versionCode d) (versionString d) (installer d)
                                 (certificateHash d) true]> (mMap s),
              mDeletedApps s ++ [key])
        else (0, EmptyString, mMap s, mDeletedApps s)
    | None => (0, EmptyString, mMap s, mDeletedApps s)
    end in
  let '(m2, deletedApps2) :=
    if (kMaxDeletedAppsInUidMap <? length deletedApps1)%nat then
      match deletedApps1 with
      | oldest :: rest => (delete oldest m1, rest)
      | [] => (m1, [])
      end
    else (m1, deletedApps1) in
  let changes := mChanges s ++ [mkChangeRecord true timestamp app uid 0 EmptyString
                                   prevVer prevVerString] in
  match ensure_loop (bytes_limit s) (mBytesUsed s + kBytesChangeRecord) changes with
  | None => None
  | Some (bytes, changes') =>
      Some (mkUidMapState m2 deletedApps2 changes' bytes (mLastUpdatePerConfigKey s)
              (mSubscriber s) (maxBytesOverride s)
              (notifications s ++
                 if mSubscriber s then [NotifyAppRemoved timestamp app uid] else []))
  end.

Definition setListener (s : UidMapState) (listener : bool) : UidMapState :=
  mkUidMapState (mMap s) (mDeletedApps s) (mChanges s) (mBytesUsed s)
    (mLastUpdatePerConfigKey s) listener (maxBytesOverride s) (notifications s).

Definition clearOutput (s : UidMapState) : UidMapState :=
  mkUidMapState (mMap s) (mDeletedApps s) [] 0 (mLastUpdatePerConfigKey s)
    (mSubscriber s) (maxBytesOverride s) (notifications s).

Definition OnConfigUpdated (s : UidMapState) (key : ConfigKey) : UidMapState :=
  mkUidMapState (mMap s) (mDeletedApps s) (mChanges s) (mBytesUsed s)
    (mark_set (mLastUpdatePerConfigKey s) key (-1)) (mSubscriber s)
    (maxBytesOverride s) (notifications s).

Definition OnConfigRemoved (s : UidMapState) (key : ConfigKey) : UidMapState :=
  mkUidMapState (mMap s) (mDeletedApps s) (mChanges s) (mBytesUsed s)
    (mark_erase (mLastUpdatePerConfigKey s) key) (mSubscriber s)
    (maxBytesOverride s) (notifications s).

(** The first loop of [appendUidMap]: each record is emitted when its
    timestamp is above [mLastUpdatePerConfigKey[key]]. *)
Fixpoint emit_loop (marks : list (ConfigKey * Z)) (key : ConfigKey)
    (changes : list ChangeRecord) : list (ConfigKey * Z) * list ChangeRecord :=
  match changes with
  | [] => (marks, [])
  | record :: rest =>
      let '(marks1, mark) := mark_subscript marks key in
      let '(marks2, out) := emit_loop marks1 key rest in
      (marks2, if mark <? timestampNs record then record :: out else out)
  end.

(** The pruning loop of [appendUidMap]. *)
Fixpoint prune_loop (cutoff_nanos bytes : Z) (changes : list ChangeRecord)
    : Z * list ChangeRecord :=
  match changes with
  | [] => (bytes, [])
  | record :: rest =>
      if timestampNs record <? cutoff_nanos
      then prune_loop cutoff_nanos (bytes - kBytesChangeRecord) rest
      else let '(b, kept) := prune_loop cutoff_nanos bytes rest in (b, record :: kept)
  end.

(** What [appendUidMap] writes to the proto: the emitted change records and
    the snapshot of the map. *)
Record UidMapOutput := mkUidMapOutput
  { out_changes : list ChangeRecord;
    out_snapshot : list ((Z * string) * AppData) }.

Definition appendUidMap (s : UidMapState) (timestamp : Z) (key : ConfigKey)
    : UidMapState * UidMapOutput :=
  let '(marks1, emitted) := emit_loop (mLastUpdatePerConfigKey s) key (mChanges s) in
  let snapshot := map_to_list (mMap s) in
  let prevMin := getMinimumTimestampNs marks1 in
  let marks2 := mark_set marks1 key timestamp in
  let newMin := getMinimumTimestampNs marks2 in
  let '(bytes, changes) :=
    if prevMin <? newMin then prune_loop newMin (mBytesUsed s) (mChanges s)
    else (mBytesUsed s, mChanges s) in
  (mkUidMapState (mMap s) (mDeletedApps s) changes bytes marks2 (mSubscriber s)
     (maxBytesOverride s) (notifications s),
   mkUidMapOutput emitted snapshot).

(** The operations a client can call, and runs of them. *)
Inductive Op :=
  | OpUpdateMap (timestamp : Z) (app_info : list AppInfo)
  | OpUpdateApp (timestamp : Z) (appName : string) (uid : Z) (versionCode : Z)
      (versionString installer certificateHash : string)
  | OpRemoveApp (timestamp : Z) (app : string) (uid : Z)
  | OpAppendUidMap (timestamp : Z) (key : ConfigKey)
  | OpClearOutput
  | OpConfigUpdated (key : ConfigKey)
  | OpConfigRemoved (key : ConfigKey)
  | OpSetListener (listener : bool).

Definition apply_op (op : Op) (s : UidMapState) : option UidMapState :=
  match op with
  | OpUpdateMap t infos => updateMap s t infos
  | OpUpdateApp t n u v vs i c => updateApp s t n u v vs i c
  | OpRemoveApp t n u => removeApp s t n u
  | OpAppendUidMap t key => Some (appendUidMap s t key).1
  | OpClearOutput => Some (clearOutput s)
  | OpConfigUpdated key => Some (OnConfigUpdated s key)
  | OpConfigRemoved key => Some (OnConfigRemoved s key)
  | OpSetListener b => Some (setListener s b)
  end.

Fixpoint run_ops (ops : list Op) (s : UidMapState) : option UidMapState :=
  match ops with
  | [] => Some s
  | op :: rest =>
      match apply_op op s with
      | Some s' => run_ops rest s'
      | None => None
      end
  end.

End Ops.

(** [mIsolatedUidMap], guarded by its own mutex: isolated uid to host uid. *)
Definition assignIsolatedUid (m : gmap Z Z) (isolatedUid parentUid : Z) : gmap Z Z :=
  <[isolatedUid := parentUid]> m.

Definition removeIsolatedUid (m : gmap Z Z) (isolatedUid : Z) : gmap Z Z :=
  delete isolatedUid m.

Definition getHostUidOrSelf (m : gmap Z Z) (uid : Z) : Z :=
  match m !! uid with
  | Some parentUid => parentUid
  | None => uid
  end.

(** A map with one installed app, "Maps" at uid 1000. *)
Definition example_app_state : UidMapState :=
  mkUidMapState {[ (1000, "Maps") := mkAppData 1 EmptyString EmptyString EmptyString false ]}
    [] [] 0 [] false 0 [].

(** App "a" is installed, removed and installed again (it stays on the
    deleted-apps list), then app "b" is installed. *)
Definition example_reinstall_live_ops : list Op :=
  [OpUpdateApp 1 "a" 1000 1 EmptyString EmptyString EmptyString;
   OpRemoveApp 2 "a" 1000;
   OpUpdateApp 3 "a" 1000 2 EmptyString EmptyString EmptyString;
   OpUpdateApp 4 "b" 1001 1 EmptyString EmptyString EmptyString].

(** A snapshot holding "a" (deleted in [example_reinstall_ops]'s run) and
    a new app "b". *)
Definition example_snapshot : list AppInfo :=
  [mkAppInfo 1000 "app" 1 EmptyString EmptyString EmptyString;
   mkAppInfo 1001 "b" 1 EmptyString EmptyString EmptyString].

(** Scenarios: an install with a listener set, then its removal; three
    installs against a small byte budget; and two configs of which one is
    emitted after a change and the other removed. *)
Definition example_install_ops : list Op :=
  [OpSetListener true;
   OpUpdateApp 1 "app" 1000 1 EmptyString EmptyString EmptyString].

Definition example_reinstall_ops : list Op :=
  example_install_ops ++ [OpRemoveApp 2 "app" 1000].

Definition example_budget_ops : list Op :=
  [OpUpdateApp 1 "a" 1000 1 EmptyString EmptyString EmptyString;
   OpUpdateApp 2 "b" 1001 1 EmptyString EmptyString EmptyString;
   OpUpdateApp 3 "c" 1002 1 EmptyString EmptyString EmptyString].

Definition example_config_a : ConfigKey := mkConfigKey 1 1.

Definition example_config_b : ConfigKey := mkConfigKey 1 2.

Definition example_pruning_ops : list Op :=
  [OpConfigUpdated example_config_a; OpConfigUpdated example_config_b;
   OpUpdateApp 5 "app" 1000 1 EmptyString EmptyString EmptyString;
   OpAppendUidMap 10 example_config_a; OpConfigRemoved example_config_b].

End UidMap.

(* ================================================================== *)
(** * Proofs *)
(* ================================================================== *)

Module MatcherFacts.
Import Matcher.

Lemma MatchingState_eqb_eq a b : MatchingState_eqb a b = true <-> a = b.
Proof. destruct a, b; simpl; split; congruence. Qed.

Lemma and_loop_spec children rs :
  and_loop children rs = true <-> forall c, In c children -> resultAt rs c = kMatched.
Proof.
  induction children as [|c cs IH]; simpl.
  - split; [intros _ c []|reflexivity].
  - destruct (MatchingState_eqb (resultAt rs c) kMatched) eqn:E; simpl.
    + apply MatchingState_eqb_eq in E. rewrite IH. split.
      * intros H d [<-|Hd]; auto.
      * intros H d Hd; auto.
    + split; [discriminate|]. intros H. specialize (H c (or_introl eq_refl)).
      apply MatchingState_eqb_eq in H. congruence.
Qed.

Lemma or_loop_spec children rs :
  or_loop children rs = true <-> exists c, In c children /\ resultAt rs c = kMatched.
Proof.
  induction children as [|c cs IH]; simpl.
  - split; [discriminate|]. intros (c & [] & _).
  - destruct (MatchingState_eqb (resultAt rs c) kMatched) eqn:E.
    + apply MatchingState_eqb_eq in E. split; [eauto|reflexivity].
    + rewrite IH. split.
      * intros (d & Hd & Hr); eauto.
      * intros (d & [<-|Hd] & Hr); [|eauto].
        apply MatchingState_eqb_eq in Hr. congruence.
Qed.

Lemma nand_loop_spec children rs :
  nand_loop children rs = true <-> exists c, In c children /\ resultAt rs c <> kMatched.
Proof.
  induction children as [|c cs IH]; simpl.
  - split; [discriminate|]. intros (c & [] & _).
  - destruct (MatchingState_eqb (resultAt rs c) kMatched) eqn:E; simpl.
    + apply MatchingState_eqb_eq in E. rewrite IH. split.
      * intros (d & Hd & Hr); eauto.
      * intros (d & [<-|Hd] & Hr); [congruence|eauto].
    + split; [|reflexivity]. intros _. exists c. split; [auto|].
      intros Hc. apply MatchingState_eqb_eq in Hc. congruence.
Qed.

Lemma nor_loop_spec children rs :
  nor_loop children rs = true <-> forall c, In c children -> resultAt rs c <> kMatched.
Proof.
  induction children as [|c cs IH]; simpl.
  - split; [intros _ c []|reflexivity].
  - destruct (MatchingState_eqb (resultAt rs c) kMatched) eqn:E.
    + apply MatchingState_eqb_eq in E. split; [discriminate|].
      intros H. exfalso. exact (H c (or_introl eq_refl) E).
    + rewrite IH. split.
      * intros H d [<-|Hd]; [|auto]. intros Hc. apply MatchingState_eqb_eq in Hc. congruence.
      * intros H d Hd; auto.
Qed.

(** (C4) [combinationMatch] folds the children's states: AND holds iff every
    child is kMatched, OR iff some child is kMatched, NOT iff its (single)
    child is explicitly kNotMatched (kNotComputed does not count), NAND iff
    some child is not kMatched, NOR iff no child is kMatched, and
    LOGICAL_OPERATION_UNSPECIFIED never matches. *)
Theorem combinationMatch_semantics (children : list nat) (rs : list MatchingState) :
  (combinationMatch children AND rs = true <->
     forall c, In c children -> resultAt rs c = kMatched) /\
  (combinationMatch children OR rs = true <->
     exists c, In c children /\ resultAt rs c = kMatched) /\
  (forall c, combinationMatch [c] NOT rs = true <-> resultAt rs c = kNotMatched) /\
  (combinationMatch children NAND rs = true <->
     exists c, In c children /\ resultAt rs c <> kMatched) /\
  (combinationMatch children NOR rs = true <->
     forall c, In c children -> resultAt rs c <> kMatched) /\
  combinationMatch children LOGICAL_OPERATION_UNSPECIFIED rs = false.
Proof.
  split; [apply and_loop_spec|].
  split; [apply or_loop_spec|].
  split; [intros c; apply MatchingState_eqb_eq|].
  split; [apply nand_loop_spec|].
  split; [apply nor_loop_spec|reflexivity].
Qed.

(** ** Sub-range splitting of [Position::ANY] with [matches_tuple] *)

Lemma start_end_loop_lt target depth values : forall k i ns ne,
  (forall a, ns = Some a -> (a < ne)%nat /\ (a < i)%nat) ->
  forall a, fst (start_end_loop target depth values i k ns ne) = Some a ->
  (a < snd (start_end_loop target depth values i k ns ne))%nat.
Proof.
  induction k as [|k IH]; intros i ns ne Hinv a; simpl.
  - intros Ha. apply (Hinv a Ha).
  - destruct (pos_at values depth i =? target) eqn:E1.
    + apply IH. intros a' Ha'. destruct ns as [s|]; injection Ha' as <-.
      * destruct (Hinv s eq_refl); lia.
      * lia.
    + destruct (target <? pos_at values depth i).
      * simpl. intros Ha. apply (Hinv a Ha).
      * apply IH. intros a' Ha'. destruct (Hinv a' Ha'); lia.
Qed.

Lemma getStartEndAtDepth_lt target start end_ depth values a ne :
  getStartEndAtDepth target start end_ depth values = (Some a, ne) -> (a < ne)%nat.
Proof.
  unfold getStartEndAtDepth. intros H.
  pose proof (start_end_loop_lt target depth values (end_ - start) start None end_) as L.
  rewrite H in L. apply (L (fun _ H' => ltac:(discriminate H')) a eq_refl).
Qed.

Section AnyLoop.
Variables (values : list FieldValue) (depth lo hi : nat).
Local Abbreviation pos := (pos_at values depth).
Local Open Scope nat_scope.

(** The ranges emitted by the ANY loop, started at [st] and completed with
    the final [(start, end)] pair, are exactly the maximal runs of [lo, hi)
    that start at or after [st]. *)
Lemma any_loop_ranges : forall k i st cur,
  (i + k)%nat = hi -> (lo <= st <= i)%nat -> (st < hi)%nat -> cur = pos st ->
  (forall j, (st <= j < i)%nat -> pos j = cur) ->
  (st = lo \/ pos (st - 1) <> pos st) ->
  forall x y,
    In (x, y) (fst (any_loop values depth i k st cur) ++ [(snd (any_loop values depth i k st cur), hi)])
    <-> MatcherSpec.is_subrange values depth lo hi x y /\ (st <= x)%nat.
Proof.
  unfold MatcherSpec.is_subrange.
  induction k as [|k IH]; intros i st cur Hk Hst Hhi Hcur Hrun Hleft x y.
  - simpl. rewrite Nat.add_0_r in Hk. subst i. split.
    + intros [Heq|[]]. injection Heq as <- <-.
      repeat split; try lia; auto.
      intros j Hj. rewrite (Hrun j Hj). auto.
    + intros [(Hlo & Hxy & Hy & Hsame & Hx & Hyr) Hsx]. left.
      assert (x = st).
      { destruct (Nat.eq_dec x st) as [|Hne]; [assumption|].
        destruct Hx as [Hx|Hx]; [lia|].
        exfalso. apply Hx. rewrite (Hrun (x - 1) ltac:(lia)), (Hrun x ltac:(lia)). reflexivity. }
      subst x.
      assert (y = hi).
      { destruct Hyr as [Hyr|Hyr]; [assumption|].
        destruct (Nat.eq_dec y hi) as [|Hne]; [assumption|].
        exfalso. apply Hyr. rewrite (Hrun y ltac:(lia)), (Hrun (y - 1) ltac:(lia)). reflexivity. }
      subst y. reflexivity.
  - simpl. destruct (Z.eqb (pos i) cur) eqn:E; simpl.
    + apply Z.eqb_eq in E. apply IH; try lia; auto.
      intros j Hj. destruct (Nat.eq_dec j i) as [->|]; [assumption|]. apply Hrun. lia.
    + apply Z.eqb_neq in E.
      assert (Hsti : (st < i)%nat).
      { destruct (Nat.eq_dec st i) as [<-|]; [congruence|lia]. }
      pose proof (IH (S i) i (pos i) ltac:(lia) ltac:(lia) ltac:(lia) eq_refl) as IH'.
      specialize (IH' ltac:(intros j Hj; assert (j = i) by lia; subst; reflexivity)).
      specialize (IH' ltac:(right; rewrite (Hrun (i - 1) ltac:(lia)); auto) x y).
      destruct (any_loop values depth (S i) k i (pos i)) as [rs st'] eqn:Hany. simpl in *.
      rewrite IH'. split.
      * intros [Heq|[(Hlo & Hxy & Hy & Hsame & Hx & Hyr) Hix]].
        -- injection Heq as <- <-. repeat split; try lia; auto.
           ++ intros j Hj. rewrite (Hrun j ltac:(lia)). auto.
           ++ right. rewrite (Hrun (i - 1) ltac:(lia)). auto.
        -- repeat split; auto; lia.
      * intros [(Hlo & Hxy & Hy & Hsame & Hx & Hyr) Hsx].
        destruct (Nat.lt_ge_cases x i) as [Hxi|Hxi].
        -- left.
           assert (x = st).
           { destruct (Nat.eq_dec x st) as [|Hne]; [assumption|].
             destruct Hx as [Hx|Hx]; [lia|].
             exfalso. apply Hx. rewrite (Hrun (x - 1) ltac:(lia)), (Hrun x ltac:(lia)). reflexivity. }
           subst x.
           assert (Hyi : (y <= i)%nat).
           { destruct (Nat.le_gt_cases y i) as [|Hyi]; [assumption|].
             exfalso. apply E. rewrite (Hsame i ltac:(lia)). symmetry. apply Hcur. }
           assert (y = i).
           { destruct (Nat.eq_dec y i) as [|Hne]; [assumption|].
             destruct Hyr as [Hyr|Hyr]; [lia|].
             exfalso. apply Hyr. rewrite (Hrun y ltac:(lia)), (Hrun (y - 1) ltac:(lia)). reflexivity. }
           subst y. reflexivity.
        -- right. repeat split; auto.
Qed.

End AnyLoop.

(** (C3) A field value matcher with [Position::ANY] and [matches_tuple]
    matches [values[start, end)] at [depth] iff the depth bound allows it, the
    field is present, and one single sub-range of the narrowed range (a
    maximal run of values sharing one position at [depth + 1]) satisfies every
    child matcher of the tuple. Children satisfied only in different
    sub-ranges do not make a match. *)
Theorem matchesSimple_any_tuple (names : Z -> list string) (fnmatch : string -> string -> bool)
    (f : Z) (subs : list FieldValueMatcher) (values : list FieldValue) (s e d : nat) :
  matchesSimple names fnmatch (FVM f (Some ANY) (MatchesTuple subs)) values s e d = true <->
  (d <= 1)%nat /\ (s < e)%nat /\
  exists a ne, getStartEndAtDepth f s e d values = (Some a, ne) /\
    exists x y, MatcherSpec.is_subrange values (S d) a ne x y /\
      forall sub, In sub subs -> matchesSimple names fnmatch sub values x y (S (S d)) = true.
Proof.
  cbn [matchesSimple].
  destruct (Nat.ltb 2 d) eqn:Hd.
  { apply Nat.ltb_lt in Hd. split; [discriminate|lia]. }
  apply Nat.ltb_ge in Hd.
  destruct (Nat.leb e s) eqn:He.
  { apply Nat.leb_le in He. split; [discriminate|lia]. }
  apply Nat.leb_gt in He.
  unfold computeRanges.
  destruct (getStartEndAtDepth f s e d values) as [[a|] ne] eqn:Hse.
  2:{ split; [discriminate|]. intros (_ & _ & a & ne' & H & _). discriminate H. }
  destruct (Nat.ltb 2 (S d)) eqn:Hd1.
  { apply Nat.ltb_lt in Hd1. split; [discriminate|lia]. }
  apply Nat.ltb_ge in Hd1. cbn [is_matches_tuple].
  pose proof (getStartEndAtDepth_lt _ _ _ _ _ _ _ Hse) as Hane.
  pose proof (any_loop_ranges values (S d) a ne (ne - a) a a (pos_at values (S d) a)
                ltac:(lia) ltac:(lia) Hane eq_refl ltac:(intros; lia) (or_introl eq_refl)) as Hr.
  destruct (any_loop values (S d) a (ne - a) a (pos_at values (S d) a)) as [rs st] eqn:Hany.
  simpl in Hr.
  set (R := rs ++ [(st, ne)]) in *.
  assert (HR : R <> []) by (subst R; destruct rs; discriminate).
  transitivity (existsb (fun '(rangeStart, rangeEnd) =>
                  forallb (fun sub => matchesSimple names fnmatch sub values rangeStart rangeEnd (S (S d)))
                    subs) R = true).
  { destruct R as [|[x0 y0] l]; [congruence|reflexivity]. }
  rewrite existsb_exists. split.
  - intros ([x y] & Hin & Hall). rewrite forallb_forall in Hall.
    apply Hr in Hin as [Hsub _].
    split; [lia|]. split; [lia|]. exists a, ne. split; [reflexivity|].
    exists x, y. split; [exact Hsub|]. exact Hall.
  - intros (_ & _ & a' & ne' & Heq & x & y & Hsub & Hall).
    injection Heq as <- <-.
    exists (x, y). split.
    + apply Hr. split; [exact Hsub|]. destruct Hsub; lia.
    + apply forallb_forall. exact Hall.
Qed.

End MatcherFacts.

Module StateTrackerFacts.
Import Matcher StateTracker.

Lemma onLogEvent_nested (t : Tracker) time key n :
  onLogEvent t (nestedEvent time key n) =
  updateStateForPrimaryKey t time key n true (default defaultStateValueInfo (mStateMap t !! key)).
Proof. reflexivity. Qed.

(** The entry a nested update leaves behind, and whether it notifies. *)
Lemma update_nested_known (t : Tracker) time key n info :
  n <> kStateUnknown -> state info <> kStateUnknown ->
  let t' := updateStateForPrimaryKey t time key n true info in
  if n =? state info then
    mStateMap t' = <[key := mkStateValueInfo n (count info + 1)]> (mStateMap t) /\
    notified t' = notified t
  else if count info - 1 =? 0 then
    mStateMap t' = <[key := mkStateValueInfo n 1]> (mStateMap t) /\
    notified t' = notified t ++ changes_for t time key (state info) n
  else
    mStateMap t' = <[key := mkStateValueInfo (state info) (count info - 1)]> (mStateMap t) /\
    notified t' = notified t.
Proof.
  intros Hn Hs. unfold updateStateForPrimaryKey. cbv zeta.
  apply Z.eqb_neq in Hn, Hs. rewrite Hn, Hs. cbn [negb].
  destruct (Z.eqb_spec n (state info)) as [->|Hne].
  - rewrite Z.eqb_refl. simpl. auto.
  - rewrite (proj2 (Z.eqb_neq (state info) n) (not_eq_sym Hne)).
    destruct (count info - 1 =? 0); simpl; auto.
Qed.

Lemma update_unknown_erases (t : Tracker) time key nested info :
  mStateMap (updateStateForPrimaryKey t time key kStateUnknown nested info) !! key = None.
Proof.
  unfold updateStateForPrimaryKey. rewrite Z.eqb_refl.
  destruct nested; simpl; repeat case_match; simpl; apply lookup_delete_eq.
Qed.

Lemma on_off_balance_cons b bs :
  on_off_balance (b :: bs) = (if b then 1 else -1) + on_off_balance bs.
Proof. unfold on_off_balance. destruct b; simpl List.filter; cbn [length negb]; rewrite ?Nat2Z.inj_succ; lia. Qed.

Section OnOff.
Variables (on off : Z).
Hypotheses (Hdiff : on <> off) (Hon : on <> kStateUnknown) (Hoff : off <> kStateUnknown).

Lemma on_off_step (t : Tracker) (key : list Z) (r : Z) (b : bool) :
  mStateMap t !! key = Some (on_off_entry on off r) ->
  mStateMap (onLogEvent t (nestedEvent 0 key (if b then on else off))) !! key =
  Some (on_off_entry on off (r + if b then 1 else -1)).
Proof.
  intros H. rewrite onLogEvent_nested, H. simpl.
  assert (Hst : state (on_off_entry on off r) <> kStateUnknown).
  { unfold on_off_entry. destruct (0 <? r); simpl; assumption. }
  assert (Hb : (if b then on else off) <> kStateUnknown) by (destruct b; assumption).
  pose proof (update_nested_known t 0 key (if b then on else off) (on_off_entry on off r) Hb Hst) as U.
  simpl in U. unfold on_off_entry in *.
  destruct b; destruct (Z.ltb_spec 0 r); simpl in *.
  - rewrite Z.eqb_refl in U. destruct U as [-> _]. rewrite lookup_insert_eq.
    destruct (Z.ltb_spec 0 (r + 1)); [reflexivity|lia].
  - rewrite (proj2 (Z.eqb_neq on off) Hdiff) in U.
    destruct (Z.eqb_spec (1 - r - 1) 0); destruct U as [-> _]; rewrite lookup_insert_eq;
      destruct (Z.ltb_spec 0 (r + 1)); try lia; do 2 f_equal; lia.
  - rewrite (proj2 (Z.eqb_neq off on) (not_eq_sym Hdiff)) in U.
    destruct (Z.eqb_spec (r - 1) 0); destruct U as [-> _]; rewrite lookup_insert_eq;
      destruct (Z.ltb_spec 0 (r + -1)); try lia; do 2 f_equal; lia.
  - rewrite Z.eqb_refl in U. destruct U as [-> _]. rewrite lookup_insert_eq.
    destruct (Z.ltb_spec 0 (r + -1)); [lia|]. do 2 f_equal; lia.
Qed.

Lemma run_on_off_entry (key : list Z) : forall (bs : list bool) (t : Tracker) (r : Z),
  mStateMap t !! key = Some (on_off_entry on off r) ->
  mStateMap (run_on_off t key on off bs) !! key = Some (on_off_entry on off (r + on_off_balance bs)).
Proof.
  induction bs as [|b bs IH]; intros t r H; simpl.
  - rewrite H. unfold on_off_balance. simpl. do 2 f_equal. lia.
  - rewrite (IH _ _ (on_off_step t key r b H)). rewrite on_off_balance_cons.
    do 2 f_equal. lia.
Qed.

Lemma run_on_off_from_absent (key : list Z) (t : Tracker) (bs : list bool) :
  mStateMap t !! key = None ->
  mStateMap (run_on_off t key on off (true :: bs)) !! key =
  Some (on_off_entry on off (on_off_balance (true :: bs))).
Proof.
  intros H. simpl. rewrite on_off_balance_cons.
  apply run_on_off_entry.
  rewrite onLogEvent_nested, H. simpl. unfold updateStateForPrimaryKey. cbv zeta.
  apply Z.eqb_neq in Hon. rewrite Hon. simpl. rewrite lookup_insert_eq.
  reflexivity.
Qed.

End OnOff.

(** (C5) Nested state updates on a tracked primary key: a new state equal
    to the current one increments the count without notifying; a different
    one decrements the count and flips the state (count reset to 1, listeners
    notified) only when the count reaches zero; [kStateUnknown] removes the
    entry. Hence, for nested ON/OFF events starting from an absent key with
    ON, the tracker's state is ON iff the running count #ON - #OFF is
    positive, and OFF otherwise. *)
Theorem nested_state_update (t : Tracker) (time : Z) (key : list Z) (info : StateValueInfo) :
  mStateMap t !! key = Some info -> state info <> kStateUnknown ->
  (mStateMap (onLogEvent t (nestedEvent time key kStateUnknown)) !! key = None) /\
  (forall n, n <> kStateUnknown -> n = state info ->
     let t' := onLogEvent t (nestedEvent time key n) in
     mStateMap t' !! key = Some (mkStateValueInfo n (count info + 1)) /\
     notified t' = notified t) /\
  (forall n, n <> kStateUnknown -> n <> state info -> count info - 1 = 0 ->
     let t' := onLogEvent t (nestedEvent time key n) in
     mStateMap t' !! key = Some (mkStateValueInfo n 1) /\
     notified t' = notified t ++ changes_for t time key (state info) n) /\
  (forall n, n <> kStateUnknown -> n <> state info -> count info - 1 <> 0 ->
     let t' := onLogEvent t (nestedEvent time key n) in
     mStateMap t' !! key = Some (mkStateValueInfo (state info) (count info - 1)) /\
     notified t' = notified t) /\
  (forall (on off : Z) (t0 : Tracker) (bs : list bool),
     on <> off -> on <> kStateUnknown -> off <> kStateUnknown ->
     mStateMap t0 !! key = None ->
     let t' := run_on_off t0 key on off (true :: bs) in
     (getStateValue t' key = on <-> 0 < on_off_balance (true :: bs)) /\
     (on_off_balance (true :: bs) <= 0 -> getStateValue t' key = off)).
Proof.
  intros Hk Hs.
  split; [rewrite onLogEvent_nested; apply update_unknown_erases|].
  split; [|split; [|split]].
  - intros n Hn ->. simpl. rewrite onLogEvent_nested, Hk. simpl.
    pose proof (update_nested_known t time key (state info) info Hn Hs) as U.
    simpl in U. rewrite Z.eqb_refl in U. destruct U as [-> ->].
    rewrite lookup_insert_eq. auto.
  - intros n Hn Hne Hc. simpl. rewrite onLogEvent_nested, Hk. simpl.
    pose proof (update_nested_known t time key n info Hn Hs) as U.
    simpl in U. rewrite (proj2 (Z.eqb_neq _ _) Hne), (proj2 (Z.eqb_eq _ _) Hc) in U.
    destruct U as [-> ->]. rewrite lookup_insert_eq. auto.
  - intros n Hn Hne Hc. simpl. rewrite onLogEvent_nested, Hk. simpl.
    pose proof (update_nested_known t time key n info Hn Hs) as U.
    simpl in U. rewrite (proj2 (Z.eqb_neq _ _) Hne), (proj2 (Z.eqb_neq _ _) Hc) in U.
    destruct U as [-> ->]. rewrite lookup_insert_eq. auto.
  - intros on off t0 bs Hdiff Hon Hoff H0. cbv zeta.
    unfold getStateValue.
    rewrite (run_on_off_from_absent on off Hdiff Hon Hoff key t0 bs H0).
    unfold on_off_entry.
    destruct (Z.ltb_spec 0 (on_off_balance (true :: bs))); simpl.
    + split; [split; auto|]. intros; lia.
    + split; [split; [intros E; congruence|lia]|]. auto.
Qed.

Lemma nested_state_update_witness :
  (mStateMap (mkTracker 1 {[ [5] := mkStateValueInfo 2 3 ]} [0%nat] []) !! [5]
     = Some (mkStateValueInfo 2 3) /\ state (mkStateValueInfo 2 3) <> kStateUnknown) /\
  mStateMap (onLogEvent (mkTracker 1 {[ [5] := mkStateValueInfo 2 3 ]} [0%nat] [])
               (nestedEvent 0 [5] 7)) !! [5] = Some (mkStateValueInfo 2 2).
Proof.
  split; [split; [reflexivity|discriminate]|].
  refine (proj1 (proj1 (proj2 (proj2 (proj2 (nested_state_update
            (mkTracker 1 {[ [5] := mkStateValueInfo 2 3 ]} [0%nat] []) 0 [5]
            (mkStateValueInfo 2 3) eq_refl ltac:(discriminate))))) 7 _ _ _)).
  all: discriminate.
Defined.

End StateTrackerFacts.

Module ConfigUpdateFacts.
Import Matcher ConfigUpdate.

Lemma status_set_eq st i s :
  (i < length (matchersToUpdate st))%nat -> status_at (set_status st i s) i = s.
Proof. intros H. unfold status_at, set_status. simpl. rewrite list_lookup_insert_eq; auto. Qed.

Lemma status_set_ne st i j s :
  i <> j -> status_at (set_status st i s) j = status_at st j.
Proof. intros H. unfold status_at, set_status. simpl. rewrite list_lookup_insert_ne; auto. Qed.

Lemma cycling_set_ne st i j b :
  i <> j -> cycling (set_cycle st i b) j = cycling st j.
Proof. intros H. unfold cycling, set_cycle. simpl. rewrite list_lookup_insert_ne; auto. Qed.

Lemma cycling_set_eq st i b :
  (i < length (cycleTracker st))%nat -> cycling (set_cycle st i b) i = b.
Proof. intros H. unfold cycling, set_cycle. simpl. rewrite list_lookup_insert_eq; auto. Qed.

Lemma extends_refl st : extends st st.
Proof. split; auto. Qed.

Lemma extends_trans st1 st2 st3 : extends st1 st2 -> extends st2 st3 -> extends st1 st3.
Proof.
  intros [H1 C1] [H2 C2]. split; [|congruence].
  intros j Hj. rewrite H2; [apply H1; auto|].
  destruct Hj as [Hj|Hj]; [left; rewrite H1; auto|right; unfold cycling in *; rewrite C1; auto].
Qed.

Section DFS.
Variable ser : AtomMatcher -> list Z.
Variable config : list AtomMatcher.
Variable oldMap : gmap Z nat.
Variable oldDefs : list AtomMatcher.
Variable newMap : gmap Z nat.

Local Abbreviation inv := (decision_invariant config oldMap newMap).

(** Closing the examination of matcher [i] with status [s]. *)
Lemma finish_spec st i m s :
  inv st -> config !! i = Some m -> status_at st i = UPDATE_UNKNOWN -> s <> UPDATE_UNKNOWN ->
  (s = UPDATE_NEW -> oldMap !! id m = None) ->
  (s = UPDATE_PRESERVE -> forall op children, contents m = kCombination op children ->
     forall c, In c children ->
     exists ci, newMap !! c = Some ci /\ status_at st ci = UPDATE_PRESERVE) ->
  let st' := set_cycle (set_status st i s) i false in
  inv st' /\ status_at st' i = s /\
  (forall j, j <> i -> status_at st' j = status_at st j /\ cycling st' j = cycling st j).
Proof.
  intros (Hlen & Hip & Hpc & Hnu) Hm Hu Hs Hnew Hpres st'.
  assert (Hi : (i < length config)%nat) by (apply lookup_lt_is_Some; eauto).
  destruct Hlen as [Hl1 Hl2].
  assert (Hsi : status_at st' i = s).
  { unfold st'. change (status_at (set_status st i s) i = s). apply status_set_eq. lia. }
  assert (Hne : forall j, j <> i -> status_at st' j = status_at st j /\ cycling st' j = cycling st j).
  { intros j Hj. unfold st'. split.
    - change (status_at (set_status st i s) j = status_at st j). apply status_set_ne. auto.
    - rewrite cycling_set_ne by auto. reflexivity. }
  split; [|split; [exact Hsi|exact Hne]].
  split; [|split; [|split]].
  - unfold state_len, st', set_cycle, set_status. simpl. rewrite !length_insert. auto.
  - intros j Hj. destruct (decide (j = i)) as [->|Hji].
    + exfalso. revert Hj. unfold st'. rewrite cycling_set_eq; [discriminate|].
      unfold set_status. simpl. lia.
    + destruct (Hne j Hji) as [E1 E2]. rewrite E1. apply Hip. congruence.
  - intros k mk op ch Hk Hc Hp c Hin. destruct (decide (k = i)) as [->|Hki].
    + rewrite Hsi in Hp. rewrite Hm in Hk. injection Hk as <-.
      destruct (Hpres Hp op ch Hc c Hin) as (ci & Hci & Hps).
      exists ci. split; [auto|]. destruct (decide (ci = i)) as [->|Hcii].
      * rewrite Hsi. exact Hp.
      * rewrite (proj1 (Hne ci Hcii)). auto.
    + rewrite (proj1 (Hne k Hki)) in Hp.
      destruct (Hpc k mk op ch Hk Hc Hp c Hin) as (ci & Hci & Hps).
      exists ci. split; [auto|]. destruct (decide (ci = i)) as [->|Hcii].
      * congruence.
      * rewrite (proj1 (Hne ci Hcii)). auto.
  - intros k mk Hk Hn. destruct (decide (k = i)) as [->|Hki].
    + rewrite Hsi in Hn. rewrite Hm in Hk. injection Hk as <-. auto.
    + rewrite (proj1 (Hne k Hki)) in Hn. eapply Hnu; eauto.
Qed.

Lemma children_loop_spec (det : nat -> UpdateState -> InvalidConfigReason + UpdateState) :
  (forall idx st st', inv st -> cycling st idx = false -> det idx st = inr st' ->
     inv st' /\ extends st st' /\ status_at st' idx <> UPDATE_UNKNOWN) ->
  forall mid children st status st', inv st ->
  children_loop newMap det mid children st = inr (status, st') ->
  inv st' /\ extends st st' /\ (status = UPDATE_PRESERVE \/ status = UPDATE_REPLACE) /\
  (status = UPDATE_PRESERVE -> forall c, In c children ->
     exists ci, newMap !! c = Some ci /\ status_at st' ci = UPDATE_PRESERVE).
Proof.
  intros Hdet mid. induction children as [|c cs IH]; intros st status st' Hinv Hl; simpl in Hl.
  - injection Hl as <- <-. split; [auto|split; [apply extends_refl|split; [auto|]]].
    intros _ c [].
  - destruct (newMap !! c) as [ci|] eqn:Hc; [|discriminate].
    destruct (cycling st ci) eqn:Hcy; [discriminate|].
    destruct (det ci st) as [e|st1] eqn:Hd; [discriminate|].
    destruct (Hdet _ _ _ Hinv Hcy Hd) as (Hinv1 & Hext1 & Hset1).
    destruct (bool_decide (status_at st1 ci = UPDATE_REPLACE)
              || bool_decide (status_at st1 ci = UPDATE_NEW)) eqn:Hb.
    + injection Hl as <- <-. split; [auto|split; [auto|split; [auto|]]]. discriminate.
    + destruct (IH _ _ _ Hinv1 Hl) as (Hinv2 & Hext2 & Hst & Hall).
      split; [auto|split; [eapply extends_trans; eauto|split; [auto|]]].
      intros Hp c' [<-|Hin]; [|apply Hall; auto].
      exists ci. split; [auto|].
      apply orb_false_iff in Hb. destruct Hb as [Hb1 Hb2].
      apply bool_decide_eq_false in Hb1, Hb2.
      rewrite (proj1 Hext2 ci) by (left; auto).
      destruct (status_at st1 ci); congruence.
Qed.

Lemma determine_spec fuel : forall idx st st',
  inv st -> cycling st idx = false ->
  determineMatcherUpdateStatus ser config oldMap oldDefs newMap fuel idx st = inr st' ->
  inv st' /\ extends st st' /\ status_at st' idx <> UPDATE_UNKNOWN.
Proof.
  induction fuel as [|f IH]; intros idx st st' Hinv Hcy Hd;
    cbn [determineMatcherUpdateStatus] in Hd;
    (destruct (decide (status_at st idx = UPDATE_UNKNOWN)) as [Hu|Hu];
     [rewrite bool_decide_true in Hd by exact Hu; cbn [negb] in Hd
     |rewrite bool_decide_false in Hd by exact Hu; cbn [negb] in Hd;
      injection Hd as <-; split; [auto|split; [apply extends_refl|auto]]]);
    (destruct (config !! idx) as [m|] eqn:Hm; [|discriminate]);
    (assert (Hsimple : forall s, s <> UPDATE_UNKNOWN -> (s = UPDATE_NEW -> oldMap !! id m = None) ->
                      (s = UPDATE_PRESERVE -> forall op ch, contents m <> kCombination op ch) ->
                      let st1 := set_status st idx s in
                      inv st1 /\ extends st st1 /\ status_at st1 idx <> UPDATE_UNKNOWN);
     [intros s Hs Hn Hp st1;
      assert (Heq : st1 = set_cycle (set_status st idx s) idx false);
      [unfold st1, set_cycle, set_status; simpl; f_equal; symmetry; apply list_insert_id;
       destruct Hinv as [[_ Hl] _];
       assert (Hi : (idx < length config)%nat) by (apply lookup_lt_is_Some; eauto);
       unfold cycling in Hcy; destruct (cycleTracker st !! idx) eqn:E;
       [simpl in Hcy; congruence|apply lookup_ge_None in E; lia]
      |rewrite Heq;
       destruct (finish_spec st idx m s Hinv Hm Hu Hs Hn) as (Hinv' & Hsi & Hne);
       [intros Hps op ch Hc; exfalso; exact (Hp Hps op ch Hc)|];
       split; [exact Hinv'|split; [|congruence]];
       split; [intros j Hj; destruct (decide (j = idx)) as [->|Hji];
               [destruct Hj; congruence|apply Hne; auto]
              |simpl;
               apply list_insert_id; unfold cycling in Hcy;
               destruct Hinv as [[_ Hl] _];
               assert (Hi : (idx < length config)%nat) by (apply lookup_lt_is_Some; eauto);
               destruct (cycleTracker st !! idx) eqn:E;
               [simpl in Hcy; congruence|apply lookup_ge_None in E; lia]]]|]).
  all: destruct (oldMap !! id m) as [oldIdx|] eqn:Hold;
    [|injection Hd as <-; apply Hsimple; [discriminate|auto|discriminate]].
  all: destruct (negb (bool_decide _)) eqn:Hser;
    [injection Hd as <-; apply Hsimple; discriminate|].
  all: destruct (contents m) as [sam|op children|] eqn:Hc; try discriminate.
  all: try (injection Hd as <-; apply Hsimple; [discriminate|discriminate|intros _ op ch; congruence]).
  destruct (children_loop _ _ _ _ _) as [e|[status st2]] eqn:Hl; [discriminate|].
  injection Hd as <-.
  assert (Hi : (idx < length config)%nat) by (apply lookup_lt_is_Some; eauto).
  assert (Hct : cycleTracker st !! idx = Some false).
  { destruct Hinv as [[_ Hl2] _]. unfold cycling in Hcy.
    destruct (cycleTracker st !! idx) eqn:E; [simpl in Hcy; congruence|].
    apply lookup_ge_None in E. lia. }
  set (st1 := set_cycle st idx true) in Hl.
  assert (Hinv1 : inv st1).
  { destruct Hinv as ([Hl1 Hl2] & Hip & Hpc & Hnu). split; [|split; [|split]].
    - unfold state_len, st1, set_cycle. simpl. rewrite length_insert. auto.
    - intros j Hj. destruct (decide (j = idx)) as [->|Hji]; [exact Hu|].
      unfold st1 in Hj. rewrite cycling_set_ne in Hj by auto. apply Hip. exact Hj.
    - exact Hpc.
    - exact Hnu. }
  destruct (children_loop_spec _ IH (id m) children st1 status st2 Hinv1 Hl)
    as (Hinv2 & [Hfr2 Hcy2] & Hst & Hall).
  assert (Hcy1 : cycling st1 idx = true).
  { unfold st1. apply cycling_set_eq. destruct Hinv as [[_ Hl2] _]. lia. }
  assert (Hu2 : status_at st2 idx = UPDATE_UNKNOWN).
  { rewrite Hfr2 by (right; exact Hcy1). exact Hu. }
  destruct (finish_spec st2 idx m status Hinv2 Hm Hu2) as (Hinv3 & Hsi & Hne).
  { destruct Hst as [->| ->]; discriminate. }
  { intros ->. destruct Hst; discriminate. }
  { intros Hp op' ch Hc' c Hin. rewrite Hc in Hc'. injection Hc' as _ <-. apply Hall; auto. }
  split; [exact Hinv3|split; [|rewrite Hsi; destruct Hst as [->| ->]; discriminate]].
  split.
  - intros j Hj. assert (Hji : j <> idx).
    { intros ->. destruct Hj as [Hj|Hj]; congruence. }
    rewrite (proj1 (Hne j Hji)). rewrite Hfr2; [reflexivity|].
    unfold st1. rewrite cycling_set_ne by auto. exact Hj.
  - simpl. rewrite Hcy2. unfold st1, set_cycle. simpl.
    rewrite list_insert_insert_eq. apply list_insert_id. exact Hct.
Qed.
End DFS.

Lemma init_status n i :
  status_at (mkUpdateState (replicate n UPDATE_UNKNOWN) (replicate n false)) i = UPDATE_UNKNOWN.
Proof.
  unfold status_at. simpl. destruct (replicate n UPDATE_UNKNOWN !! i) eqn:E; [|reflexivity].
  apply lookup_replicate in E. destruct E as [-> _]. reflexivity.
Qed.

Lemma init_cycling n i :
  cycling (mkUpdateState (replicate n UPDATE_UNKNOWN) (replicate n false)) i = false.
Proof.
  unfold cycling. simpl. destruct (replicate n false !! i) eqn:E; [|reflexivity].
  apply lookup_replicate in E. destruct E as [-> _]. reflexivity.
Qed.

Lemma status_lookup st i :
  (i < length (matchersToUpdate st))%nat -> matchersToUpdate st !! i = Some (status_at st i).
Proof.
  intros H. unfold status_at. destruct (matchersToUpdate st !! i) eqn:E; [reflexivity|].
  apply lookup_ge_None in E. lia.
Qed.

Section DFS2.
Variable ser : AtomMatcher -> list Z.
Variable config : list AtomMatcher.
Variable oldMap : gmap Z nat.
Variable oldDefs : list AtomMatcher.
Variable newMap : gmap Z nat.

Local Abbreviation inv := (decision_invariant config oldMap newMap).

Lemma update_loop_spec fuel : forall idxs st st',
  inv st -> (forall j, cycling st j = false) ->
  update_loop ser config oldMap oldDefs newMap fuel idxs st = inr st' ->
  inv st' /\ extends st st' /\ (forall i, In i idxs -> status_at st' i <> UPDATE_UNKNOWN).
Proof.
  induction idxs as [|a idxs IH]; intros st st' Hinv Hcy Hl; simpl in Hl.
  - injection Hl as <-. split; [auto|split; [apply extends_refl|intros _ []]].
  - destruct (determineMatcherUpdateStatus _ _ _ _ _ fuel a st) as [e|st1] eqn:Hd; [discriminate|].
    destruct (determine_spec ser config oldMap oldDefs newMap fuel a st st1 Hinv (Hcy a) Hd)
      as (Hinv1 & Hext1 & Hs1).
    assert (Hcy1 : forall j, cycling st1 j = false).
    { intros j. unfold cycling. rewrite (proj2 Hext1). apply Hcy. }
    destruct (IH st1 st' Hinv1 Hcy1 Hl) as (Hinv2 & Hext2 & Hall).
    split; [auto|split; [eapply extends_trans; eauto|]].
    intros i [<-|Hin]; [|auto].
    rewrite (proj1 Hext2) by (left; auto). exact Hs1.
Qed.

End DFS2.

Lemma init_inv config oldMap newMap :
  decision_invariant config oldMap newMap
    (mkUpdateState (replicate (length config) UPDATE_UNKNOWN) (replicate (length config) false)).
Proof.
  split; [|split; [|split]].
  - unfold state_len. simpl. rewrite !length_replicate. auto.
  - intros j Hj. rewrite init_cycling in Hj. discriminate.
  - intros i m op ch _ _ Hp. rewrite init_status in Hp. discriminate.
  - intros i m _ Hn. rewrite init_status in Hn. discriminate.
Qed.

(** (C1) Replacement cascades through combinations: after the decision
    pass over a new configuration succeeds, a combination matcher that has
    an old tracker (whatever its own serialization) and a child marked
    REPLACE is itself marked REPLACE. *)
Theorem combination_replace_cascade (SerializeToString : AtomMatcher -> list Z)
    (oldConfig newConfig : list AtomMatcher) (st : UpdateState) :
  updateAtomMatchingTrackers SerializeToString oldConfig newConfig = inr st ->
  forall i m op children childId childIdx,
    newConfig !! i = Some m -> contents m = kCombination op children ->
    is_Some (buildMatcherMap oldConfig !! id m) ->
    In childId children -> buildMatcherMap newConfig !! childId = Some childIdx ->
    matchersToUpdate st !! childIdx = Some UPDATE_REPLACE ->
    matchersToUpdate st !! i = Some UPDATE_REPLACE.
Proof.
  intros Hu i m op children childId childIdx Hm Hc Hold Hin Hci Hrep.
  unfold updateAtomMatchingTrackers in Hu.
  destruct (update_loop_spec _ _ _ _ _ _ _ _ _ (init_inv newConfig (buildMatcherMap oldConfig)
              (buildMatcherMap newConfig)) (init_cycling _) Hu)
    as ((Hlen & Hip & Hpc & Hnu) & _ & Hall).
  assert (Hi : (i < length newConfig)%nat) by (apply lookup_lt_is_Some; eauto).
  assert (Hset := Hall i ltac:(apply in_seq; lia)).
  rewrite status_lookup by (destruct Hlen; lia).
  assert (Hcr : status_at st childIdx = UPDATE_REPLACE) by (unfold status_at; rewrite Hrep; reflexivity).
  destruct (status_at st i) eqn:Es.
  - congruence.
  - destruct (Hpc i m op children Hm Hc Es childId Hin) as (ci & Hci' & Hps). congruence.
  - reflexivity.
  - specialize (Hnu i m Hm Es). destruct Hold as [k Hk]. congruence.
Qed.


Lemma buildMatcherMap_from_lookup l : forall i x k,
  buildMatcherMap_from i l !! x = Some k ->
  exists m, l !! (k - i)%nat = Some m /\ id m = x /\ (i <= k)%nat.
Proof.
  induction l as [|a l IH]; intros i x k H; simpl in H.
  - rewrite lookup_empty in H. discriminate.
  - destruct (decide (id a = x)) as [<-|Hne].
    + rewrite lookup_insert_eq in H. injection H as <-. exists a.
      rewrite Nat.sub_diag. auto.
    + rewrite lookup_insert_ne in H by auto.
      destruct (IH _ _ _ H) as (m & Hm & Hid & Hle). exists m.
      replace (k - i)%nat with (S (k - S i)) by lia. simpl. auto with lia.
Qed.

Lemma buildMatcherMap_from_nodup l : NoDup (map id l) -> forall i j m,
  l !! j = Some m -> buildMatcherMap_from i l !! id m = Some (i + j)%nat.
Proof.
  induction l as [|a l IH]; intros Hnd i j m Hj; [discriminate|].
  simpl in Hnd. apply NoDup_cons in Hnd as [Hnot Hnd]. simpl.
  destruct j as [|j]; simpl in Hj.
  - injection Hj as <-. rewrite lookup_insert_eq. f_equal. lia.
  - rewrite lookup_insert_ne.
    + rewrite (IH Hnd (S i) j m Hj). f_equal. lia.
    + intros E. apply Hnot. rewrite E. apply list_elem_of_In, in_map, list_elem_of_In.
      eapply list_elem_of_lookup_2. eauto.
Qed.

Section Idempotent.
Variable ser : AtomMatcher -> list Z.
Variables oldConfig newConfig : list AtomMatcher.
Variable rank : nat -> nat.
Hypothesis Hperm : Permutation newConfig oldConfig.
Hypothesis Hnodup : NoDup (map id newConfig).
Hypothesis Hset : forall m, In m newConfig -> contents m <> CONTENTS_NOT_SET.
Hypothesis Hrank : forall i m op children, newConfig !! i = Some m ->
  contents m = kCombination op children -> forall c, In c children ->
  exists ci, buildMatcherMap newConfig !! c = Some ci /\ (rank ci < rank i)%nat.

Local Abbreviation newMap := (buildMatcherMap newConfig).
Local Abbreviation oldMap := (buildMatcherMap oldConfig).
Local Abbreviation determine :=
  (determineMatcherUpdateStatus ser newConfig oldMap oldConfig newMap).
Local Abbreviation n := (length newConfig).
Local Abbreviation all_pp st :=
  (forall j, status_at st j = UPDATE_UNKNOWN \/ status_at st j = UPDATE_PRESERVE).
Local Abbreviation lens st :=
  (length (matchersToUpdate st) = n /\ length (cycleTracker st) = n).

Lemma old_lookup m : In m newConfig ->
  exists k, oldMap !! id m = Some k /\ oldConfig !! k = Some m.
Proof.
  intros Hin. apply (Permutation_in _ Hperm) in Hin.
  apply list_elem_of_In, list_elem_of_lookup_1 in Hin as [k Hk].
  exists k. split; [|auto].
  apply (buildMatcherMap_from_nodup oldConfig) with (i := 0%nat) in Hk; [exact Hk|].
  apply (proj1 (NoDup_Permutation_proper _ _ (Permutation_map id Hperm))). exact Hnodup.
Qed.

Lemma new_lookup_lt c ci : newMap !! c = Some ci -> (ci < n)%nat.
Proof.
  intros H. destruct (buildMatcherMap_from_lookup _ _ _ _ H) as (m & Hm & _).
  rewrite Nat.sub_0_r in Hm. apply lookup_lt_is_Some. eauto.
Qed.

Lemma determine_preserve fuel : forall idx st,
  (idx < n)%nat -> (rank idx < fuel)%nat -> lens st -> all_pp st ->
  (forall j, cycling st j = true -> (rank idx < rank j)%nat) ->
  exists st', determine fuel idx st = inr st' /\ lens st' /\ all_pp st' /\
    status_at st' idx = UPDATE_PRESERVE /\ cycleTracker st' = cycleTracker st /\
    (forall j, status_at st j = UPDATE_PRESERVE -> status_at st' j = UPDATE_PRESERVE).
Proof.
  induction fuel as [|f IH]; intros idx st Hidx Hr Hlen Hpp Hcyc; [lia|].
  cbn [determineMatcherUpdateStatus].
  destruct (decide (status_at st idx = UPDATE_UNKNOWN)) as [Hu|Hu].
  2:{ rewrite bool_decide_false by exact Hu. cbn [negb]. exists st.
      split; [reflexivity|split; [auto|split; [auto|split; [|auto]]]].
      destruct (Hpp idx); congruence. }
  rewrite bool_decide_true by exact Hu. cbn [negb].
  destruct (lookup_lt_is_Some_2 newConfig idx Hidx) as [m Hm]. rewrite Hm.
  assert (Hinm : In m newConfig) by (apply list_elem_of_In; eapply list_elem_of_lookup_2; eauto).
  destruct (old_lookup m Hinm) as (k & Hk & Hok). rewrite Hk, Hok. simpl.
  rewrite bool_decide_true by reflexivity. cbn [negb].
  assert (Hcy : cycleTracker st !! idx = Some false).
  { destruct (cycleTracker st !! idx) as [b|] eqn:E.
    - destruct b; [|reflexivity]. exfalso.
      assert (cycling st idx = true) by (unfold cycling; rewrite E; reflexivity).
      specialize (Hcyc idx H). lia.
    - apply lookup_ge_None in E. lia. }
  assert (Hfin : forall st2, lens st2 -> all_pp st2 ->
            <[idx := false]> (cycleTracker st2) = cycleTracker st ->
            (forall j, status_at st j = UPDATE_PRESERVE -> status_at st2 j = UPDATE_PRESERVE) ->
            let st3 := set_cycle (set_status st2 idx UPDATE_PRESERVE) idx false in
            lens st3 /\ all_pp st3 /\ status_at st3 idx = UPDATE_PRESERVE /\
            cycleTracker st3 = cycleTracker st /\
            (forall j, status_at st j = UPDATE_PRESERVE -> status_at st3 j = UPDATE_PRESERVE)).
  { intros st2 [Hl1 Hl2] Hpp2 Hct2 Hmono2 st3.
    assert (Hs3 : forall j, status_at st3 j = if decide (j = idx) then UPDATE_PRESERVE
                                             else status_at st2 j).
    { intros j. unfold st3, status_at, set_cycle, set_status. simpl.
      destruct (decide (j = idx)) as [->|Hj].
      - rewrite list_lookup_insert_eq by lia. reflexivity.
      - rewrite list_lookup_insert_ne by auto. reflexivity. }
    split; [|split; [|split; [|split]]].
    - unfold st3, set_cycle, set_status. simpl. rewrite !length_insert. auto.
    - intros j. rewrite Hs3. destruct (decide (j = idx)); auto.
    - rewrite Hs3. destruct (decide (idx = idx)); congruence.
    - unfold st3, set_cycle, set_status. simpl. exact Hct2.
    - intros j Hj. rewrite Hs3. destruct (decide (j = idx)); auto. }
  destruct (contents m) as [sam|op children|] eqn:Hc.
  - exists (set_status st idx UPDATE_PRESERVE). split; [reflexivity|].
    assert (E : set_status st idx UPDATE_PRESERVE =
                set_cycle (set_status st idx UPDATE_PRESERVE) idx false).
    { unfold set_cycle, set_status. simpl. f_equal. symmetry. apply list_insert_id. exact Hcy. }
    rewrite E. apply Hfin; auto. simpl. apply list_insert_id. exact Hcy.
  - set (st1 := set_cycle st idx true).
    assert (Hloop : forall cs st, (forall c, In c cs -> In c children) ->
              lens st -> all_pp st -> cycleTracker st = cycleTracker st1 ->
              (forall j, status_at st1 j = UPDATE_PRESERVE -> status_at st j = UPDATE_PRESERVE) ->
              exists st2, children_loop newMap (determine f) (id m) cs st = inr (UPDATE_PRESERVE, st2) /\
                lens st2 /\ all_pp st2 /\ cycleTracker st2 = cycleTracker st1 /\
                (forall j, status_at st1 j = UPDATE_PRESERVE -> status_at st2 j = UPDATE_PRESERVE)).
    { induction cs as [|c cs IHcs]; intros st' Hsub Hl' Hpp' Hct' Hmono'.
      - exists st'. simpl. auto.
      - destruct (Hrank idx m op children Hm Hc c (Hsub c (or_introl eq_refl))) as (ci & Hci & Hrk).
        simpl. rewrite Hci.
        assert (Hcyc' : forall j, cycling st' j = true -> (rank ci < rank j)%nat).
        { intros j Hj. unfold cycling in Hj. rewrite Hct' in Hj. unfold st1, set_cycle in Hj.
          simpl in Hj. destruct (decide (j = idx)) as [->|Hji]; [lia|].
          rewrite list_lookup_insert_ne in Hj by auto.
          assert (Hj' : cycling st j = true) by exact Hj. specialize (Hcyc j Hj'). lia. }
        assert (Hcf : cycling st' ci = false).
        { destruct (cycling st' ci) eqn:E; [|reflexivity]. specialize (Hcyc' ci E). lia. }
        rewrite Hcf.
        destruct (IH ci st' (new_lookup_lt c ci Hci) ltac:(lia) Hl' Hpp' Hcyc')
          as (st'' & Hd & Hl'' & Hpp'' & Hs'' & Hct'' & Hmono'').
        rewrite Hd, Hs''. simpl.
        apply IHcs; auto.
        + intros c' Hin'. apply Hsub. right. exact Hin'.
        + congruence. }
    destruct (Hloop children st1 (fun c H => H)) as (st2 & Hl & Hl2 & Hpp2 & Hct2 & Hmono2).
    + unfold st1, set_cycle. simpl. rewrite length_insert. auto.
    + exact Hpp.
    + reflexivity.
    + auto.
    + match goal with |- context [children_loop ?a ?b ?c ?d ?e] =>
        replace (children_loop a b c d e) with
          (inr (UPDATE_PRESERVE, st2) : InvalidConfigReason + (UpdateStatus * UpdateState))
          by (symmetry; exact Hl) end.
      eexists. split; [reflexivity|].
      apply Hfin; auto.
      rewrite Hct2. unfold st1, set_cycle. simpl. rewrite list_insert_insert_eq.
      apply list_insert_id. exact Hcy.
  - exfalso. exact (Hset m Hinm Hc).
Qed.

Lemma update_loop_preserve (Hbound : forall i, (i < n)%nat -> (rank i < n)%nat) :
  forall idxs st, (forall i, In i idxs -> (i < n)%nat) ->
  lens st -> all_pp st -> (forall j, cycling st j = false) ->
  exists st', update_loop ser newConfig oldMap oldConfig newMap n idxs st = inr st' /\
    lens st' /\ all_pp st' /\ (forall j, cycling st' j = false) /\
    (forall j, status_at st j = UPDATE_PRESERVE -> status_at st' j = UPDATE_PRESERVE) /\
    (forall i, In i idxs -> status_at st' i = UPDATE_PRESERVE).
Proof.
  induction idxs as [|a idxs IH]; intros st Hin Hl Hpp Hcy.
  - exists st. simpl. split; [reflexivity|]. split; [auto|split; [auto|split; [auto|split; [auto|]]]].
    intros _ [].
  - assert (Ha : (a < n)%nat) by (apply Hin; left; reflexivity).
    destruct (determine_preserve n a st Ha (Hbound a Ha) Hl Hpp)
      as (st1 & Hd & Hl1 & Hpp1 & Hs1 & Hct1 & Hmono1).
    { intros j Hj. rewrite Hcy in Hj. discriminate. }
    assert (Hcy1 : forall j, cycling st1 j = false).
    { intros j. unfold cycling. rewrite Hct1. apply Hcy. }
    destruct (IH st1 (fun i H => Hin i (or_intror H)) Hl1 Hpp1 Hcy1)
      as (st' & Hu & Hl' & Hpp' & Hcy' & Hmono' & Hall).
    exists st'. simpl. rewrite Hd. split; [exact Hu|].
    split; [auto|split; [auto|split; [auto|split; [auto|]]]].
    intros i [<-|Hi]; auto.
Qed.

End Idempotent.

Lemma buildNodeMap_from_lookup l : forall i x k,
  buildNodeMap_from i l !! x = Some k ->
  exists nd, l !! (k - i)%nat = Some nd /\ node_id nd = x /\ (i <= k)%nat.
Proof.
  induction l as [|a l IH]; intros i x k H; simpl in H.
  - rewrite lookup_empty in H. discriminate.
  - destruct (decide (node_id a = x)) as [<-|Hne].
    + rewrite lookup_insert_eq in H. injection H as <-. exists a.
      rewrite Nat.sub_diag. auto.
    + rewrite lookup_insert_ne in H by auto.
      destruct (IH _ _ _ H) as (nd & Hnd & Hid & Hle). exists nd.
      replace (k - i)%nat with (S (k - S i)) by lia. simpl. auto with lia.
Qed.

Lemma buildNodeMap_from_nodup l : NoDup (map node_id l) -> forall i j nd,
  l !! j = Some nd -> buildNodeMap_from i l !! node_id nd = Some (i + j)%nat.
Proof.
  induction l as [|a l IH]; intros Hnd i j nd Hj; [discriminate|].
  simpl in Hnd. apply NoDup_cons in Hnd as [Hnot Hnd]. simpl.
  destruct j as [|j]; simpl in Hj.
  - injection Hj as <-. rewrite lookup_insert_eq. f_equal. lia.
  - rewrite lookup_insert_ne.
    + rewrite (IH Hnd (S i) j nd Hj). f_equal. lia.
    + intros E. apply Hnot. rewrite E. apply list_elem_of_In, in_map, list_elem_of_In.
      eapply list_elem_of_lookup_2. eauto.
Qed.

(** A decision state of [n] slots, none in progress, every one PRESERVE. *)
Lemma all_preserve_state (n : nat) (st : UpdateState) :
  length (matchersToUpdate st) = n -> length (cycleTracker st) = n ->
  (forall j, cycling st j = false) -> (forall i, (i < n)%nat -> status_at st i = UPDATE_PRESERVE) ->
  st = mkUpdateState (replicate n UPDATE_PRESERVE) (replicate n false).
Proof.
  intros Hl1 Hl2 Hcy Hall. destruct st as [ms ct]. simpl in *.
  f_equal; apply list_eq; intros j.
  - destruct (decide (j < n)%nat) as [Hj|Hj].
    + rewrite (lookup_replicate_2 n UPDATE_PRESERVE j Hj).
      assert (E := status_lookup (mkUpdateState ms ct) j ltac:(simpl; lia)).
      simpl in E. rewrite E. f_equal. apply Hall. exact Hj.
    + rewrite !lookup_ge_None_2; auto; rewrite ?length_replicate; lia.
  - destruct (decide (j < n)%nat) as [Hj|Hj].
    + rewrite (lookup_replicate_2 n false j Hj).
      specialize (Hcy j). unfold cycling in Hcy. simpl in Hcy.
      destruct (ct !! j) eqn:E; [simpl in Hcy; congruence|].
      apply lookup_ge_None in E. lia.
    + rewrite !lookup_ge_None_2; auto; rewrite ?length_replicate; lia.
Qed.

Section NodeIdempotent.
Variable kind : NodeKind.
Variable ser : ConfigNode -> list Z.
Variables oldNodes newNodes : list ConfigNode.
Variable dep_status : NodeKind -> Z -> option UpdateStatus.
Variable rank : nat -> nat.
Hypothesis Hperm : Permutation newNodes oldNodes.
Hypothesis Hnodup : NoDup (map node_id newNodes).
Hypothesis Hrank : forall i nd c, newNodes !! i = Some nd -> In c (node_children nd) ->
  exists ci, buildNodeMap newNodes !! c = Some ci /\ (rank ci < rank i)%nat.
Hypothesis Hdeps : forall nd k x, In nd newNodes -> In (k, x) (node_deps nd) ->
  dep_status k x = Some UPDATE_PRESERVE.

Local Abbreviation newMap := (buildNodeMap newNodes).
Local Abbreviation oldMap := (buildNodeMap oldNodes).
Local Abbreviation determine :=
  (determineNodeUpdateStatus kind ser newNodes oldMap oldNodes newMap dep_status).
Local Abbreviation n := (length newNodes).
Local Abbreviation all_pp st :=
  (forall j, status_at st j = UPDATE_UNKNOWN \/ status_at st j = UPDATE_PRESERVE).
Local Abbreviation lens st :=
  (length (matchersToUpdate st) = n /\ length (cycleTracker st) = n).

Lemma old_node_lookup nd : In nd newNodes ->
  exists k, oldMap !! node_id nd = Some k /\ oldNodes !! k = Some nd.
Proof.
  intros Hin. apply (Permutation_in _ Hperm) in Hin.
  apply list_elem_of_In, list_elem_of_lookup_1 in Hin as [k Hk].
  exists k. split; [|auto].
  apply (buildNodeMap_from_nodup oldNodes) with (i := 0%nat) in Hk; [exact Hk|].
  apply (proj1 (NoDup_Permutation_proper _ _ (Permutation_map node_id Hperm))). exact Hnodup.
Qed.

Lemma new_node_lookup_lt c ci : newMap !! c = Some ci -> (ci < n)%nat.
Proof.
  intros H. destruct (buildNodeMap_from_lookup _ _ _ _ H) as (nd & Hnd & _).
  rewrite Nat.sub_0_r in Hnd. apply lookup_lt_is_Some. eauto.
Qed.

Lemma deps_loop_preserve nd : In nd newNodes -> forall ds,
  (forall d, In d ds -> In d (node_deps nd)) ->
  deps_loop kind dep_status (node_id nd) ds = inr UPDATE_PRESERVE.
Proof.
  intros Hin ds. induction ds as [|[k x] ds IH]; intros Hsub; [reflexivity|].
  simpl. rewrite (Hdeps nd k x Hin (Hsub _ (or_introl eq_refl))). simpl.
  apply IH. intros d Hd. apply Hsub. right. exact Hd.
Qed.

Lemma determine_node_preserve fuel : forall idx st,
  (idx < n)%nat -> (rank idx < fuel)%nat -> lens st -> all_pp st ->
  (forall j, cycling st j = true -> (rank idx < rank j)%nat) ->
  exists st', determine fuel idx st = inr st' /\ lens st' /\ all_pp st' /\
    status_at st' idx = UPDATE_PRESERVE /\ cycleTracker st' = cycleTracker st /\
    (forall j, status_at st j = UPDATE_PRESERVE -> status_at st' j = UPDATE_PRESERVE).
Proof.
  induction fuel as [|f IH]; intros idx st Hidx Hr Hlen Hpp Hcyc; [lia|].
  cbn [determineNodeUpdateStatus].
  destruct (decide (status_at st idx = UPDATE_UNKNOWN)) as [Hu|Hu].
  2:{ rewrite bool_decide_false by exact Hu. cbn [negb]. exists st.
      split; [reflexivity|split; [auto|split; [auto|split; [|auto]]]].
      destruct (Hpp idx); congruence. }
  rewrite bool_decide_true by exact Hu. cbn [negb].
  destruct (lookup_lt_is_Some_2 newNodes idx Hidx) as [nd Hnd]. rewrite Hnd.
  assert (Hinn : In nd newNodes) by (apply list_elem_of_In; eapply list_elem_of_lookup_2; eauto).
  destruct (old_node_lookup nd Hinn) as (k & Hk & Hok). rewrite Hk, Hok. simpl.
  rewrite bool_decide_true by reflexivity. cbn [negb].
  rewrite (deps_loop_preserve nd Hinn (node_deps nd) (fun d H => H)).
  rewrite bool_decide_false by discriminate.
  assert (Hcy : cycleTracker st !! idx = Some false).
  { destruct (cycleTracker st !! idx) as [b|] eqn:E.
    - destruct b; [|reflexivity]. exfalso.
      assert (cycling st idx = true) by (unfold cycling; rewrite E; reflexivity).
      specialize (Hcyc idx H). lia.
    - apply lookup_ge_None in E. lia. }
  assert (Hfin : forall st2, lens st2 -> all_pp st2 ->
            <[idx := false]> (cycleTracker st2) = cycleTracker st ->
            (forall j, status_at st j = UPDATE_PRESERVE -> status_at st2 j = UPDATE_PRESERVE) ->
            let st3 := set_cycle (set_status st2 idx UPDATE_PRESERVE) idx false in
            lens st3 /\ all_pp st3 /\ status_at st3 idx = UPDATE_PRESERVE /\
            cycleTracker st3 = cycleTracker st /\
            (forall j, status_at st j = UPDATE_PRESERVE -> status_at st3 j = UPDATE_PRESERVE)).
  { intros st2 [Hl1 Hl2] Hpp2 Hct2 Hmono2 st3.
    assert (Hs3 : forall j, status_at st3 j = if decide (j = idx) then UPDATE_PRESERVE
                                             else status_at st2 j).
    { intros j. unfold st3, status_at, set_cycle, set_status. simpl.
      destruct (decide (j = idx)) as [->|Hj].
      - rewrite list_lookup_insert_eq by lia. reflexivity.
      - rewrite list_lookup_insert_ne by auto. reflexivity. }
    split; [|split; [|split; [|split]]].
    - unfold st3, set_cycle, set_status. simpl. rewrite !length_insert. auto.
    - intros j. rewrite Hs3. destruct (decide (j = idx)); auto.
    - rewrite Hs3. destruct (decide (idx = idx)); congruence.
    - unfold st3, set_cycle, set_status. simpl. exact Hct2.
    - intros j Hj. rewrite Hs3. destruct (decide (j = idx)); auto. }
  destruct (node_children nd) as [|c0 cs0] eqn:Hc.
  - exists (set_status st idx UPDATE_PRESERVE). split; [reflexivity|].
    assert (E : set_status st idx UPDATE_PRESERVE =
                set_cycle (set_status st idx UPDATE_PRESERVE) idx false).
    { unfold set_cycle, set_status. simpl. f_equal. symmetry. apply list_insert_id. exact Hcy. }
    rewrite E. apply Hfin; auto. simpl. apply list_insert_id. exact Hcy.
  - rewrite <- Hc.
    set (st1 := set_cycle st idx true).
    assert (Hloop : forall cs st, (forall c, In c cs -> In c (node_children nd)) ->
              lens st -> all_pp st -> cycleTracker st = cycleTracker st1 ->
              (forall j, status_at st1 j = UPDATE_PRESERVE -> status_at st j = UPDATE_PRESERVE) ->
              exists st2, node_children_loop kind newMap (determine f) (node_id nd) cs st
                            = inr (UPDATE_PRESERVE, st2) /\
                lens st2 /\ all_pp st2 /\ cycleTracker st2 = cycleTracker st1 /\
                (forall j, status_at st1 j = UPDATE_PRESERVE -> status_at st2 j = UPDATE_PRESERVE)).
    { induction cs as [|c cs IHcs]; intros st' Hsub Hl' Hpp' Hct' Hmono'.
      - exists st'. simpl. auto.
      - destruct (Hrank idx nd c Hnd (Hsub c (or_introl eq_refl))) as (ci & Hci & Hrk).
        simpl. rewrite Hci.
        assert (Hcyc' : forall j, cycling st' j = true -> (rank ci < rank j)%nat).
        { intros j Hj. unfold cycling in Hj. rewrite Hct' in Hj. unfold st1, set_cycle in Hj.
          simpl in Hj. destruct (decide (j = idx)) as [->|Hji]; [lia|].
          rewrite list_lookup_insert_ne in Hj by auto.
          assert (Hj' : cycling st j = true) by exact Hj. specialize (Hcyc j Hj'). lia. }
        assert (Hcf : cycling st' ci = false).
        { destruct (cycling st' ci) eqn:E; [|reflexivity]. specialize (Hcyc' ci E). lia. }
        rewrite Hcf.
        destruct (IH ci st' (new_node_lookup_lt c ci Hci) ltac:(lia) Hl' Hpp' Hcyc')
          as (st'' & Hd & Hl'' & Hpp'' & Hs'' & Hct'' & Hmono'').
        rewrite Hd, Hs''. simpl.
        apply IHcs; auto.
        + intros c' Hin'. apply Hsub. right. exact Hin'.
        + congruence. }
    destruct (Hloop (node_children nd) st1 (fun c H => H)) as (st2 & Hl & Hl2 & Hpp2 & Hct2 & Hmono2).
    + unfold st1, set_cycle. simpl. rewrite length_insert. auto.
    + exact Hpp.
    + reflexivity.
    + auto.
    + match goal with |- context [node_children_loop ?a ?b ?c ?d ?e ?g] =>
        replace (node_children_loop a b c d e g) with
          (inr (UPDATE_PRESERVE, st2) : InvalidNodeReason + (UpdateStatus * UpdateState))
          by (symmetry; exact Hl) end.
      eexists. split; [reflexivity|].
      apply Hfin; auto.
      rewrite Hct2. unfold st1, set_cycle. simpl. rewrite list_insert_insert_eq.
      apply list_insert_id. exact Hcy.
Qed.

Lemma update_nodes_loop_preserve (Hbound : forall i, (i < n)%nat -> (rank i < n)%nat) :
  forall idxs st, (forall i, In i idxs -> (i < n)%nat) ->
  lens st -> all_pp st -> (forall j, cycling st j = false) ->
  exists st', update_nodes_loop kind ser newNodes oldMap oldNodes newMap dep_status n idxs st
                = inr st' /\
    lens st' /\ all_pp st' /\ (forall j, cycling st' j = false) /\
    (forall i, In i idxs -> status_at st' i = UPDATE_PRESERVE) /\
    (forall j, status_at st j = UPDATE_PRESERVE -> status_at st' j = UPDATE_PRESERVE).
Proof.
  induction idxs as [|a idxs IH]; intros st Hin Hl Hpp Hcy.
  - exists st. simpl. split; [reflexivity|]. split; [auto|split; [auto|split; [auto|split; [|auto]]]].
    intros _ [].
  - assert (Ha : (a < n)%nat) by (apply Hin; left; reflexivity).
    destruct (determine_node_preserve n a st Ha (Hbound a Ha) Hl Hpp)
      as (st1 & Hd & Hl1 & Hpp1 & Hs1 & Hct1 & Hmono1).
    { intros j Hj. rewrite Hcy in Hj. discriminate. }
    assert (Hcy1 : forall j, cycling st1 j = false).
    { intros j. unfold cycling. rewrite Hct1. apply Hcy. }
    destruct (IH st1 (fun i H => Hin i (or_intror H)) Hl1 Hpp1 Hcy1)
      as (st' & Hu & Hl' & Hpp' & Hcy' & Hall & Hmono').
    exists st'. simpl. rewrite Hd. split; [exact Hu|].
    split; [auto|split; [auto|split; [auto|split; [|auto]]]].
    intros i [<-|Hi]; auto.
Qed.

Lemma nodes_all_preserve (Hbound : forall i, (i < n)%nat -> (rank i < n)%nat) :
  updateNodes kind ser oldNodes newNodes dep_status =
    inr (mkUpdateState (replicate n UPDATE_PRESERVE) (replicate n false)).
Proof.
  set (st0 := mkUpdateState (replicate n UPDATE_UNKNOWN) (replicate n false)).
  destruct (update_nodes_loop_preserve Hbound (seq 0 n) st0) as (st' & Hu & [Hl1 Hl2] & _ & Hcy & Hall & _).
  - intros i Hi. apply in_seq in Hi. lia.
  - simpl. rewrite !length_replicate. auto.
  - intros j. left. apply init_status.
  - apply init_cycling.
  - unfold updateNodes. cbv zeta. unfold st0 in Hu. rewrite Hu. f_equal.
    apply all_preserve_state; auto. intros i Hi. apply Hall. apply in_seq. lia.
Qed.

End NodeIdempotent.

Lemma buildNodeMap_from_In l : forall i x, In x (map node_id l) ->
  exists k, buildNodeMap_from i l !! x = Some k /\ (k < i + length l)%nat.
Proof.
  induction l as [|a l IH]; intros i x Hin; [destruct Hin|]. simpl.
  destruct (decide (node_id a = x)) as [<-|Hne].
  - exists i. rewrite lookup_insert_eq. split; [reflexivity|lia].
  - destruct Hin as [E|Hin]; [congruence|].
    destruct (IH (S i) x Hin) as (k & Hk & Hlt). exists k.
    rewrite lookup_insert_ne by auto. split; [exact Hk|lia].
Qed.

Lemma buildMatcherMap_from_In l : forall i x, In x (map id l) ->
  exists k, buildMatcherMap_from i l !! x = Some k /\ (k < i + length l)%nat.
Proof.
  induction l as [|a l IH]; intros i x Hin; [destruct Hin|]. simpl.
  destruct (decide (id a = x)) as [<-|Hne].
  - exists i. rewrite lookup_insert_eq. split; [reflexivity|lia].
  - destruct Hin as [E|Hin]; [congruence|].
    destruct (IH (S i) x Hin) as (k & Hk & Hlt). exists k.
    rewrite lookup_insert_ne by auto. split; [exact Hk|lia].
Qed.

Lemma status_by_id_nodes (l : list ConfigNode) (x : Z) :
  In x (map node_id l) ->
  status_by_id (buildNodeMap l) (replicate (length l) UPDATE_PRESERVE) x = Some UPDATE_PRESERVE.
Proof.
  intros Hin. destruct (buildNodeMap_from_In l 0 x Hin) as (k & Hk & Hlt).
  unfold status_by_id, buildNodeMap. rewrite Hk. apply lookup_replicate_2. lia.
Qed.

Lemma status_by_id_matchers (l : list AtomMatcher) (x : Z) :
  In x (map id l) ->
  status_by_id (buildMatcherMap l) (replicate (length l) UPDATE_PRESERVE) x = Some UPDATE_PRESERVE.
Proof.
  intros Hin. destruct (buildMatcherMap_from_In l 0 x Hin) as (k & Hk & Hlt).
  unfold status_by_id, buildMatcherMap. rewrite Hk. apply lookup_replicate_2. lia.
Qed.

Lemma matchers_all_preserve (SerializeToString : AtomMatcher -> list Z)
    (oldConfig newConfig : list AtomMatcher) (rank : nat -> nat) :
  Permutation newConfig oldConfig ->
  NoDup (map id newConfig) ->
  (forall m, In m newConfig -> contents m <> CONTENTS_NOT_SET) ->
  (forall i m op children, newConfig !! i = Some m -> contents m = kCombination op children ->
     forall c, In c children ->
     exists ci, buildMatcherMap newConfig !! c = Some ci /\ (rank ci < rank i)%nat) ->
  (forall i, (i < length newConfig)%nat -> (rank i < length newConfig)%nat) ->
  updateAtomMatchingTrackers SerializeToString oldConfig newConfig =
    inr (mkUpdateState (replicate (length newConfig) UPDATE_PRESERVE)
                       (replicate (length newConfig) false)).
Proof.
  intros Hperm Hnodup Hset Hrank Hbound.
  set (n := length newConfig).
  set (st0 := mkUpdateState (replicate n UPDATE_UNKNOWN) (replicate n false)).
  destruct (update_loop_preserve SerializeToString oldConfig newConfig rank Hperm Hnodup Hset
              Hrank Hbound (seq 0 n) st0) as (st' & Hu & [Hl1 Hl2] & _ & Hcy & _ & Hall).
  - intros i Hi. apply in_seq in Hi. lia.
  - simpl. rewrite !length_replicate. auto.
  - intros j. left. apply init_status.
  - apply init_cycling.
  - unfold updateAtomMatchingTrackers. cbv zeta. unfold st0, n in Hu. rewrite Hu. f_equal.
    apply all_preserve_state; auto. intros i Hi. apply Hall. apply in_seq. lia.
Qed.

Ltac solve_dep_in :=
  match goal with
  | H : _ \/ _ |- _ => destruct H as [H|H]; solve_dep_in
  | H : False |- _ => destruct H
  | H : (_, _) = (_, _) |- _ =>
      injection H as <- <-;
      split; [apply (bool_decide_unpack _); vm_compute; exact I
             |apply list_elem_of_In; apply (bool_decide_unpack _); vm_compute; exact I]
  end.

(** (C2) Preserve idempotence: diffing a valid configuration against the
    graph installed from the same configuration, with the nodes of each
    kind possibly reordered, marks every node PRESERVE: every matcher,
    condition, state, metric and alert. Valid means: ids distinct within a
    kind, every matcher set, children resolving to nodes of the same kind
    of lower rank (no cycle), and each node using only ids of the kinds it
    may depend on. In particular, examining any single combination matcher
    from a fresh state marks it and each of its children PRESERVE. *)
Theorem preserve_idempotent (SerializeToString : AtomMatcher -> list Z)
    (SerializeNode : ConfigNode -> list Z) (oldConfig newConfig : StatsdConfig)
    (rank : NodeKind -> nat -> nat) :
  Permutation (atom_matcher newConfig) (atom_matcher oldConfig) ->
  NoDup (map id (atom_matcher newConfig)) ->
  (forall m, In m (atom_matcher newConfig) -> contents m <> CONTENTS_NOT_SET) ->
  (forall i m op children, atom_matcher newConfig !! i = Some m ->
     contents m = kCombination op children -> forall c, In c children ->
     exists ci, buildMatcherMap (atom_matcher newConfig) !! c = Some ci /\
                (rank KMatcher ci < rank KMatcher i)%nat) ->
  (forall i, (i < length (atom_matcher newConfig))%nat ->
     (rank KMatcher i < length (atom_matcher newConfig))%nat) ->
  (forall k, Permutation (kind_nodes newConfig k) (kind_nodes oldConfig k)) ->
  (forall k, NoDup (map node_id (kind_nodes newConfig k))) ->
  (forall k i nd c, kind_nodes newConfig k !! i = Some nd -> In c (node_children nd) ->
     exists ci, buildNodeMap (kind_nodes newConfig k) !! c = Some ci /\ (rank k ci < rank k i)%nat) ->
  (forall k i, (i < length (kind_nodes newConfig k))%nat ->
     (rank k i < length (kind_nodes newConfig k))%nat) ->
  (forall k nd dk x, In nd (kind_nodes newConfig k) -> In (dk, x) (node_deps nd) ->
     dk ∈ deps_before k /\ In x (kind_ids newConfig dk)) ->
  updateStatsdConfig SerializeToString SerializeNode oldConfig newConfig =
    inr (mkConfigUpdateResult
           (replicate (length (atom_matcher newConfig)) UPDATE_PRESERVE)
           (replicate (length (predicate newConfig)) UPDATE_PRESERVE)
           (replicate (length (state newConfig)) UPDATE_PRESERVE)
           (replicate (length (metric newConfig)) UPDATE_PRESERVE)
           (replicate (length (alert newConfig)) UPDATE_PRESERVE)) /\
  (forall i m op children, atom_matcher newConfig !! i = Some m ->
     contents m = kCombination op children ->
     exists st,
       determineMatcherUpdateStatus SerializeToString (atom_matcher newConfig)
         (buildMatcherMap (atom_matcher oldConfig)) (atom_matcher oldConfig)
         (buildMatcherMap (atom_matcher newConfig)) (length (atom_matcher newConfig)) i
         (mkUpdateState (replicate (length (atom_matcher newConfig)) UPDATE_UNKNOWN)
                        (replicate (length (atom_matcher newConfig)) false)) = inr st /\
       status_at st i = UPDATE_PRESERVE /\
       (forall c, In c children ->
          exists ci, buildMatcherMap (atom_matcher newConfig) !! c = Some ci /\
                     status_at st ci = UPDATE_PRESERVE)).
Proof.
  intros Hperm Hnodup Hset Hrank Hbound HpermN HnodupN HrankN HboundN Hdeps.
  split.
  - unfold updateStatsdConfig.
    rewrite (matchers_all_preserve SerializeToString _ _ (rank KMatcher) Hperm Hnodup Hset Hrank Hbound).
    cbn [matchersToUpdate].
    assert (Hd : forall k r, (forall dk x, dk ∈ deps_before k -> In x (kind_ids newConfig dk) ->
                                status_of newConfig r dk x = Some UPDATE_PRESERVE) ->
              forall nd dk x, In nd (kind_nodes newConfig k) -> In (dk, x) (node_deps nd) ->
              dep_status_for newConfig r k dk x = Some UPDATE_PRESERVE).
    { intros k r Hr nd dk x Hin Hdx. destruct (Hdeps k nd dk x Hin Hdx) as [Hk Hx].
      unfold dep_status_for. rewrite decide_True by exact Hk. apply Hr; auto. }
    assert (HM : forall x, In x (kind_ids newConfig KMatcher) ->
              status_by_id (buildMatcherMap (atom_matcher newConfig))
                (replicate (length (atom_matcher newConfig)) UPDATE_PRESERVE) x = Some UPDATE_PRESERVE)
      by (intros x Hx; apply status_by_id_matchers, Hx).
    assert (HN : forall k x, In x (kind_ids newConfig k) -> k <> KMatcher ->
              status_by_id (buildNodeMap (kind_nodes newConfig k))
                (replicate (length (kind_nodes newConfig k)) UPDATE_PRESERVE) x = Some UPDATE_PRESERVE)
      by (intros k x Hx Hk; apply status_by_id_nodes; destruct k; [congruence|exact Hx..]).
    match goal with |- context [updateNodes KCondition ?s ?o ?nn (dep_status_for _ ?r _)] =>
      rewrite (nodes_all_preserve KCondition s o nn _ (rank KCondition)
                 (HpermN KCondition) (HnodupN KCondition) (HrankN KCondition)
                 (Hd KCondition r ltac:(intros dk x Hk Hx; apply list_elem_of_singleton in Hk as ->;
                                        apply HM, Hx))
                 (HboundN KCondition)) end.
    cbn [matchersToUpdate].
    match goal with |- context [updateNodes KState ?s ?o ?nn (dep_status_for _ ?r _)] =>
      rewrite (nodes_all_preserve KState s o nn _ (rank KState)
                 (HpermN KState) (HnodupN KState) (HrankN KState)
                 (Hd KState r ltac:(intros dk x Hk; apply elem_of_nil in Hk as []))
                 (HboundN KState)) end.
    cbn [matchersToUpdate].
    match goal with |- context [updateNodes KMetric ?s ?o ?nn (dep_status_for _ ?r _)] =>
      rewrite (nodes_all_preserve KMetric s o nn _ (rank KMetric)
                 (HpermN KMetric) (HnodupN KMetric) (HrankN KMetric)
                 (Hd KMetric r ltac:(intros dk x Hk Hx;
                    repeat (apply elem_of_cons in Hk as [->|Hk];
                            [first [apply HM, Hx | exact (HN _ x Hx ltac:(discriminate))]|]);
                    apply elem_of_nil in Hk as []))
                 (HboundN KMetric)) end.
    cbn [matchersToUpdate].
    match goal with |- context [updateNodes KAlert ?s ?o ?nn (dep_status_for _ ?r _)] =>
      rewrite (nodes_all_preserve KAlert s o nn _ (rank KAlert)
                 (HpermN KAlert) (HnodupN KAlert) (HrankN KAlert)
                 (Hd KAlert r ltac:(intros dk x Hk Hx; apply list_elem_of_singleton in Hk as ->;
                                    exact (HN _ x Hx ltac:(discriminate))))
                 (HboundN KAlert)) end.
    reflexivity.
  - intros i m op children Hm Hc.
    set (n := length (atom_matcher newConfig)).
    set (st0 := mkUpdateState (replicate n UPDATE_UNKNOWN) (replicate n false)).
    assert (Hl0 : length (matchersToUpdate st0) = n /\ length (cycleTracker st0) = n).
    { simpl. rewrite !length_replicate. auto. }
    assert (Hpp0 : forall j, status_at st0 j = UPDATE_UNKNOWN \/ status_at st0 j = UPDATE_PRESERVE).
    { intros j. left. apply init_status. }
    assert (Hi : (i < n)%nat) by (apply lookup_lt_is_Some; eauto).
    destruct (determine_preserve SerializeToString _ _ (rank KMatcher) Hperm Hnodup Hset
                Hrank n i st0 Hi (Hbound i Hi) Hl0 Hpp0) as (st & Hdt & _ & _ & Hs & _ & _).
    { intros j Hj. unfold st0 in Hj. rewrite init_cycling in Hj. discriminate. }
    exists st. split; [exact Hdt|split; [exact Hs|]].
    destruct (determine_spec SerializeToString (atom_matcher newConfig)
                (buildMatcherMap (atom_matcher oldConfig)) (atom_matcher oldConfig)
                (buildMatcherMap (atom_matcher newConfig)) n i st0 st
                (init_inv (atom_matcher newConfig) (buildMatcherMap (atom_matcher oldConfig))
                   (buildMatcherMap (atom_matcher newConfig)))
                (init_cycling n i) Hdt) as ((_ & _ & Hpc & _) & _ & _).
    intros c Hin. exact (Hpc i m op children Hm Hc Hs c Hin).
Qed.


Lemma combination_replace_cascade_witness :
  updateAtomMatchingTrackers test_serialize test_old_config test_deps_change_config =
    inr (mkUpdateState [UPDATE_REPLACE; UPDATE_REPLACE; UPDATE_PRESERVE] [false; false; false]) /\
  matchersToUpdate (mkUpdateState [UPDATE_REPLACE; UPDATE_REPLACE; UPDATE_PRESERVE]
                      [false; false; false]) !! 1%nat = Some UPDATE_REPLACE.
Proof.
  assert (Hu : updateAtomMatchingTrackers test_serialize test_old_config test_deps_change_config =
    inr (mkUpdateState [UPDATE_REPLACE; UPDATE_REPLACE; UPDATE_PRESERVE] [false; false; false]))
    by (vm_compute; reflexivity).
  split; [exact Hu|].
  apply (combination_replace_cascade test_serialize test_old_config test_deps_change_config _ Hu
           1 test_matcher3 OR [1; 2] 2 0).
  - reflexivity.
  - reflexivity.
  - eexists. vm_compute. reflexivity.
  - simpl. auto.
  - vm_compute. reflexivity.
  - reflexivity.
Defined.

Lemma preserve_idempotent_witness :
  updateStatsdConfig test_serialize test_serialize_node test_old_statsd_config
    test_new_statsd_config =
  inr (mkConfigUpdateResult [UPDATE_PRESERVE; UPDATE_PRESERVE; UPDATE_PRESERVE]
         [UPDATE_PRESERVE; UPDATE_PRESERVE] [UPDATE_PRESERVE] [UPDATE_PRESERVE] [UPDATE_PRESERVE]).
Proof.
  exact (proj1 (preserve_idempotent test_serialize test_serialize_node test_old_statsd_config
    test_new_statsd_config
    (fun k i => match k, i with KMatcher, 1%nat => 1%nat | KCondition, 0%nat => 1%nat | _, _ => 0%nat end)
    (Permutation_sym (Permutation_cons_append [test_matcher2; test_matcher3] test_matcher1))
    ltac:(apply (bool_decide_unpack _); vm_compute; exact I)
    ltac:(intros m Hm; simpl in Hm; destruct Hm as [<-|[<-|[<-|[]]]]; discriminate)
    ltac:(intros i m op ch Hm Hc c Hin;
          destruct i as [|[|[|i]]]; simpl in Hm; try discriminate;
          injection Hm as <-; simpl in Hc; try discriminate;
          injection Hc as _ <-; simpl in Hin;
          destruct Hin as [<-|[<-|[]]];
          [exists 2%nat | exists 0%nat]; split; (vm_compute; reflexivity) || lia)
    ltac:(intros i Hi; simpl in Hi; destruct i as [|[|[|i]]]; simpl; lia)
    ltac:(intros k; destruct k; simpl; [reflexivity|apply perm_swap|reflexivity..])
    ltac:(intros k; destruct k; apply (bool_decide_unpack _); vm_compute; exact I)
    ltac:(intros k i nd c Hm Hin; destruct k; destruct i as [|[|i]]; simpl in Hm;
          try discriminate; injection Hm as <-; simpl in Hin; try contradiction;
          destruct Hin as [<-|[]]; exists 1%nat; split; [reflexivity|simpl; lia])
    ltac:(intros k i Hi; destruct k; simpl in *; destruct i as [|[|i]]; simpl; lia)
    ltac:(intros k nd dk x Hin Hdx; destruct k; simpl in Hin;
          repeat (destruct Hin as [<-|Hin]; [simpl in Hdx; solve_dep_in|]); destruct Hin))).
Defined.

End ConfigUpdateFacts.

Module AlarmFacts.
Import Alarm.

(** (C6, amended) For a positive period, the next fire time is
    offset + k * period for some k >= 0, is strictly later than the
    current time, and is the earliest such time: the offset itself while
    it is still ahead, and never a time equal to the current time. *)
Theorem findNextAlarmSec_schedule (offsetSec periodSec currentTimeSec : Z) :
  0 < periodSec ->
  exists k, 0 <= k /\
    findNextAlarmSec offsetSec periodSec currentTimeSec = offsetSec + k * periodSec /\
    currentTimeSec < findNextAlarmSec offsetSec periodSec currentTimeSec /\
    (forall k', 0 <= k' -> currentTimeSec < offsetSec + k' * periodSec ->
       findNextAlarmSec offsetSec periodSec currentTimeSec <= offsetSec + k' * periodSec).
Proof.
  intros Hp. unfold findNextAlarmSec.
  destruct (currentTimeSec <? offsetSec) eqn:Hlt.
  - apply Z.ltb_lt in Hlt. exists 0. split; [lia|]. split; [lia|]. split; [lia|].
    intros k' Hk' _. nia.
  - apply Z.ltb_ge in Hlt.
    pose proof (Z.div_mod (currentTimeSec - offsetSec) periodSec ltac:(lia)) as Hdm.
    pose proof (Z.mod_pos_bound (currentTimeSec - offsetSec) periodSec Hp) as Hr.
    pose proof (Z.div_pos (currentTimeSec - offsetSec) periodSec ltac:(lia) Hp) as Hq.
    set (q := (currentTimeSec - offsetSec) / periodSec) in *.
    set (r := (currentTimeSec - offsetSec) mod periodSec) in *.
    exists (q + 1). split; [lia|]. split; [lia|]. split; [lia|].
    intros k' Hk' Hnow.
    assert (q < k') by nia. nia.
Qed.

(** Scenario 7 of the specification: offset 10s, period 5000s, update at
    2s. *)
Lemma findNextAlarmSec_schedule_witness :
  0 < 5000 /\
  exists k, 0 <= k /\
    findNextAlarmSec 10 5000 2 = 10 + k * 5000 /\
    2 < findNextAlarmSec 10 5000 2 /\
    (forall k', 0 <= k' -> 2 < 10 + k' * 5000 -> findNextAlarmSec 10 5000 2 <= 10 + k' * 5000).
Proof. split; [lia | apply (findNextAlarmSec_schedule 10 5000 2); lia]. Defined.

(** (C6, counterexample) With offset 10s and period 5000s, an update at 2s fires at
    10s, which is offset + k * period for no k >= 1; and an update at
    5010s, itself the time offset + 1 * period, fires at 10010s. *)
Lemma findNextAlarmSec_counterexample :
  findNextAlarmSec 10 5000 2 = 10 /\
  ~ (exists k, 1 <= k /\ findNextAlarmSec 10 5000 2 = 10 + k * 5000) /\
  findNextAlarmSec 10 5000 5010 = 10010 /\ 5010 = 10 + 1 * 5000.
Proof.
  split; [reflexivity|]. split; [|split; reflexivity].
  intros (k & Hk & Heq).
  replace (findNextAlarmSec 10 5000 2) with 10 in Heq by reflexivity. lia.
Qed.

End AlarmFacts.

Module UidMapFacts.
Import UidMap.

Lemma ConfigKey_eqb_spec (a b : ConfigKey) : ConfigKey_eqb a b = true <-> a = b.
Proof.
  destruct a as [u1 i1], b as [u2 i2]. unfold ConfigKey_eqb; simpl.
  rewrite andb_true_iff, !Z.eqb_eq. split; [intros [-> ->]; reflexivity | intros H; injection H; auto].
Qed.

Lemma ConfigKey_eqb_refl (a : ConfigKey) : ConfigKey_eqb a a = true.
Proof. apply ConfigKey_eqb_spec. reflexivity. Qed.

Lemma mark_find_set (marks : list (ConfigKey * Z)) (key k : ConfigKey) (v : Z) :
  mark_find (mark_set marks key v) k = if ConfigKey_eqb key k then Some v else mark_find marks k.
Proof.
  induction marks as [|[k' v'] rest IH]; simpl.
  - reflexivity.
  - destruct (ConfigKey_eqb k' key) eqn:E1.
    + apply ConfigKey_eqb_spec in E1. subst k'. simpl.
      destruct (ConfigKey_eqb key k); reflexivity.
    + destruct (ConfigKey_ltb key k'); simpl.
      * reflexivity.
      * rewrite IH. destruct (ConfigKey_eqb k' k) eqn:E2; [|reflexivity].
        apply ConfigKey_eqb_spec in E2. subst k.
        destruct (ConfigKey_eqb key k') eqn:E3; [|reflexivity].
        apply ConfigKey_eqb_spec in E3. subst. rewrite ConfigKey_eqb_refl in E1. discriminate.
Qed.

Section Budget.
Variable K : Z.
Variable kMax : Z.
Variable kMaxDeleted : nat.
Hypothesis HK : 0 < K.
Hypothesis HkMax : 0 <= kMax.

Lemma bytes_limit_nonneg (s : UidMapState) : 0 <= bytes_limit kMax s.
Proof. unfold bytes_limit. destruct (maxBytesOverride s <=? 0) eqn:E; [lia | apply Z.leb_gt in E; lia]. Qed.

Lemma ensure_loop_evicts (limit : Z) (changes : list ChangeRecord) (bytes : Z) :
  0 <= limit -> bytes = K * Z.of_nat (length changes) ->
  exists n, ensure_loop K limit bytes changes =
              Some (K * Z.of_nat (length (drop n changes)), drop n changes) /\
            K * Z.of_nat (length (drop n changes)) <= limit /\
            (forall n', (n' < n)%nat -> limit < K * Z.of_nat (length (drop n' changes))).
Proof.
  intros Hlim. revert bytes. induction changes as [|r rest IH]; intros bytes Hb; simpl.
  - exists 0%nat. simpl in *. subst bytes.
    rewrite (proj2 (Z.ltb_ge limit _)) by lia.
    split; [reflexivity|]. split; [lia|]. intros n' Hn'. lia.
  - destruct (limit <? bytes) eqn:E.
    + apply Z.ltb_lt in E.
      destruct (IH (bytes - K)) as (n & Hn & Hle & Hmin).
      { rewrite Hb. simpl length. rewrite Nat2Z.inj_succ. lia. }
      exists (S n). simpl drop. split; [exact Hn|]. split; [exact Hle|].
      intros [|n'] Hn'.
      * simpl drop. rewrite <- Hb. exact E.
      * simpl drop. apply Hmin. lia.
    + apply Z.ltb_ge in E. exists 0%nat. simpl drop. rewrite <- Hb.
      split; [reflexivity|]. split; [exact E|]. intros n' Hn'. lia.
Qed.

Lemma prune_loop_spec (cutoff bytes : Z) (changes : list ChangeRecord) :
  prune_loop K cutoff bytes changes =
    (bytes - K * (Z.of_nat (length changes) -
                  Z.of_nat (length (List.filter (fun r => negb (timestampNs r <? cutoff)) changes))),
     List.filter (fun r => negb (timestampNs r <? cutoff)) changes).
Proof.
  revert bytes. induction changes as [|r rest IH]; intros bytes; simpl.
  - f_equal. lia.
  - destruct (timestampNs r <? cutoff); simpl.
    + rewrite IH. f_equal. rewrite Nat2Z.inj_succ. lia.
    + rewrite IH. f_equal. rewrite !Nat2Z.inj_succ. lia.
Qed.

Lemma filter_length_le' (f : ChangeRecord -> bool) (l : list ChangeRecord) :
  (length (List.filter f l) <= length l)%nat.
Proof. induction l as [|x l IH]; simpl; [lia|]. destruct (f x); simpl; lia. Qed.

Definition budget_inv (s : UidMapState) : Prop :=
  mBytesUsed s = K * Z.of_nat (length (mChanges s)) /\
  0 <= mBytesUsed s <= bytes_limit kMax s.

Lemma apply_op_budget (op : Op) (s : UidMapState) :
  budget_inv s -> exists s', apply_op K kMax kMaxDeleted op s = Some s' /\ budget_inv s'.
Proof.
  intros [Hb Hle]. pose proof (bytes_limit_nonneg s) as Hl0.
  destruct op as [t infos|t n u v vs i c|t n u|t key| |key|key|b]; simpl.
  - unfold updateMap.
    destruct (ensure_loop_evicts (bytes_limit kMax s) (mChanges s) (mBytesUsed s) Hl0 Hb)
      as (m & -> & Hm & _).
    eexists. split; [reflexivity|]. unfold budget_inv, bytes_limit in *; simpl. lia.
  - unfold updateApp.
    destruct (mMap s !! (u, n)) as [d|]; cbv zeta beta iota;
    match goal with |- context [ensure_loop K ?l ?b ?ch] =>
      let H := fresh in
      assert (H : b = K * Z.of_nat (length ch))
        by (rewrite List.length_app, Nat2Z.inj_add, Hb; simpl; lia);
      destruct (ensure_loop_evicts l ch b Hl0 H) as (m & -> & Hm & _) end;
    (eexists; split; [reflexivity|]; unfold budget_inv, bytes_limit in *; simpl; lia).
  - unfold removeApp.
    destruct (mMap s !! (u, n)) as [d|]; [destruct (negb (deleted d))|]; cbv zeta beta iota;
    match goal with |- context [if (kMaxDeleted <? ?x)%nat then ?a else ?b] =>
      destruct (if (kMaxDeleted <? x)%nat then a else b) as [m2 d2] end;
    match goal with |- context [ensure_loop K ?l ?b ?ch] =>
      let H := fresh in
      assert (H : b = K * Z.of_nat (length ch))
        by (rewrite List.length_app, Nat2Z.inj_add, Hb; simpl; lia);
      destruct (ensure_loop_evicts l ch b Hl0 H) as (m & -> & Hm & _) end;
    (eexists; split; [reflexivity|]; unfold budget_inv, bytes_limit in *; simpl; lia).
  - eexists. split; [reflexivity|]. unfold appendUidMap.
    destruct (emit_loop (mLastUpdatePerConfigKey s) key (mChanges s)) as [marks1 emitted].
    destruct (_ <? _); simpl.
    + rewrite prune_loop_spec. unfold budget_inv, bytes_limit in *; simpl.
      pose proof (filter_length_le' (fun r => negb (timestampNs r <? getMinimumTimestampNs (mark_set marks1 key t))) (mChanges s)).
      rewrite Hb. nia.
    + unfold budget_inv, bytes_limit in *; simpl. lia.
  - eexists. split; [reflexivity|]. unfold budget_inv, bytes_limit in *; simpl. lia.
  - eexists. split; [reflexivity|]. unfold budget_inv, bytes_limit in *; simpl. lia.
  - eexists. split; [reflexivity|]. unfold budget_inv, bytes_limit in *; simpl. lia.
  - eexists. split; [reflexivity|]. unfold budget_inv, bytes_limit in *; simpl. lia.
Qed.

End Budget.

Lemma ensure_loop_drop (K limit bytes bytes' : Z) (changes changes' : list ChangeRecord) :
  ensure_loop K limit bytes changes = Some (bytes', changes') ->
  exists n, changes' = drop n changes.
Proof.
  revert bytes. induction changes as [|r rest IH]; intros bytes H; simpl in H.
  - destruct (limit <? bytes); [discriminate|]. injection H as _ <-. exists 0%nat. reflexivity.
  - destruct (limit <? bytes).
    + destruct (IH _ H) as [n ->]. exists (S n). reflexivity.
    + injection H as _ <-. exists 0%nat. reflexivity.
Qed.

(** (C7, amended) [updateApp] upserts the entry of (uid, appName)
    with the new data and deleted = false, leaves every other entry alone,
    appends a change record (the byte budget may then drop the oldest
    records), and notifies [notifyAppUpgrade] exactly when a listener is
    set and the key was already in the map, live or tombstoned. *)
Theorem updateApp_upsert (K kMax : Z) (s : UidMapState) (timestamp : Z) (appName : string)
    (uid appVersionCode : Z) (appVersionString appInstaller appCertificateHash : string)
    (s' : UidMapState) :
  updateApp K kMax s timestamp appName uid appVersionCode appVersionString appInstaller
    appCertificateHash = Some s' ->
  mMap s' !! (uid, appName) =
    Some (mkAppData appVersionCode appVersionString appInstaller appCertificateHash false) /\
  (forall k, k <> (uid, appName) -> mMap s' !! k = mMap s !! k) /\
  (exists n prevVer prevVerString,
     mChanges s' = drop n (mChanges s ++ [mkChangeRecord false timestamp appName uid
                                            appVersionCode appVersionString prevVer prevVerString])) /\
  notifications s' = notifications s ++
    (if mSubscriber s && bool_decide (is_Some (mMap s !! (uid, appName)))
     then [NotifyAppUpgrade timestamp appName uid appVersionCode] else []).
Proof.
  unfold updateApp. intros H.
  destruct (mMap s !! (uid, appName)) as [d|] eqn:Hd; cbv zeta beta iota in H;
  match type of H with
  | context [ensure_loop ?K' ?l ?b ?ch] =>
      destruct (ensure_loop K' l b ch) as [[bytes ch']|] eqn:He; [|discriminate];
      injection H as <-; apply ensure_loop_drop in He as [n Hn]
  end; simpl.
  - split; [apply lookup_insert_eq|]. split; [intros k Hk; apply lookup_insert_ne; congruence|].
    split; [eauto|]. destruct (mSubscriber s); reflexivity.
  - split; [apply lookup_insert_eq|]. split; [intros k Hk; apply lookup_insert_ne; congruence|].
    split; [eauto|]. destruct (mSubscriber s); reflexivity.
Qed.

(** The map of a live install is upserted on an upgrade, and the listener
    is told of the upgrade. *)
Lemma updateApp_upsert_witness :
  exists s1 s2,
    run_ops 1 100 10 example_install_ops (initialUidMap 0) = Some s1 /\
    updateApp 1 100 s1 3 "app" 1000 2 EmptyString EmptyString EmptyString = Some s2 /\
    mMap s2 !! (1000, "app") = Some (mkAppData 2 EmptyString EmptyString EmptyString false) /\
    notifications s2 = notifications s1 ++ [NotifyAppUpgrade 3 "app" 1000 2].
Proof.
  destruct (run_ops 1 100 10 example_install_ops (initialUidMap 0)) as [s1|] eqn:E1;
    [|vm_compute in E1; discriminate].
  destruct (updateApp 1 100 s1 3 "app" 1000 2 EmptyString EmptyString EmptyString)
    as [s2|] eqn:E2.
  - exists s1, s2. split; [reflexivity|]. split; [exact E2|].
    destruct (updateApp_upsert 1 100 s1 3 "app" 1000 2 EmptyString EmptyString EmptyString
                s2 E2) as (H1 & _ & _ & H4).
    split; [exact H1|]. rewrite H4. vm_compute in E1. injection E1 as <-.
    vm_compute. reflexivity.
  - vm_compute in E1. injection E1 as <-. vm_compute in E2. discriminate.
Defined.

(** (C7, counterexample) A reinstall over a tombstone is announced as an upgrade. *)
Lemma updateApp_tombstone_counterexample :
  exists s1 s2 d,
    run_ops 1 100 10 example_reinstall_ops (initialUidMap 0) = Some s1 /\
    mMap s1 !! (1000, "app") = Some d /\ deleted d = true /\
    updateApp 1 100 s1 3 "app" 1000 2 EmptyString EmptyString EmptyString = Some s2 /\
    notifications s2 = notifications s1 ++ [NotifyAppUpgrade 3 "app" 1000 2].
Proof.
  destruct (run_ops 1 100 10 example_reinstall_ops (initialUidMap 0)) as [s1|] eqn:E1;
    vm_compute in E1; [injection E1 as <-|discriminate].
  eexists _, _, _.
  split; [reflexivity|]. split; [vm_compute; reflexivity|]. split; [reflexivity|].
  split; [vm_compute; reflexivity|]. vm_compute. reflexivity.
Qed.

(** (C8) From the initial map and for any run of operations, the byte
    count is K times the number of change records, lies between 0 and the
    limit, and the next operation of any kind completes; and the budget
    loop, run on a log whose byte count is K times its length, drops the
    fewest oldest records that bring the count within the limit. *)
Theorem uidmap_byte_budget (K kMax : Z) (kMaxDeleted : nat) (override : Z) :
  0 < K -> 0 <= kMax ->
  (forall ops s, run_ops K kMax kMaxDeleted ops (initialUidMap override) = Some s ->
     mBytesUsed s = K * Z.of_nat (length (mChanges s)) /\
     0 <= mBytesUsed s <= bytes_limit kMax s /\
     forall op, exists s', apply_op K kMax kMaxDeleted op s = Some s') /\
  (forall limit changes, 0 <= limit ->
     exists n, ensure_loop K limit (K * Z.of_nat (length changes)) changes =
                 Some (K * Z.of_nat (length (drop n changes)), drop n changes) /\
               K * Z.of_nat (length (drop n changes)) <= limit /\
               forall n', (n' < n)%nat -> limit < K * Z.of_nat (length (drop n' changes))).
Proof.
  intros HK HkMax. split.
  - intros ops s Hrun.
    assert (Hinv : budget_inv K kMax (initialUidMap override)).
    { unfold budget_inv. simpl. pose proof (bytes_limit_nonneg kMax HkMax (initialUidMap override)). lia. }
    revert Hinv Hrun. generalize (initialUidMap override) as s0.
    induction ops as [|op rest IH]; intros s0 Hinv Hrun; simpl in Hrun.
    + injection Hrun as <-. destruct Hinv as [Hb Hle]. split; [exact Hb|]. split; [exact Hle|].
      intros op. destruct (apply_op_budget K kMax kMaxDeleted HK HkMax op s0) as (s' & Hs' & _);
        [split; assumption|]. eauto.
    + destruct (apply_op_budget K kMax kMaxDeleted HK HkMax op s0 Hinv) as (s1 & Hs1 & Hinv1).
      rewrite Hs1 in Hrun. exact (IH s1 Hinv1 Hrun).
  - intros limit changes Hlim. apply ensure_loop_evicts; [exact Hlim | reflexivity].
Qed.

(** Three installs against a budget of two records. *)
Lemma uidmap_byte_budget_witness :
  (0 < 1 /\ 0 <= 2) /\
  exists s, run_ops 1 2 10 example_budget_ops (initialUidMap 0) = Some s /\
    mBytesUsed s = 1 * Z.of_nat (length (mChanges s)) /\ 0 <= mBytesUsed s <= bytes_limit 2 s.
Proof.
  split; [lia|].
  destruct (run_ops 1 2 10 example_budget_ops (initialUidMap 0)) as [s|] eqn:E.
  - exists s. split; [reflexivity|].
    destruct (proj1 (uidmap_byte_budget 1 2 10 0 ltac:(lia) ltac:(lia)) _ _ E) as (H1 & H2 & _).
    split; assumption.
  - vm_compute in E. discriminate.
Defined.

Lemma emit_loop_spec (marks : list (ConfigKey * Z)) (key : ConfigKey)
    (changes : list ChangeRecord) :
  emit_loop marks key changes =
    (match changes with [] => marks | _ :: _ => (mark_subscript marks key).1 end,
     List.filter (fun r => match mark_find marks key with Some v => v | None => 0 end
                           <? timestampNs r) changes).
Proof.
  revert marks. induction changes as [|r rest IH]; intros marks; [reflexivity|].
  cbn [emit_loop]. unfold mark_subscript at 1.
  destruct (mark_find marks key) as [v|] eqn:Hf; rewrite IH.
  - unfold mark_subscript. rewrite Hf. destruct rest; reflexivity.
  - unfold mark_subscript. rewrite Hf, mark_find_set, ConfigKey_eqb_refl.
    destruct rest; reflexivity.
Qed.

Lemma mark_find_subscript (marks : list (ConfigKey * Z)) (key k : ConfigKey) :
  k <> key -> mark_find (mark_subscript marks key).1 k = mark_find marks k.
Proof.
  intros Hk. unfold mark_subscript. destruct (mark_find marks key); [reflexivity|].
  simpl. rewrite mark_find_set.
  destruct (ConfigKey_eqb key k) eqn:E; [apply ConfigKey_eqb_spec in E; congruence|reflexivity].
Qed.

(** (C9, amended) [appendUidMap] emits exactly the change records
    whose timestamp is above the config's mark (0 when it has none), sets
    that mark to [timestamp] and leaves the other marks alone. When the
    change log is non-empty and the config has no mark, the emit loop's
    [mLastUpdatePerConfigKey[key]] first inserts a 0 mark for it. It prunes
    only when [getMinimumTimestampNs] of the marks after the emit loop is
    below [getMinimumTimestampNs] after the mark is set, and then removes
    exactly the records below the new minimum, K bytes each; otherwise the
    change log and the byte count are unchanged. *)
Theorem appendUidMap_spec (K : Z) (s : UidMapState) (timestamp : Z) (key : ConfigKey) :
  let mark := match mark_find (mLastUpdatePerConfigKey s) key with Some v => v | None => 0 end in
  let prevMin := getMinimumTimestampNs
                   (match mChanges s with
                    | [] => mLastUpdatePerConfigKey s
                    | _ :: _ => (mark_subscript (mLastUpdatePerConfigKey s) key).1
                    end) in
  let s' := (appendUidMap K s timestamp key).1 in
  let newMin := getMinimumTimestampNs (mLastUpdatePerConfigKey s') in
  out_changes (appendUidMap K s timestamp key).2 =
    List.filter (fun r => mark <? timestampNs r) (mChanges s) /\
  mark_find (mLastUpdatePerConfigKey s') key = Some timestamp /\
  (forall k, k <> key ->
     mark_find (mLastUpdatePerConfigKey s') k = mark_find (mLastUpdatePerConfigKey s) k) /\
  (if prevMin <? newMin
   then mChanges s' = List.filter (fun r => negb (timestampNs r <? newMin)) (mChanges s) /\
        mBytesUsed s' = mBytesUsed s - K * (Z.of_nat (length (mChanges s)) -
                                            Z.of_nat (length (mChanges s')))
   else mChanges s' = mChanges s /\ mBytesUsed s' = mBytesUsed s) /\
  mMap s' = mMap s.
Proof.
  cbv zeta. unfold appendUidMap. rewrite emit_loop_spec. cbv beta iota.
  set (marks1 := match mChanges s with
                 | [] => mLastUpdatePerConfigKey s
                 | _ :: _ => (mark_subscript (mLastUpdatePerConfigKey s) key).1 end).
  destruct (getMinimumTimestampNs marks1 <? getMinimumTimestampNs (mark_set marks1 key timestamp))
    eqn:Hlt; [rewrite prune_loop_spec|]; simpl.
  all: split; [reflexivity|].
  all: split; [rewrite mark_find_set, ConfigKey_eqb_refl; reflexivity|].
  all: split; [intros k Hk; rewrite mark_find_set;
               destruct (ConfigKey_eqb key k) eqn:E; [apply ConfigKey_eqb_spec in E; congruence|];
               subst marks1; destruct (mChanges s); [reflexivity|]; apply mark_find_subscript, Hk|].
  all: split; [|reflexivity].
  all: rewrite Hlt; split; reflexivity.
Qed.

(** (C9, counterexample) With configs A and B registered, a change at 5, A emitted
    at 10 and B then removed, A is the only registered config and has
    been emitted after the change, its mark 10 is the minimum, and the
    record at 5 is still in the change log. *)
Lemma highwater_pruning_counterexample :
  exists s,
    run_ops 1 100 10 example_pruning_ops (initialUidMap 0) = Some s /\
    map fst (mLastUpdatePerConfigKey s) = [example_config_a] /\
    getMinimumTimestampNs (mLastUpdatePerConfigKey s) = 10 /\
    exists r, In r (mChanges s) /\ timestampNs r = 5 /\
              timestampNs r < getMinimumTimestampNs (mLastUpdatePerConfigKey s).
Proof.
  destruct (run_ops 1 100 10 example_pruning_ops (initialUidMap 0)) as [s|] eqn:E;
    vm_compute in E; [injection E as <-|discriminate].
  eexists. split; [reflexivity|]. split; [reflexivity|]. split; [reflexivity|].
  eexists. split; [left; reflexivity|]. split; [reflexivity|]. vm_compute. reflexivity.
Qed.

Lemma names_from_uid_live (m : gmap (Z * string) AppData) (uid : Z) (x : string) :
  x ∈ map_fold (fun (k : Z * string) (d : AppData) (names : gset string) =>
                  if (k.1 =? uid) && negb (deleted d)
                  then {[ if false then normalizeAppName k.2 else k.2 ]} ∪ names
                  else names) ∅ m ->
  exists k d, m !! k = Some d /\ k.1 = uid /\ deleted d = false /\ k.2 = x.
Proof.
  revert x.
  apply (map_fold_weak_ind (fun (r : gset string) (m : gmap (Z * string) AppData) =>
           forall x, x ∈ r -> exists k d, m !! k = Some d /\ k.1 = uid /\ deleted d = false /\ k.2 = x)).
  - intros x Hx. set_solver.
  - intros i d m' r Hnone IH x Hx.
    destruct ((i.1 =? uid) && negb (deleted d)) eqn:Hc.
    + apply elem_of_union in Hx as [Hx|Hx].
      * apply elem_of_singleton in Hx. apply andb_true_iff in Hc as [Hu Hd].
        exists i, d. rewrite lookup_insert_eq. apply Z.eqb_eq in Hu. apply negb_true_iff in Hd.
        auto.
      * destruct (IH x Hx) as (k & d' & Hk & Hrest). exists k, d'.
        rewrite lookup_insert_ne by congruence. auto.
    + destruct (IH x Hx) as (k & d' & Hk & Hrest). exists k, d'.
      rewrite lookup_insert_ne by congruence. auto.
Qed.

Lemma uids_for_package_live (m : gmap (Z * string) AppData) (package : string) (x : Z) :
  x ∈ map_fold (fun (k : Z * string) (d : AppData) (results : gset Z) =>
                  if bool_decide (k.2 = package) && negb (deleted d)
                  then {[ k.1 ]} ∪ results
                  else results) ∅ m ->
  exists k d, m !! k = Some d /\ k.2 = package /\ deleted d = false /\ k.1 = x.
Proof.
  revert x.
  apply (map_fold_weak_ind (fun (r : gset Z) (m : gmap (Z * string) AppData) =>
           forall x, x ∈ r -> exists k d, m !! k = Some d /\ k.2 = package /\ deleted d = false /\ k.1 = x)).
  - intros x Hx. set_solver.
  - intros i d m' r Hnone IH x Hx.
    destruct (bool_decide (i.2 = package) && negb (deleted d)) eqn:Hc.
    + apply elem_of_union in Hx as [Hx|Hx].
      * apply elem_of_singleton in Hx. apply andb_true_iff in Hc as [Hp Hd].
        exists i, d. rewrite lookup_insert_eq. apply bool_decide_eq_true in Hp.
        apply negb_true_iff in Hd. auto.
      * destruct (IH x Hx) as (k & d' & Hk & Hrest). exists k, d'.
        rewrite lookup_insert_ne by congruence. auto.
    + destruct (IH x Hx) as (k & d' & Hk & Hrest). exists k, d'.
      rewrite lookup_insert_ne by congruence. auto.
Qed.

(** (C10) An entry whose deleted flag is set stays in the map but
    every lookup ignores it: [hasApp] is false, [getAppVersion] is 0, the
    package is not among the names of the uid, and the uid is not among
    the uids of the package. *)
Theorem tombstone_invisible (s : UidMapState) (uid : Z) (package : string) (d : AppData) :
  mMap s !! (uid, package) = Some d -> deleted d = true ->
  hasApp s uid package = false /\
  getAppVersion s uid package = 0 /\
  (package ∉ getAppNamesFromUidLocked s uid false) /\
  (uid ∉ getAppUid s package).
Proof.
  intros Hd Hdel.
  split; [unfold hasApp; rewrite Hd, Hdel; reflexivity|].
  split; [unfold getAppVersion; rewrite Hd, Hdel; reflexivity|].
  split.
  - intros Hin. apply names_from_uid_live in Hin as ([u p] & d' & Hk & Hu & Hd' & Hp).
    simpl in *. subst. rewrite Hd in Hk. injection Hk as <-. congruence.
  - intros Hin. apply uids_for_package_live in Hin as ([u p] & d' & Hk & Hp & Hd' & Hu).
    simpl in *. subst. rewrite Hd in Hk. injection Hk as <-. congruence.
Qed.

(** An install then its removal leaves a tombstone. *)
Lemma tombstone_invisible_witness :
  exists s d,
    run_ops 1 100 10 example_reinstall_ops (initialUidMap 0) = Some s /\
    mMap s !! (1000, "app") = Some d /\ deleted d = true /\
    hasApp s 1000 "app" = false /\ getAppVersion s 1000 "app" = 0 /\
    ("app"%string ∉ getAppNamesFromUidLocked s 1000 false) /\ (1000 ∉ getAppUid s "app").
Proof.
  destruct (run_ops 1 100 10 example_reinstall_ops (initialUidMap 0)) as [s|] eqn:E;
    [|vm_compute in E; discriminate].
  destruct (mMap s !! (1000, "app")) as [d|] eqn:Hd;
    [|vm_compute in E; injection E as <-; vm_compute in Hd; discriminate].
  assert (Hdel : deleted d = true).
  { vm_compute in E. injection E as <-. vm_compute in Hd. injection Hd as <-. reflexivity. }
  exists s, d. split; [reflexivity|]. split; [exact Hd|]. split; [exact Hdel|].
  exact (tombstone_invisible s 1000 "app" d Hd Hdel).
Defined.

End UidMapFacts.

Module StateTrackerExtra.
Import Matcher StateTracker.

Lemma update_flat_known (t : Tracker) time key n info :
  n <> kStateUnknown ->
  let t' := updateStateForPrimaryKey t time key n false info in
  atomId t' = atomId t /\ mListeners t' = mListeners t /\
  mStateMap t' = <[key := if n =? state info then info else mkStateValueInfo n 1]> (mStateMap t) /\
  notified t' = notified t ++
    (if n =? state info then [] else changes_for t time key (state info) n).
Proof.
  intros Hn. unfold updateStateForPrimaryKey. cbv zeta.
  apply Z.eqb_neq in Hn. rewrite Hn. cbn [negb].
  destruct (n =? state info); simpl; rewrite ?app_nil_r; auto.
Qed.

Lemma update_to_unknown (t : Tracker) time key nested info :
  let t' := updateStateForPrimaryKey t time key kStateUnknown nested info in
  atomId t' = atomId t /\ mListeners t' = mListeners t /\
  mStateMap t' = delete key (mStateMap t) /\
  notified t' = notified t ++
    (if state info =? kStateUnknown then [] else changes_for t time key (state info) kStateUnknown).
Proof.
  unfold updateStateForPrimaryKey. cbv zeta. rewrite Z.eqb_refl.
  destruct nested; cbn [negb]; rewrite ?(Z.eqb_sym kStateUnknown (state info));
    destruct (state info =? kStateUnknown); simpl; rewrite ?app_nil_r, delete_insert_eq; auto.
Qed.

(** (X1) A non-nested event with a known INT state v and no reset sets the
    key's state to v, leaves every other key alone, and notifies every
    listener of (old, v) exactly when the old state (unknown if absent)
    differs from v. *)
Theorem onLogEvent_exclusive_update (t : Tracker) (time : Z) (key : list Z) (v : Z) :
  v <> kStateUnknown ->
  let t' := onLogEvent t (mkStateEvent time key (Some (VInt v)) (-1) false) in
  getStateValue t' key = v /\
  (forall k, k <> key -> mStateMap t' !! k = mStateMap t !! k) /\
  notified t' = notified t ++
    (if v =? getStateValue t key then [] else changes_for t time key (getStateValue t key) v).
Proof.
  intros Hv. cbv zeta. unfold onLogEvent. cbn [ev_time ev_primaryKey ev_state ev_resetState ev_nested].
  rewrite Z.eqb_refl. cbn [negb].
  destruct (update_flat_known t time key v (default defaultStateValueInfo (mStateMap t !! key)) Hv)
    as (_ & _ & Hm & Hn).
  unfold getStateValue. rewrite Hm, Hn, lookup_insert_eq.
  split; [|split].
  - destruct (v =? state _) eqn:E; [apply Z.eqb_eq in E; auto|reflexivity].
  - intros k Hk. apply lookup_insert_ne. congruence.
  - destruct (mStateMap t !! key); reflexivity.
Qed.

(** (X2) An event whose state is missing, not an INT, or the INT -1
    (unknown), with no reset, erases the key from the map (the tracked
    state becomes unknown) and notifies every listener of (old, unknown)
    when the key had a known state; an absent key gives no notification. *)
Theorem onLogEvent_clear (t : Tracker) (time : Z) (key : list Z) (st : option Value)
    (nested : bool) :
  st = None \/ st = Some (VInt kStateUnknown) \/ (exists v, st = Some v /\ forall z, v <> VInt z) ->
  let t' := onLogEvent t (mkStateEvent time key st (-1) nested) in
  mStateMap t' = delete key (mStateMap t) /\
  notified t' = notified t ++
    match mStateMap t !! key with
    | Some info =>
        if state info =? kStateUnknown then [] else changes_for t time key (state info) kStateUnknown
    | None => []
    end.
Proof.
  intros Hst. cbv zeta.
  assert (Hclear : let t' := clearStateForPrimaryKey t time key in
    mStateMap t' = delete key (mStateMap t) /\
    notified t' = notified t ++
      match mStateMap t !! key with
      | Some info =>
          if state info =? kStateUnknown then [] else changes_for t time key (state info) kStateUnknown
      | None => []
      end).
  { cbv zeta. unfold clearStateForPrimaryKey. destruct (mStateMap t !! key) as [info|] eqn:Hk.
    - destruct (update_to_unknown t time key false info) as (_ & _ & Hm & Hn). auto.
    - rewrite delete_id by exact Hk. rewrite app_nil_r. auto. }
  destruct Hst as [->|[->|(v & -> & Hv)]].
  - exact Hclear.
  - unfold onLogEvent. cbn [ev_time ev_primaryKey ev_state ev_resetState ev_nested].
    rewrite Z.eqb_refl. cbn [negb].
    destruct (update_to_unknown t time key nested
                (default defaultStateValueInfo (mStateMap t !! key))) as (_ & _ & Hm & Hn).
    rewrite Hm, Hn. split; [reflexivity|].
    destruct (mStateMap t !! key); reflexivity.
  - destruct v as [z| | | |]; [exfalso; exact (Hv z eq_refl)|exact Hclear..].
Qed.

(** Every listener hears a known entry being cleared. *)
Lemma onLogEvent_clear_witness :
  (@None Value = None \/ @None Value = Some (VInt kStateUnknown) \/
   (exists v, @None Value = Some v /\ forall z, v <> VInt z)) /\
  mStateMap (onLogEvent (mkTracker 7 {[ [1] := mkStateValueInfo 2 1 ]} [0%nat] [])
               (mkStateEvent 5 [1] None (-1) false)) = ∅ /\
  notified (onLogEvent (mkTracker 7 {[ [1] := mkStateValueInfo 2 1 ]} [0%nat] [])
              (mkStateEvent 5 [1] None (-1) false)) =
    [mkStateChange 0 5 7 [1] 2 kStateUnknown].
Proof.
  split; [left; reflexivity|].
  destruct (onLogEvent_clear (mkTracker 7 {[ [1] := mkStateValueInfo 2 1 ]} [0%nat] [])
              5 [1] None false (or_introl eq_refl)) as [Hm Hn].
  rewrite Hm, Hn. split; [cbn [mStateMap]; rewrite delete_singleton; reflexivity|reflexivity].
Defined.

Lemma handleReset_fold (t : Tracker) (time r : Z) :
  r <> kStateUnknown ->
  forall m : gmap (list Z) StateValueInfo,
  let acc := map_fold (fun primaryKey info acc =>
               updateStateForPrimaryKey acc time primaryKey r false info) t m in
  mStateMap acc = (reset_entry r <$> m) ∪ mStateMap t /\
  atomId acc = atomId t /\ mListeners acc = mListeners t /\
  exists calls, notified acc = notified t ++ calls /\
    forall c, In c calls <-> exists k info, m !! k = Some info /\ state info <> r /\
                                 In c (changes_for t time k (state info) r).
Proof.
  intros Hr m. cbv zeta.
  apply (map_fold_weak_ind (fun (acc : Tracker) (m : gmap (list Z) StateValueInfo) =>
    mStateMap acc = (reset_entry r <$> m) ∪ mStateMap t /\
    atomId acc = atomId t /\ mListeners acc = mListeners t /\
    exists calls, notified acc = notified t ++ calls /\
      forall c, In c calls <-> exists k info, m !! k = Some info /\ state info <> r /\
                                   In c (changes_for t time k (state info) r))).
  - split; [rewrite fmap_empty, map_empty_union; reflexivity|].
    split; [reflexivity|]. split; [reflexivity|].
    exists []. split; [rewrite app_nil_r; reflexivity|].
    intros c. split; [intros []|]. intros (k & info & Hk & _). rewrite lookup_empty in Hk. discriminate.
  - intros i x m' acc Hnone (Hm & Ha & Hl & calls & Hn & Hc).
    destruct (update_flat_known acc time i r x Hr) as (Ha' & Hl' & Hm' & Hn').
    split; [rewrite Hm', Hm, fmap_insert, insert_union_l; unfold reset_entry;
            rewrite (Z.eqb_sym (state x) r); reflexivity|].
    split; [congruence|]. split; [congruence|].
    assert (Hch : forall k o, changes_for acc time k o r = changes_for t time k o r).
    { intros k o. unfold changes_for. rewrite Ha, Hl. reflexivity. }
    exists (calls ++ if r =? state x then [] else changes_for t time i (state x) r).
    split; [rewrite Hn', Hn, Hch, app_assoc; reflexivity|].
    intros c. rewrite in_app_iff, Hc. split.
    + intros [(k & info & Hk & Hs & Hin)|Hin].
      * exists k, info. rewrite lookup_insert_ne by congruence. auto.
      * destruct (Z.eqb_spec r (state x)) as [_|Hne]; [destruct Hin|].
        exists i, x. rewrite lookup_insert_eq. auto.
    + intros (k & info & Hk & Hs & Hin).
      destruct (decide (k = i)) as [->|Hki].
      * rewrite lookup_insert_eq in Hk. injection Hk as <-. right.
        rewrite (proj2 (Z.eqb_neq r (state x))) by congruence. exact Hin.
      * rewrite lookup_insert_ne in Hk by congruence. left. eauto.
Qed.

(** (X3) An INT state event carrying a reset state r (not -1) resets every
    tracked key: each entry takes state r with count 1 unless it already
    had state r, no key is added (the event's own key and state are
    ignored), and listeners are notified, for each key whose state
    differed from r, of (old, r), and of nothing else. *)
Theorem onLogEvent_reset (t : Tracker) (time : Z) (key : list Z) (v r : Z) (nested : bool) :
  r <> kStateUnknown ->
  let t' := onLogEvent t (mkStateEvent time key (Some (VInt v)) r nested) in
  (forall k, mStateMap t' !! k = reset_entry r <$> mStateMap t !! k) /\
  exists calls, notified t' = notified t ++ calls /\
    forall c, In c calls <-> exists k info, mStateMap t !! k = Some info /\ state info <> r /\
                                 In c (changes_for t time k (state info) r).
Proof.
  intros Hr. cbv zeta. unfold onLogEvent. cbn [ev_time ev_primaryKey ev_state ev_resetState ev_nested].
  rewrite (proj2 (Z.eqb_neq r (-1))) by exact Hr. cbn [negb]. unfold handleReset.
  destruct (handleReset_fold t time r Hr (mStateMap t)) as (Hm & _ & _ & Hcalls).
  split; [|exact Hcalls].
  intros k. rewrite Hm, lookup_union, lookup_fmap.
  destruct (mStateMap t !! k); reflexivity.
Qed.

(** Two keys, one already in the reset state. *)
Lemma onLogEvent_reset_witness :
  (2 : Z) <> kStateUnknown /\
  mStateMap (onLogEvent (mkTracker 7 {[ [1] := mkStateValueInfo 1 3; [2] := mkStateValueInfo 2 1 ]}
                         [0%nat] []) (mkStateEvent 5 [3] (Some (VInt 1)) 2 false)) !! [1] =
    Some (mkStateValueInfo 2 1).
Proof.
  split; [unfold kStateUnknown; lia|].
  destruct (onLogEvent_reset (mkTracker 7 {[ [1] := mkStateValueInfo 1 3; [2] := mkStateValueInfo 2 1 ]}
                         [0%nat] []) 5 [3] 1 2 false ltac:(unfold kStateUnknown; lia)) as [Hm _].
  rewrite Hm. reflexivity.
Defined.


(** A key moving from state 2 to state 3. *)
Lemma onLogEvent_exclusive_update_witness :
  (3 : Z) <> kStateUnknown /\
  getStateValue (onLogEvent (mkTracker 7 {[ [1] := mkStateValueInfo 2 1 ]} [0%nat] [])
                   (mkStateEvent 5 [1] (Some (VInt 3)) (-1) false)) [1] = 3 /\
  notified (onLogEvent (mkTracker 7 {[ [1] := mkStateValueInfo 2 1 ]} [0%nat] [])
              (mkStateEvent 5 [1] (Some (VInt 3)) (-1) false)) = [mkStateChange 0 5 7 [1] 2 3].
Proof.
  assert (H3 : (3 : Z) <> kStateUnknown) by (unfold kStateUnknown; lia).
  split; [exact H3|].
  destruct (onLogEvent_exclusive_update (mkTracker 7 {[ [1] := mkStateValueInfo 2 1 ]} [0%nat] [])
              5 [1] 3 H3) as (Hv & _ & Hn).
  split; [exact Hv|]. rewrite Hn. reflexivity.
Defined.

Ltac eqb_to_prop :=
  repeat match goal with
  | H : (_ =? _) = true |- _ => apply Z.eqb_eq in H
  | H : (_ =? _) = false |- _ => apply Z.eqb_neq in H
  end.

Lemma update_entry_wf (t : Tracker) time key n nested info :
  n <> kStateUnknown -> state info = kStateUnknown \/ 0 < count info ->
  exists info', mStateMap (updateStateForPrimaryKey t time key n nested info) =
                <[key := info']> (mStateMap t) /\
                state info' <> kStateUnknown /\ 0 < count info'.
Proof.
  intros Hn Hi. unfold updateStateForPrimaryKey. cbv zeta.
  rewrite (proj2 (Z.eqb_neq n kStateUnknown) Hn).
  destruct nested; cbn [negb];
    repeat match goal with
    | |- context [if ?b then _ else _] => let E := fresh "E" in destruct b eqn:E
    end; cbn; eexists; (split; [reflexivity|]); cbn; eqb_to_prop;
    unfold kStateUnknown in *; lia.
Qed.

Lemma clear_wf (t : Tracker) time key :
  well_formed t -> well_formed (clearStateForPrimaryKey t time key).
Proof.
  intros Hwf. unfold clearStateForPrimaryKey. destruct (mStateMap t !! key) as [info|]; [|exact Hwf].
  destruct (update_to_unknown t time key false info) as (_ & _ & Hm & _).
  unfold well_formed. rewrite Hm. apply map_Forall_delete. exact Hwf.
Qed.

Lemma wf_getStateValue (t : Tracker) (k : list Z) :
  well_formed t -> getStateValue t k = kStateUnknown <-> mStateMap t !! k = None.
Proof.
  intros Hwf. unfold getStateValue. destruct (mStateMap t !! k) as [info|] eqn:Hk.
  - split; [|discriminate]. intros Hs. exfalso.
    exact (proj1 (map_Forall_lookup_1 _ _ _ _ Hwf Hk) Hs).
  - tauto.
Qed.

(** (X4) The tracker's map only ever holds known states with a positive
    count: every event preserves this, so for a tracker built by events the
    queried state is unknown (-1) exactly when the key is absent. *)
Theorem onLogEvent_well_formed (t : Tracker) (event : StateEvent) :
  well_formed t ->
  well_formed (onLogEvent t event) /\
  forall k, getStateValue (onLogEvent t event) k = kStateUnknown <->
            mStateMap (onLogEvent t event) !! k = None.
Proof.
  intros Hwf.
  assert (Hwf' : well_formed (onLogEvent t event)).
  { destruct event as [time key st r nested]. unfold onLogEvent.
    cbn [ev_time ev_primaryKey ev_state ev_resetState ev_nested].
    destruct st as [[v| | | |]|]; try (apply clear_wf; exact Hwf).
    destruct (negb (r =? -1)) eqn:Hr.
    - apply negb_true_iff, Z.eqb_neq in Hr. unfold handleReset.
      destruct (handleReset_fold t time r Hr (mStateMap t)) as (Hm & _).
      unfold well_formed. rewrite Hm. apply map_Forall_lookup_2. intros k x Hx.
      rewrite lookup_union, lookup_fmap in Hx.
      destruct (mStateMap t !! k) as [info|] eqn:Hk; cbn in Hx.
      + injection Hx as <-. unfold reset_entry.
        destruct (state info =? r); [exact (map_Forall_lookup_1 _ _ _ _ Hwf Hk)|].
        cbn. split; [exact Hr|lia].
      + discriminate.
    - destruct (Z.eqb_spec v kStateUnknown) as [->|Hv].
      + destruct (update_to_unknown t time key nested
                    (default defaultStateValueInfo (mStateMap t !! key))) as (_ & _ & Hm & _).
        unfold well_formed. rewrite Hm. apply map_Forall_delete. exact Hwf.
      + destruct (update_entry_wf t time key v nested
                    (default defaultStateValueInfo (mStateMap t !! key)) Hv) as (info' & Hm & Hs & Hc).
        { destruct (mStateMap t !! key) as [info|] eqn:Hk; [right|left; reflexivity].
          exact (proj2 (map_Forall_lookup_1 _ _ _ _ Hwf Hk)). }
        unfold well_formed. rewrite Hm. apply map_Forall_insert_2; [split; assumption|exact Hwf]. }
  split; [exact Hwf'|]. intros k. apply wf_getStateValue. exact Hwf'.
Qed.

(** A nested event on a tracked key. *)
Lemma onLogEvent_well_formed_witness :
  well_formed (mkTracker 7 {[ [1] := mkStateValueInfo 2 1 ]} [0%nat] []) /\
  well_formed (onLogEvent (mkTracker 7 {[ [1] := mkStateValueInfo 2 1 ]} [0%nat] [])
                 (mkStateEvent 5 [1] (Some (VInt 3)) (-1) true)).
Proof.
  assert (H : well_formed (mkTracker 7 {[ [1] := mkStateValueInfo 2 1 ]} [0%nat] [])).
  { unfold well_formed. cbn [mStateMap]. apply map_Forall_singleton. cbn.
    unfold kStateUnknown. split; lia. }
  split; [exact H|].
  exact (proj1 (onLogEvent_well_formed _ (mkStateEvent 5 [1] (Some (VInt 3)) (-1) true) H)).
Defined.


Lemma listener_set_insert_In (l x : nat) (ls : list nat) :
  In x (listener_set_insert l ls) <-> In x (l :: ls).
Proof.
  induction ls as [|y rest IH]; [reflexivity|]. cbn [listener_set_insert].
  destruct (Nat.eqb_spec y l) as [->|Hne]; [cbn; tauto|].
  destruct (Nat.ltb l y); [reflexivity|]. cbn [In]. rewrite IH. cbn [In]. tauto.
Qed.

Lemma listener_set_insert_sorted (l : nat) (ls : list nat) :
  StronglySorted Nat.lt ls -> StronglySorted Nat.lt (listener_set_insert l ls).
Proof.
  induction ls as [|y rest IH]; intros Hs; cbn [listener_set_insert].
  - constructor; constructor.
  - apply StronglySorted_inv in Hs as [Hrest Hall].
    destruct (Nat.eqb_spec y l) as [->|Hne]; [constructor; assumption|].
    destruct (Nat.ltb_spec l y) as [Hlt|Hge].
    + constructor; [constructor; assumption|].
      constructor; [exact Hlt|]. rewrite List.Forall_forall in Hall |- *.
      intros z Hz. specialize (Hall z Hz). lia.
    + constructor; [apply IH; exact Hrest|]. rewrite List.Forall_forall in Hall |- *.
      intros z Hz. apply listener_set_insert_In in Hz as [<-|Hz]; [lia|exact (Hall z Hz)].
Qed.

Lemma listener_set_insert_present (l : nat) (ls : list nat) :
  StronglySorted Nat.lt ls -> In l ls -> listener_set_insert l ls = ls.
Proof.
  induction ls as [|y rest IH]; intros Hs Hin; [destruct Hin|]. cbn [listener_set_insert].
  apply StronglySorted_inv in Hs as [Hrest Hall].
  destruct (Nat.eqb_spec y l) as [->|Hne]; [reflexivity|].
  destruct Hin as [->|Hin]; [congruence|].
  rewrite List.Forall_forall in Hall. specialize (Hall l Hin).
  destruct (Nat.ltb_spec l y) as [Hlt|_]; [lia|]. rewrite IH by assumption. reflexivity.
Qed.

Lemma filter_eqb_above (l : nat) (ls : list nat) :
  Forall (Nat.lt l) ls -> List.filter (fun x => Nat.eqb x l) ls = [].
Proof.
  induction 1 as [|y rest Hy _ IH]; [reflexivity|]. cbn.
  rewrite (proj2 (Nat.eqb_neq y l)) by lia. exact IH.
Qed.

Lemma sorted_count_one (l : nat) (ls : list nat) :
  StronglySorted Nat.lt ls -> In l ls -> length (List.filter (fun x => Nat.eqb x l) ls) = 1%nat.
Proof.
  induction ls as [|y rest IH]; intros Hs Hin; [destruct Hin|]. cbn [List.filter].
  apply StronglySorted_inv in Hs as [Hrest Hall].
  destruct (Nat.eqb_spec y l) as [->|Hne].
  - cbn [length]. rewrite filter_eqb_above by exact Hall. reflexivity.
  - destruct Hin as [->|Hin]; [congruence|]. apply IH; assumption.
Qed.

Lemma filter_eqb_removed (l : nat) (ls : list nat) :
  List.filter (fun x => Nat.eqb x l) (List.filter (fun x => negb (Nat.eqb x l)) ls) = [].
Proof.
  induction ls as [|y rest IH]; [reflexivity|]. cbn [List.filter].
  destruct (Nat.eqb y l) eqn:E; cbn [negb List.filter]; [exact IH|]. rewrite E. exact IH.
Qed.

Lemma changes_for_listener (t : Tracker) time key o n (l : nat) :
  List.filter (fun c => Nat.eqb (sc_listener c) l) (changes_for t time key o n) =
  map (fun l => mkStateChange l time (atomId t) key o n)
      (List.filter (fun x => Nat.eqb x l) (mListeners t)).
Proof.
  unfold changes_for. induction (mListeners t) as [|y rest IH]; [reflexivity|]. cbn.
  destruct (Nat.eqb y l); cbn; rewrite IH; reflexivity.
Qed.

(** (X5) Listeners form an ordered set: registering a listener adds it once
    (registering it again changes nothing), so each state change notifies
    it exactly once; after it is unregistered it receives no notification. *)
Theorem register_unregister_listener (t : Tracker) (l : nat) :
  StronglySorted Nat.lt (mListeners t) ->
  let t1 := registerListener t l in
  StronglySorted Nat.lt (mListeners t1) /\
  (forall x, In x (mListeners t1) <-> In x (l :: mListeners t)) /\
  registerListener t1 l = t1 /\
  (forall time key o n,
     length (List.filter (fun c => Nat.eqb (sc_listener c) l) (changes_for t1 time key o n)) = 1%nat) /\
  (forall time key o n,
     List.filter (fun c => Nat.eqb (sc_listener c) l)
       (changes_for (unregisterListener t1 l) time key o n) = []).
Proof.
  intros Hs. cbv zeta.
  assert (Hs1 : StronglySorted Nat.lt (mListeners (registerListener t l))).
  { apply listener_set_insert_sorted. exact Hs. }
  assert (Hin1 : forall x, In x (mListeners (registerListener t l)) <-> In x (l :: mListeners t)).
  { intros x. apply listener_set_insert_In. }
  split; [exact Hs1|]. split; [exact Hin1|]. split; [|split].
  - unfold registerListener at 1. cbn [atomId mStateMap mListeners notified].
    rewrite (listener_set_insert_present l) by (try exact Hs1; apply Hin1; left; reflexivity).
    destruct (registerListener t l); reflexivity.
  - intros time key o n. rewrite changes_for_listener, length_map.
    apply sorted_count_one; [exact Hs1|apply Hin1; left; reflexivity].
  - intros time key o n. rewrite changes_for_listener. cbn [mListeners unregisterListener].
    rewrite filter_eqb_removed. reflexivity.
Qed.

(** Registering listener 1 beside 0 and 2. *)
Lemma register_unregister_listener_witness :
  StronglySorted Nat.lt (mListeners (mkTracker 7 ∅ [0%nat; 2%nat] [])) /\
  mListeners (registerListener (mkTracker 7 ∅ [0%nat; 2%nat] []) 1) = [0%nat; 1%nat; 2%nat].
Proof.
  assert (H : StronglySorted Nat.lt (mListeners (mkTracker 7 ∅ [0%nat; 2%nat] []))).
  { cbn. repeat constructor; lia. }
  split; [exact H|].
  destruct (register_unregister_listener _ 1 H) as (_ & _ & Hre & _).
  rewrite <- Hre. reflexivity.
Defined.

End StateTrackerExtra.

Module MatcherExtra.
Import Matcher.

Lemma start_end_loop_spec (target : Z) (depth : nat) (values : list FieldValue) (start end_ : nat) :
  (forall i j, (start <= i)%nat -> (i <= j)%nat -> (j < end_)%nat ->
               pos_at values depth i <= pos_at values depth j) ->
  forall k i ns ne, (i + k = end_)%nat -> (start <= i)%nat ->
  (forall j, (start <= j < i)%nat -> pos_at values depth j <= target) ->
  match ns with
  | None => ne = end_ /\ forall j, (start <= j < i)%nat -> pos_at values depth j <> target
  | Some s => (start <= s < i)%nat /\ ne = i /\
              forall j, (start <= j < i)%nat -> (pos_at values depth j = target <-> (s <= j)%nat)
  end ->
  match start_end_loop target depth values i k ns ne with
  | (None, e) => e = end_ /\ forall j, (start <= j < end_)%nat -> pos_at values depth j <> target
  | (Some s, e) => (start <= s < e)%nat /\ (e <= end_)%nat /\
      forall j, (start <= j < end_)%nat -> (pos_at values depth j = target <-> (s <= j < e)%nat)
  end.
Proof.
  intros Hsorted k. induction k as [|k IH]; intros i ns ne Hk Hi Hle Hinv; cbn [start_end_loop].
  - rewrite Nat.add_0_r in Hk. subst i. destruct ns as [s|].
    + destruct Hinv as (Hs & -> & Hiff). split; [lia|]. split; [lia|].
      intros j Hj. rewrite Hiff by lia. lia.
    + exact Hinv.
  - destruct (Z.eqb_spec (pos_at values depth i) target) as [Heq|Hne].
    + apply IH; [lia|lia| |].
      * intros j Hj. destruct (Nat.eq_dec j i) as [->|]; [lia|]. apply Hle. lia.
      * destruct ns as [s|].
        -- destruct Hinv as (Hs & _ & Hiff). split; [lia|]. split; [reflexivity|].
           intros j Hj. destruct (Nat.eq_dec j i) as [->|Hji]; [split; [lia|auto]|].
           apply Hiff. lia.
        -- destruct Hinv as (_ & Hnone). split; [lia|]. split; [reflexivity|].
           intros j Hj. destruct (Nat.eq_dec j i) as [->|Hji]; [split; [lia|auto]|].
           split; [intros Hp; exfalso; exact (Hnone j ltac:(lia) Hp)|lia].
    + destruct (Z.ltb_spec target (pos_at values depth i)) as [Hgt|Hlt].
      * assert (Hafter : forall j, (i <= j < end_)%nat -> pos_at values depth j <> target).
        { intros j Hj. specialize (Hsorted i j ltac:(lia) ltac:(lia) ltac:(lia)). lia. }
        destruct ns as [s|].
        -- destruct Hinv as (Hs & -> & Hiff). split; [lia|]. split; [lia|].
           intros j Hj. destruct (Nat.lt_ge_cases j i) as [Hji|Hji].
           ++ rewrite Hiff by lia. lia.
           ++ split; [intros Hp; exfalso; exact (Hafter j ltac:(lia) Hp)|lia].
        -- destruct Hinv as (-> & Hnone). split; [reflexivity|].
           intros j Hj. destruct (Nat.lt_ge_cases j i) as [Hji|Hji]; [apply Hnone; lia|].
           apply Hafter. lia.
      * apply IH; [lia|lia| |].
        -- intros j Hj. destruct (Nat.eq_dec j i) as [->|]; [lia|]. apply Hle. lia.
        -- destruct ns as [s|].
           ++ exfalso. destruct Hinv as (Hs & _ & Hiff).
              assert (Hps : pos_at values depth s = target) by (apply Hiff; lia).
              specialize (Hsorted s i ltac:(lia) ltac:(lia) ltac:(lia)). lia.
           ++ destruct Hinv as (-> & Hnone). split; [reflexivity|].
              intros j Hj. destruct (Nat.eq_dec j i) as [->|]; [exact Hne|]. apply Hnone. lia.
Qed.

(** (X6) Over a range whose positions at [depth] are sorted (the DFS order
    of the event's fields), [getStartEndAtDepth] returns the exact
    sub-range of the entries whose position is the target field: no start
    (-1) and the old end when no entry has it, otherwise [start, end) with
    the target position at exactly the indices in it. *)
Theorem getStartEndAtDepth_range (target : Z) (start end_ depth : nat) (values : list FieldValue) :
  (forall i j, (start <= i)%nat -> (i <= j)%nat -> (j < end_)%nat ->
               pos_at values depth i <= pos_at values depth j) ->
  match getStartEndAtDepth target start end_ depth values with
  | (None, e) => e = end_ /\ forall j, (start <= j < end_)%nat -> pos_at values depth j <> target
  | (Some s, e) => (start <= s < e)%nat /\ (e <= end_)%nat /\
      forall j, (start <= j < end_)%nat -> (pos_at values depth j = target <-> (s <= j < e)%nat)
  end.
Proof.
  intros Hsorted. unfold getStartEndAtDepth.
  destruct (Nat.le_gt_cases start end_) as [Hse|Hse].
  - apply (start_end_loop_spec target depth values start end_ Hsorted); [lia|lia| |].
    + intros j Hj. lia.
    + split; [reflexivity|]. intros j Hj. lia.
  - replace (end_ - start)%nat with 0%nat by lia. cbn. split; [reflexivity|]. intros j Hj. lia.
Qed.

(** Positions 1, 2, 2, 3: field 2 is found at [1, 3). *)
Lemma getStartEndAtDepth_range_witness :
  (forall i j, (0 <= i)%nat -> (i <= j)%nat -> (j < 4)%nat ->
     pos_at (map fv_at [1; 2; 2; 3]) 0 i <= pos_at (map fv_at [1; 2; 2; 3]) 0 j) /\
  getStartEndAtDepth 2 0 4 0 (map fv_at [1; 2; 2; 3]) = (Some 1%nat, 3%nat) /\
  (forall j, (0 <= j < 4)%nat -> (pos_at (map fv_at [1; 2; 2; 3]) 0 j = 2 <-> (1 <= j < 3)%nat)).
Proof.
  assert (H : forall i j, (0 <= i)%nat -> (i <= j)%nat -> (j < 4)%nat ->
     pos_at (map fv_at [1; 2; 2; 3]) 0 i <= pos_at (map fv_at [1; 2; 2; 3]) 0 j).
  { intros i j _ Hij Hj.
    assert (Hj' : (j = 0 \/ j = 1 \/ j = 2 \/ j = 3)%nat) by lia.
    destruct Hj' as [ -> | [ -> | [ -> | -> ]]]; destruct i as [|[|[|[|i]]]];
      try lia; unfold pos_at, value_at, getPosAtDepth; cbn; lia. }
  split; [exact H|]. split; [reflexivity|].
  exact (proj2 (proj2 (getStartEndAtDepth_range 2 0 4 0 (map fv_at [1; 2; 2; 3]) H))).
Defined.


Lemma start_end_loop_some (target : Z) (depth : nat) (values : list FieldValue) (start end_ : nat) :
  forall k i ns ne, (i + k = end_)%nat -> (start <= i)%nat ->
  match ns with None => ne = end_ | Some s => (start <= s < ne)%nat /\ (ne <= i)%nat end ->
  forall s e, start_end_loop target depth values i k ns ne = (Some s, e) ->
  (start <= s < e)%nat /\ (e <= end_)%nat.
Proof.
  intros k. induction k as [|k IH]; intros i ns ne Hk Hi Hinv s e; cbn [start_end_loop].
  - intros Heq. injection Heq as -> ->. lia.
  - destruct (pos_at values depth i =? target).
    + apply IH; [lia|lia|]. destruct ns; lia.
    + destruct (target <? pos_at values depth i).
      * intros Heq. injection Heq as -> ->. lia.
      * apply IH; [lia|lia|]. destruct ns; lia.
Qed.

Lemma getStartEndAtDepth_some (target : Z) (start end_ depth : nat) (values : list FieldValue) s e :
  getStartEndAtDepth target start end_ depth values = (Some s, e) ->
  (start <= s < e)%nat /\ (e <= end_)%nat.
Proof.
  unfold getStartEndAtDepth. destruct (Nat.le_gt_cases start end_) as [Hse|Hse].
  - apply (start_end_loop_some target depth values start end_); [lia|lia|reflexivity].
  - replace (end_ - start)%nat with 0%nat by lia. discriminate.
Qed.

Lemma first_loop_spec (values : list FieldValue) (depth : nat) :
  forall k i end_, (i + k = end_)%nat ->
  let r := first_loop values depth i k end_ in
  (i <= r <= end_)%nat /\ (forall j, (i <= j < r)%nat -> pos_at values depth j = 1) /\
  ((r < end_)%nat -> pos_at values depth r <> 1).
Proof.
  intros k. induction k as [|k IH]; intros i end_ Hk; cbv zeta; cbn [first_loop].
  - split; [lia|]. split; [intros j Hj; lia|lia].
  - destruct (Z.eqb_spec (pos_at values depth i) 1) as [H1|H1]; cbn [negb].
    + destruct (IH (S i) end_ ltac:(lia)) as (Hr & Hall & Hlast).
      split; [lia|]. split; [|exact Hlast].
      intros j Hj. destruct (Nat.eq_dec j i) as [->|]; [exact H1|]. apply Hall. lia.
    + split; [lia|]. split; [intros j Hj; lia|]. intros _. exact H1.
Qed.

Lemma last_loop_spec (values : list FieldValue) (depth : nat) (start : nat) :
  forall k i,
  let r := last_loop values depth i k start in
  ((i <= r < i + k)%nat /\ isLastPos (mField (value_at values r)) depth = true /\
     forall j, (i <= j < r)%nat -> isLastPos (mField (value_at values j)) depth = false) \/
  (r = start /\ forall j, (i <= j < i + k)%nat -> isLastPos (mField (value_at values j)) depth = false).
Proof.
  intros k. induction k as [|k IH]; intros i; cbv zeta; cbn [last_loop].
  - right. split; [reflexivity|]. intros j Hj. lia.
  - destruct (isLastPos (mField (value_at values i)) depth) eqn:Hl.
    + left. split; [lia|]. split; [exact Hl|]. intros j Hj. lia.
    + destruct (IH (S i)) as [(Hr & Hlr & Hall)|(Hr & Hall)].
      * left. split; [lia|]. split; [exact Hlr|].
        intros j Hj. destruct (Nat.eq_dec j i) as [->|]; [exact Hl|]. apply Hall. lia.
      * right. split; [exact Hr|].
        intros j Hj. destruct (Nat.eq_dec j i) as [->|]; [exact Hl|]. apply Hall. lia.
Qed.

(** (X7) With position FIRST, [computeRanges] keeps, within the sub-range
    [s, e) of the field, the leading entries whose position one level deeper
    is 1: the range is [s, e') where every entry of [s, e') is at position 1
    and the entry at e' (if e' < e) is not; the depth goes one level down. *)
Theorem computeRanges_first (field : Z) (vm : ValueMatcher) (values : list FieldValue)
    (start end_ depth s e : nat) :
  (depth < 2)%nat ->
  getStartEndAtDepth field start end_ depth values = (Some s, e) ->
  exists e', computeRanges (FVM field (Some FIRST) vm) values start end_ depth = ([(s, e')], S depth) /\
    (s <= e' <= e)%nat /\
    (forall j, (s <= j < e')%nat -> pos_at values (S depth) j = 1) /\
    ((e' < e)%nat -> pos_at values (S depth) e' <> 1).
Proof.
  intros Hd Hse. pose proof (getStartEndAtDepth_some _ _ _ _ _ _ _ Hse) as Hb.
  unfold computeRanges. rewrite Hse. rewrite (proj2 (Nat.ltb_ge 2 (S depth))) by lia.
  destruct (first_loop_spec values (S depth) (e - s) s e ltac:(lia)) as (Hr & Hall & Hlast).
  eexists. split; [reflexivity|]. split; [exact Hr|]. split; [exact Hall|exact Hlast].
Qed.

(** (X8) With position LAST, [computeRanges] moves the start of the field's
    sub-range [s, e) to its first entry flagged last at the next depth, and
    leaves it at s when no entry is flagged; the end stays e. *)
Theorem computeRanges_last (field : Z) (vm : ValueMatcher) (values : list FieldValue)
    (start end_ depth s e : nat) :
  (depth < 2)%nat ->
  getStartEndAtDepth field start end_ depth values = (Some s, e) ->
  exists s', computeRanges (FVM field (Some LAST) vm) values start end_ depth = ([(s', e)], S depth) /\
    (((s <= s' < e)%nat /\ isLastPos (mField (value_at values s')) (S depth) = true /\
      forall j, (s <= j < s')%nat -> isLastPos (mField (value_at values j)) (S depth) = false) \/
     (s' = s /\ forall j, (s <= j < e)%nat -> isLastPos (mField (value_at values j)) (S depth) = false)).
Proof.
  intros Hd Hse. pose proof (getStartEndAtDepth_some _ _ _ _ _ _ _ Hse) as Hb.
  unfold computeRanges. rewrite Hse. rewrite (proj2 (Nat.ltb_ge 2 (S depth))) by lia.
  eexists. split; [reflexivity|].
  pose proof (last_loop_spec values (S depth) s (e - s) s) as Hl. cbv zeta in Hl.
  replace (s + (e - s))%nat with e in Hl by lia. exact Hl.
Qed.

Lemma any_loop_spec (values : list FieldValue) (depth : nat) :
  forall k i start cur,
  pos_at values depth start = cur -> (start <= i)%nat ->
  (forall j, (start <= j < i)%nat -> pos_at values depth j = cur) ->
  (start < i + k)%nat ->
  runs_chain values depth start
    ((any_loop values depth i k start cur).1 ++ [((any_loop values depth i k start cur).2, (i + k)%nat)])
    (i + k).
Proof.
  intros k. induction k as [|k IH]; intros i start cur Hcur Hi Hall Hk; cbn [any_loop].
  - cbn. rewrite Nat.add_0_r in *. split; [reflexivity|]. split; [lia|].
    split; [intros j Hj; rewrite Hall by lia; auto|]. split; [lia|reflexivity].
  - destruct (Z.eqb_spec (pos_at values depth i) cur) as [Heq|Hne]; cbn [negb].
    + replace (i + S k)%nat with (S i + k)%nat by lia.
      apply IH; [exact Hcur|lia| |lia].
      intros j Hj. destruct (Nat.eq_dec j i) as [->|]; [exact Heq|]. apply Hall. lia.
    + destruct (any_loop values depth (S i) k i (pos_at values depth i)) as [rs st] eqn:Hrec.
      cbn. assert (Hsi : start <> i) by (intros ->; congruence).
      split; [reflexivity|]. split; [lia|].
      split; [intros j Hj; rewrite Hall by lia; auto|].
      split; [intros _; congruence|].
      replace (i + S k)%nat with (S i + k)%nat by lia.
      pose proof (IH (S i) i (pos_at values depth i) eq_refl ltac:(lia)) as Hih.
      rewrite Hrec in Hih. apply Hih; [|lia].
      intros j Hj. replace j with i by lia. reflexivity.
Qed.

(** (X9) With position ANY and a tuple matcher, [computeRanges] cuts the
    field's sub-range [s, e) into its maximal runs of entries sharing one
    position at the next depth: consecutive, non-empty ranges covering
    [s, e), neighbours holding different positions. *)
Theorem computeRanges_any_runs (field : Z) (subs : list FieldValueMatcher) (values : list FieldValue)
    (start end_ depth s e : nat) :
  (depth < 2)%nat ->
  getStartEndAtDepth field start end_ depth values = (Some s, e) ->
  (computeRanges (FVM field (Some ANY) (MatchesTuple subs)) values start end_ depth).2 = S depth /\
  runs_chain values (S depth) s (computeRanges (FVM field (Some ANY) (MatchesTuple subs)) values start end_ depth).1 e.
Proof.
  intros Hd Hse. pose proof (getStartEndAtDepth_some _ _ _ _ _ _ _ Hse) as Hb.
  unfold computeRanges. rewrite Hse. rewrite (proj2 (Nat.ltb_ge 2 (S depth))) by lia.
  cbn [is_matches_tuple].
  pose proof (any_loop_spec values (S depth) (e - s) s s (pos_at values (S depth) s) eq_refl
                ltac:(lia) ltac:(intros j Hj; lia) ltac:(lia)) as Hc.
  replace (s + (e - s))%nat with e in Hc by lia.
  destruct (any_loop values (S depth) s (e - s) s (pos_at values (S depth) s)) as [rs st].
  split; [reflexivity|exact Hc].
Qed.


(** Field 1 covers [0, 3); positions 1, 1, 2 below it. *)
Lemma computeRanges_first_witness :
  (0 < 2)%nat /\ getStartEndAtDepth 1 0 4 0 example_tuple_values = (Some 0%nat, 3%nat) /\
  exists e', computeRanges (FVM 1 (Some FIRST) (EqInt 0)) example_tuple_values 0 4 0 = ([(0%nat, e')], 1%nat) /\
    (0 <= e' <= 3)%nat /\
    (forall j, (0 <= j < e')%nat -> pos_at example_tuple_values 1 j = 1) /\
    ((e' < 3)%nat -> pos_at example_tuple_values 1 e' <> 1).
Proof.
  split; [lia|]. split; [reflexivity|].
  exact (computeRanges_first 1 (EqInt 0) example_tuple_values 0 4 0 0 3 ltac:(lia) eq_refl).
Defined.

Lemma computeRanges_last_witness :
  (0 < 2)%nat /\ getStartEndAtDepth 1 0 4 0 example_tuple_values = (Some 0%nat, 3%nat) /\
  exists s', computeRanges (FVM 1 (Some LAST) (EqInt 0)) example_tuple_values 0 4 0 = ([(s', 3%nat)], 1%nat) /\
    (((0 <= s' < 3)%nat /\ isLastPos (mField (value_at example_tuple_values s')) 1 = true /\
      forall j, (0 <= j < s')%nat -> isLastPos (mField (value_at example_tuple_values j)) 1 = false) \/
     (s' = 0%nat /\ forall j, (0 <= j < 3)%nat -> isLastPos (mField (value_at example_tuple_values j)) 1 = false)).
Proof.
  split; [lia|]. split; [reflexivity|].
  exact (computeRanges_last 1 (EqInt 0) example_tuple_values 0 4 0 0 3 ltac:(lia) eq_refl).
Defined.

Lemma computeRanges_any_runs_witness :
  (0 < 2)%nat /\ getStartEndAtDepth 1 0 4 0 example_tuple_values = (Some 0%nat, 3%nat) /\
  (computeRanges (FVM 1 (Some ANY) (MatchesTuple [])) example_tuple_values 0 4 0).1 =
    [(0%nat, 2%nat); (2%nat, 3%nat)] /\
  runs_chain example_tuple_values 1 0
    (computeRanges (FVM 1 (Some ANY) (MatchesTuple [])) example_tuple_values 0 4 0).1 3.
Proof.
  split; [lia|]. split; [reflexivity|]. split; [reflexivity|].
  exact (proj2 (computeRanges_any_runs 1 [] example_tuple_values 0 4 0 0 3 ltac:(lia) eq_refl)).
Defined.


Lemma start_end_loop_none (target : Z) (depth : nat) (values : list FieldValue) :
  forall k i ne, (forall j, (i <= j < i + k)%nat -> pos_at values depth j <> target) ->
  start_end_loop target depth values i k None ne = (None, ne).
Proof.
  intros k. induction k as [|k IH]; intros i ne Hno; cbn [start_end_loop]; [reflexivity|].
  rewrite (proj2 (Z.eqb_neq _ _) (Hno i ltac:(lia))).
  destruct (target <? pos_at values depth i); [reflexivity|].
  apply IH. intros j Hj. apply Hno. lia.
Qed.

(** (X10) A field value matcher whose field does not occur at the current
    depth anywhere in [start, end) never matches, whatever its position and
    value matcher (also the negated ones such as [neq_any_int]). *)
Theorem matchesSimple_absent_field (getAppNamesFromUid : Z -> list string)
    (fnmatch : string -> string -> bool) (field : Z) (position : option Position)
    (vm : ValueMatcher) (values : list FieldValue) (start end_ depth : nat) :
  (forall j, (start <= j < end_)%nat -> pos_at values depth j <> field) ->
  matchesSimple getAppNamesFromUid fnmatch (FVM field position vm) values start end_ depth = false.
Proof.
  intros Hno. cbn [matchesSimple].
  destruct (Nat.ltb 2 depth); [reflexivity|]. destruct (Nat.leb end_ start); [reflexivity|].
  unfold computeRanges, getStartEndAtDepth.
  rewrite start_end_loop_none; [reflexivity|].
  intros j Hj. apply Hno. lia.
Qed.

Lemma exists_loop_spec (test : FieldValue -> bool) (values : list FieldValue) :
  forall k i, exists_loop test values i k = true <->
              exists j, (i <= j < i + k)%nat /\ test (value_at values j) = true.
Proof.
  intros k. induction k as [|k IH]; intros i; cbn [exists_loop].
  - split; [discriminate|]. intros (j & Hj & _). lia.
  - destruct (test (value_at values i)) eqn:Ht.
    + split; [intros _; exists i; split; [lia|exact Ht]|reflexivity].
    + rewrite IH. split.
      * intros (j & Hj & Htj). exists j. split; [lia|exact Htj].
      * intros (j & Hj & Htj). exists j. split; [|exact Htj].
        destruct (Nat.eq_dec j i) as [->|]; [congruence|lia].
Qed.

(** (X11) Each int64 entry of an [eq_any_int] or [neq_any_int] list is
    compared as a 32-bit int: [eq_any_int l] matches [start, end) exactly
    when some entry there is an INT or LONG whose value is the 32-bit
    narrowing of an element of l, and [neq_any_int l] exactly when some
    entry is not (an entry of another type, a string or a float, makes
    [neq_any_int] match). *)
Theorem leafMatch_any_int (getAppNamesFromUid : Z -> list string)
    (fnmatch : string -> string -> bool) (l : list Z) (values : list FieldValue) (start end_ : nat) :
  (leafMatch getAppNamesFromUid fnmatch (EqAnyInt l) values start end_ = true <->
     exists j, (start <= j < end_)%nat /\ int_in (map narrow_to_int l) (mValue (value_at values j))) /\
  (leafMatch getAppNamesFromUid fnmatch (NeqAnyInt l) values start end_ = true <->
     exists j, (start <= j < end_)%nat /\
               ~ int_in (map narrow_to_int l) (mValue (value_at values j))).
Proof.
  cbn [leafMatch]. unfold exists_in_range. rewrite !exists_loop_spec.
  assert (Hr : forall j, (start <= j < start + (end_ - start))%nat <-> (start <= j < end_)%nat) by lia.
  split.
  - split; intros (j & Hj & H); exists j; (split; [apply Hr; exact Hj|]);
      [|apply Hr in Hj; clear Hj].
    + apply existsb_exists in H as (z & Hz & Hzv). unfold int_or_long_test, int_in in *.
      destruct (mValue (value_at values j)); try discriminate; apply Z.eqb_eq in Hzv; subst;
        apply in_map; exact Hz.
    + apply existsb_exists. unfold int_or_long_test, int_in in *.
      destruct (mValue (value_at values j)) as [w|w| | |]; try contradiction;
        apply in_map_iff in H as (z & Hzw & Hz);
        exists z; (split; [exact Hz|apply Z.eqb_eq; exact Hzw]).
  - split; intros (j & Hj & H); exists j; (split; [apply Hr; exact Hj|]).
    + intros Hin. rewrite forallb_forall in H. unfold int_or_long_test, int_in in *.
      destruct (mValue (value_at values j)) as [w|w| | |]; try contradiction;
        apply in_map_iff in Hin as (z & Hzw & Hz);
        specialize (H z Hz); rewrite Hzw, Z.eqb_refl in H; discriminate.
    + apply forallb_forall. intros z Hz. apply negb_true_iff. unfold int_or_long_test, int_in in *.
      destruct (mValue (value_at values j)) as [w|w| | |]; try reflexivity;
        destruct (Z.eqb_spec (narrow_to_int z) w) as [Hzw|]; try reflexivity;
        exfalso; apply H; rewrite <- Hzw; apply in_map; exact Hz.
Qed.


(** The 64-bit entry 4294967301 = 2^32 + 5 of an [eq_any_int] list is
    narrowed to the 32-bit int 5: it matches an INT 5 and misses a LONG
    4294967301. *)
Example leafMatch_eq_any_int_narrowed :
  leafMatch (fun _ => []) (fun _ _ => false) (EqAnyInt [4294967301])
    [mkFieldValue (mkField 0 [] []) (VInt 5) false] 0 1 = true /\
  leafMatch (fun _ => []) (fun _ _ => false) (EqAnyInt [4294967301])
    [mkFieldValue (mkField 0 [] []) (VLong 4294967301) false] 0 1 = false.
Proof. split; vm_compute; reflexivity. Qed.

(** No entry of the example sits at field 3. *)
Lemma matchesSimple_absent_field_witness :
  (forall j, (0 <= j < 4)%nat -> pos_at example_tuple_values 0 j <> 3) /\
  matchesSimple (fun _ => []) (fun _ _ => false) (FVM 3 None (NeqAnyInt [])) example_tuple_values 0 4 0
    = false.
Proof.
  assert (H : forall j, (0 <= j < 4)%nat -> pos_at example_tuple_values 0 j <> 3).
  { intros j Hj. assert (Hj' : (j = 0 \/ j = 1 \/ j = 2 \/ j = 3)%nat) by lia.
    destruct Hj' as [ -> | [ -> | [ -> | -> ]]]; vm_compute; discriminate. }
  split; [exact H|].
  exact (matchesSimple_absent_field (fun _ => []) (fun _ _ => false) 3 None (NeqAnyInt [])
           example_tuple_values 0 4 0 H).
Defined.

End MatcherExtra.

Module UidMapExtra.
Import Matcher UidMap.

Lemma names_fold_iff (s : UidMapState) (uid : Z) (rn : bool) (x : string) :
  x ∈ getAppNamesFromUidLocked s uid rn <->
  exists name d, mMap s !! (uid, name) = Some d /\ deleted d = false /\
                 x = (if rn then normalizeAppName name else name).
Proof.
  unfold getAppNamesFromUidLocked. generalize (mMap s) as m. intros m. revert x.
  apply (map_fold_weak_ind (fun (r : gset string) (m : gmap (Z * string) AppData) =>
    forall x, x ∈ r <-> exists name d, m !! (uid, name) = Some d /\ deleted d = false /\
                                       x = (if rn then normalizeAppName name else name))).
  - intros x. split; [set_solver|]. intros (name & d & Hl & _). rewrite lookup_empty in Hl. discriminate.
  - intros [u p] d0 m' r Hnone IH x. cbn [fst snd].
    destruct (Z.eqb_spec u uid) as [->|Hu]; destruct (deleted d0) eqn:Hd; cbn [andb negb].
    + rewrite IH. split; intros (name & d & Hl & Hdl & Hx).
      * exists name, d. rewrite lookup_insert_ne; [auto|]. intros Heq. rewrite <- Heq in Hl. congruence.
      * destruct (decide ((uid, p) = (uid, name))) as [Heq|Hne].
        -- rewrite Heq, lookup_insert_eq in Hl. congruence.
        -- rewrite lookup_insert_ne in Hl by exact Hne. eauto.
    + rewrite elem_of_union, elem_of_singleton, IH. split.
      * intros [->|(name & d & Hl & Hdl & Hx)].
        -- exists p, d0. rewrite lookup_insert_eq. auto.
        -- exists name, d. rewrite lookup_insert_ne; [auto|]. intros Heq. rewrite <- Heq in Hl. congruence.
      * intros (name & d & Hl & Hdl & Hx).
        destruct (decide ((uid, p) = (uid, name))) as [Heq|Hne].
        -- left. injection Heq as <-. exact Hx.
        -- right. rewrite lookup_insert_ne in Hl by exact Hne. eauto.
    + rewrite IH. split; intros (name & d & Hl & Hdl & Hx); exists name, d.
      * rewrite lookup_insert_ne by congruence. auto.
      * rewrite lookup_insert_ne in Hl by congruence. auto.
    + rewrite IH. split; intros (name & d & Hl & Hdl & Hx); exists name, d.
      * rewrite lookup_insert_ne by congruence. auto.
      * rewrite lookup_insert_ne in Hl by congruence. auto.
Qed.

Lemma uids_fold_iff (s : UidMapState) (package : string) (x : Z) :
  x ∈ getAppUid s package <-> exists d, mMap s !! (x, package) = Some d /\ deleted d = false.
Proof.
  unfold getAppUid. generalize (mMap s) as m. intros m. revert x.
  apply (map_fold_weak_ind (fun (r : gset Z) (m : gmap (Z * string) AppData) =>
    forall x, x ∈ r <-> exists d, m !! (x, package) = Some d /\ deleted d = false)).
  - intros x. split; [set_solver|]. intros (d & Hl & _). rewrite lookup_empty in Hl. discriminate.
  - intros [u p] d0 m' r Hnone IH x. cbn [fst snd].
    destruct (decide (p = package)) as [->|Hp].
    + rewrite bool_decide_true by reflexivity.
      destruct (deleted d0) eqn:Hd; cbn [andb negb].
      * rewrite IH. split; intros (d & Hl & Hdl).
        -- exists d. rewrite lookup_insert_ne; [auto|]. intros Heq. rewrite <- Heq in Hl. congruence.
        -- destruct (decide ((u, package) = (x, package))) as [Heq|Hne].
           ++ rewrite Heq, lookup_insert_eq in Hl. congruence.
           ++ rewrite lookup_insert_ne in Hl by exact Hne. eauto.
      * rewrite elem_of_union, elem_of_singleton, IH. split.
        -- intros [->|(d & Hl & Hdl)].
           ++ exists d0. rewrite lookup_insert_eq. auto.
           ++ exists d. rewrite lookup_insert_ne; [auto|]. intros Heq. rewrite <- Heq in Hl. congruence.
        -- intros (d & Hl & Hdl).
           destruct (decide ((u, package) = (x, package))) as [Heq|Hne].
           ++ left. injection Heq as ->. reflexivity.
           ++ right. rewrite lookup_insert_ne in Hl by exact Hne. eauto.
    + rewrite bool_decide_false by exact Hp. cbn [andb].
      rewrite IH. split; intros (d & Hl & Hdl); exists d.
      * rewrite lookup_insert_ne by congruence. auto.
      * rewrite lookup_insert_ne in Hl by congruence. auto.
Qed.

Lemma hasApp_true (s : UidMapState) (uid : Z) (name : string) :
  hasApp s uid name = true <-> exists d, mMap s !! (uid, name) = Some d /\ deleted d = false.
Proof.
  unfold hasApp. destruct (mMap s !! (uid, name)) as [d|].
  - split; [intros H; exists d; split; [reflexivity|destruct (deleted d); auto]|].
    intros (d' & Hd & Hdel). injection Hd as <-. rewrite Hdel. reflexivity.
  - split; [discriminate|]. intros (d & Hd & _). discriminate.
Qed.

Lemma names_normalized_iff (s : UidMapState) (uid : Z) (x : string) :
  x ∈ getAppNamesFromUidLocked s uid true <->
  exists name, hasApp s uid name = true /\ normalizeAppName name = x.
Proof.
  rewrite names_fold_iff. split.
  - intros (name & d & Hl & Hd & ->). exists name. rewrite hasApp_true. eauto.
  - intros (name & Hh & <-). apply hasApp_true in Hh as (d & Hl & Hd). eauto.
Qed.

(** (X12) The name and uid lookups agree with [hasApp]: a name is among the
    uid's names exactly when that app is installed and not deleted, the
    normalized names are the lower-cased names of the installed apps, and
    a uid is among the package's uids exactly when [hasApp] holds. *)
Theorem names_uids_hasApp (s : UidMapState) :
  (forall uid x, x ∈ getAppNamesFromUidLocked s uid false <-> hasApp s uid x = true) /\
  (forall uid x, x ∈ getAppNamesFromUidLocked s uid true <->
                 exists name, hasApp s uid name = true /\ normalizeAppName name = x) /\
  (forall package u, u ∈ getAppUid s package <-> hasApp s u package = true).
Proof.
  split; [|split].
  - intros uid x. rewrite names_fold_iff, hasApp_true.
    split; [intros (name & d & Hl & Hd & ->); eauto|intros (d & Hl & Hd); eauto].
  - intros uid x. apply names_normalized_iff.
  - intros package u. rewrite uids_fold_iff, hasApp_true. reflexivity.
Qed.

Lemma tolower_not_upper (c : Ascii.ascii) :
  ((65 <=? Ascii.nat_of_ascii (tolower c))%nat && (Ascii.nat_of_ascii (tolower c) <=? 90)%nat) = false.
Proof.
  unfold tolower.
  destruct ((65 <=? Ascii.nat_of_ascii c)%nat && (Ascii.nat_of_ascii c <=? 90)%nat) eqn:Hu; [|exact Hu].
  apply andb_true_iff in Hu as [Hge Hle]. apply Nat.leb_le in Hle, Hge.
  rewrite Ascii.nat_ascii_embedding by lia.
  apply andb_false_iff. right. apply Nat.leb_gt. lia.
Qed.

Lemma normalizeAppName_no_upper (name : string) : has_upper (normalizeAppName name) = false.
Proof.
  induction name as [|c rest IH]; [reflexivity|]. cbn [normalizeAppName has_upper].
  rewrite tolower_not_upper, IH. reflexivity.
Qed.

(** (X13) A [str_match] on a uid field that is not an AID name is looked up
    among the normalized names of the uid's installed apps: it matches
    exactly when some installed, not deleted app of that uid lower-cases to
    it, so a pattern holding a capital letter never matches through package
    names. *)
Theorem tryMatchString_uid_package (s : UidMapState) (fieldValue : FieldValue) (str_match : string) :
  fv_uid fieldValue = true -> aid_find str_match = None ->
  (tryMatchString (fun uid => elements (getAppNamesFromUidLocked s uid true)) fieldValue str_match = true <->
     exists name, hasApp s (int_value (mValue fieldValue)) name = true /\
                  normalizeAppName name = str_match) /\
  (has_upper str_match = true ->
     tryMatchString (fun uid => elements (getAppNamesFromUidLocked s uid true)) fieldValue str_match = false).
Proof.
  intros Huid Haid. unfold tryMatchString. rewrite Huid, Haid.
  assert (Hiff : bool_decide (str_match ∈ elements (getAppNamesFromUidLocked s (int_value (mValue fieldValue)) true)) = true <->
     exists name, hasApp s (int_value (mValue fieldValue)) name = true /\ normalizeAppName name = str_match).
  { rewrite bool_decide_eq_true, elem_of_elements. apply names_normalized_iff. }
  split; [exact Hiff|].
  intros Hup. apply not_true_is_false. intros Hb.
  apply Hiff in Hb as (name & _ & Hn). rewrite <- Hn, normalizeAppName_no_upper in Hup. discriminate.
Qed.


Lemma evict_spec (kMaxDel : nat) (m : gmap (Z * string) AppData) (del : list (Z * string))
    (m2 : gmap (Z * string) AppData) (del2 : list (Z * string)) :
  (if (kMaxDel <? length del)%nat then
     match del with [] => (m, []) | oldest :: rest => (delete oldest m, rest) end
   else (m, del)) = (m2, del2) ->
  (m2 = m /\ del2 = del /\ (length del <= kMaxDel)%nat) \/
  (exists oldest, hd_error del = Some oldest /\ m2 = delete oldest m /\ del2 = tail del /\
                  (kMaxDel < length del)%nat).
Proof.
  destruct (Nat.ltb_spec kMaxDel (length del)) as [Hlt|Hge].
  - destruct del as [|o rest]; [cbn in Hlt; lia|]. intros Heq. injection Heq as <- <-.
    right. exists o. auto.
  - intros Heq. injection Heq as <- <-. left. auto.
Qed.

Lemma hd_error_app_single {A} (l : list A) (x y : A) :
  hd_error (l ++ [x]) = Some y -> y <> x -> hd_error l = Some y.
Proof. destruct l as [|a l]; cbn; [intros [= ->]; congruence|auto]. Qed.

(** (X14) After [removeApp] the app is not installed (whether it was
    installed, already deleted or unknown); another app is only touched when
    it was the oldest deleted app and is dropped from the map; the change
    record carries the version [getAppVersion] reported before (the full
    64-bit value); and a listener is told of the removal in every case. *)
Theorem removeApp_spec (K kMax : Z) (kMaxDel : nat) (s : UidMapState) (t : Z) (app : string) (uid : Z)
    (s' : UidMapState) :
  removeApp K kMax kMaxDel s t app uid = Some s' ->
  hasApp s' uid app = false /\
  (forall k, k <> (uid, app) ->
     mMap s' !! k = mMap s !! k \/ (mMap s' !! k = None /\ hd_error (mDeletedApps s) = Some k)) /\
  (exists n, mChanges s' = drop n (mChanges s ++
     [mkChangeRecord true t app uid 0 EmptyString (getAppVersion s uid app)
        (match mMap s !! (uid, app) with
         | Some d => if deleted d then EmptyString else versionString d
         | None => EmptyString end)])) /\
  notifications s' = notifications s ++ (if mSubscriber s then [NotifyAppRemoved t app uid] else []).
Proof.
  intros Hrm. unfold removeApp in Hrm. unfold hasApp, getAppVersion.
  destruct (mMap s !! (uid, app)) as [d|] eqn:Hk; [destruct (deleted d) eqn:Hd|];
    cbn [negb] in Hrm;
    match type of Hrm with
    | context [if (kMaxDel <? ?l)%nat then ?a else ?b] =>
        destruct (if (kMaxDel <? l)%nat then a else b) as [m2 del2] eqn:Hev;
        apply evict_spec in Hev
    end;
    match type of Hrm with
    | context [ensure_loop K ?lim ?b ?ch] =>
        destruct (ensure_loop K lim b ch) as [[bytes ch']|] eqn:He; [|discriminate];
        apply UidMapFacts.ensure_loop_drop in He as [n Hn]
    end;
    injection Hrm as <-; cbn [mMap mChanges notifications];
    (split; [|split; [|split; [exists n; exact Hn|reflexivity]]]).
  (* a deleted entry *)
  - destruct Hev as [(-> & _ & _)|(o & _ & -> & _ & _)]; [rewrite Hk, Hd; reflexivity|].
    destruct (decide (o = (uid, app))) as [->|Hne]; [rewrite lookup_delete_eq; reflexivity|].
    rewrite lookup_delete_ne, Hk, Hd by congruence. reflexivity.
  - intros k Hk'. destruct Hev as [(-> & _ & _)|(o & Ho & -> & _ & _)]; [left; reflexivity|].
    destruct (decide (o = k)) as [->|Hne]; [right; rewrite lookup_delete_eq; auto|].
    left. rewrite lookup_delete_ne by congruence. reflexivity.
  (* an installed entry *)
  - destruct Hev as [(-> & _ & _)|(o & _ & -> & _ & _)]; [rewrite lookup_insert_eq; reflexivity|].
    destruct (decide (o = (uid, app))) as [->|Hne]; [rewrite lookup_delete_eq; reflexivity|].
    rewrite lookup_delete_ne, lookup_insert_eq by congruence. reflexivity.
  - intros k Hk'. destruct Hev as [(-> & _ & _)|(o & Ho & -> & _ & _)].
    + left. rewrite lookup_insert_ne by congruence. reflexivity.
    + destruct (decide (o = k)) as [->|Hne].
      * right. rewrite lookup_delete_eq. split; [reflexivity|].
        exact (hd_error_app_single _ _ _ Ho Hk').
      * left. rewrite lookup_delete_ne, lookup_insert_ne by congruence. reflexivity.
  (* no entry *)
  - destruct Hev as [(-> & _ & _)|(o & _ & -> & _ & _)]; [rewrite Hk; reflexivity|].
    destruct (decide (o = (uid, app))) as [->|Hne]; [rewrite lookup_delete_eq; reflexivity|].
    rewrite lookup_delete_ne, Hk by congruence. reflexivity.
  - intros k Hk'. destruct Hev as [(-> & _ & _)|(o & Ho & -> & _ & _)]; [left; reflexivity|].
    destruct (decide (o = k)) as [->|Hne]; [right; rewrite lookup_delete_eq; auto|].
    left. rewrite lookup_delete_ne by congruence. reflexivity.
Qed.


Lemma removeApp_evict_shape (K kMax : Z) (kMaxDel : nat) (s : UidMapState) (t : Z) (app : string)
    (uid : Z) (s' : UidMapState) :
  removeApp K kMax kMaxDel s t app uid = Some s' ->
  let del1 := if hasApp s uid app then mDeletedApps s ++ [(uid, app)] else mDeletedApps s in
  (mDeletedApps s' = del1 /\ (length del1 <= kMaxDel)%nat) \/
  (exists oldest, hd_error del1 = Some oldest /\ mMap s' !! oldest = None /\
                  mDeletedApps s' = tail del1 /\ (kMaxDel < length del1)%nat).
Proof.
  intros Hrm. cbv zeta. unfold removeApp in Hrm. unfold hasApp.
  destruct (mMap s !! (uid, app)) as [d|] eqn:Hk; [destruct (deleted d) eqn:Hd|];
    cbn [negb] in Hrm |- *;
    match type of Hrm with
    | context [if (kMaxDel <? ?l)%nat then ?a else ?b] =>
        destruct (if (kMaxDel <? l)%nat then a else b) as [m2 del2] eqn:Hev;
        apply evict_spec in Hev
    end;
    match type of Hrm with
    | context [ensure_loop K ?lim ?b ?ch] =>
        destruct (ensure_loop K lim b ch) as [[bytes ch']|] eqn:He; [|discriminate]
    end;
    injection Hrm as <-; cbn [mMap mDeletedApps];
    (destruct Hev as [(-> & -> & Hle)|(o & Ho & -> & -> & Hlt)];
     [left; auto|right; exists o; rewrite lookup_delete_eq; auto]).
Qed.

(** (X15) When the deleted-apps list is full, removing an installed app
    drops the oldest entry of that list from the map, whatever that entry
    is now: an app deleted and reinstalled since is still on the list and is
    then erased from the map although it is installed. *)
Theorem removeApp_evicts_oldest (K kMax : Z) (kMaxDel : nat) (s : UidMapState) (t : Z) (app : string)
    (uid : Z) (s' : UidMapState) (oldest : Z * string) (rest : list (Z * string)) :
  mDeletedApps s = oldest :: rest -> length (mDeletedApps s) = kMaxDel ->
  hasApp s uid app = true ->
  removeApp K kMax kMaxDel s t app uid = Some s' ->
  mMap s' !! oldest = None /\ mDeletedApps s' = rest ++ [(uid, app)] /\
  hasApp s' (oldest.1) (oldest.2) = false.
Proof.
  intros Hdel Hlen Hlive Hrm.
  pose proof (removeApp_evict_shape K kMax kMaxDel s t app uid s' Hrm) as Hsh. cbv zeta in Hsh.
  rewrite Hlive, Hdel in Hsh. rewrite Hdel in Hlen.
  destruct Hsh as [(_ & Hle)|(o & Ho & Hnone & Hd' & _)].
  - rewrite List.length_app in Hle. cbn in Hle, Hlen. lia.
  - cbn in Ho. injection Ho as <-. cbn in Hd'.
    split; [exact Hnone|]. split; [exact Hd'|].
    unfold hasApp. destruct oldest as [u p]. cbn. rewrite Hnone. reflexivity.
Qed.

Lemma apply_op_deleted_bound (K kMax : Z) (kMaxDel : nat) (op : Op) (s s' : UidMapState) :
  (length (mDeletedApps s) <= kMaxDel)%nat ->
  apply_op K kMax kMaxDel op s = Some s' -> (length (mDeletedApps s') <= kMaxDel)%nat.
Proof.
  intros Hb Hop. destruct op as [t infos|t n u v vs i c|t n u|t key| |key|key|b]; cbn in Hop.
  - unfold updateMap in Hop.
    match type of Hop with context [ensure_loop ?a ?b ?c ?d] =>
      destruct (ensure_loop a b c d) as [[bytes ch]|]; [|discriminate] end.
    injection Hop as <-. exact Hb.
  - unfold updateApp in Hop. destruct (mMap s !! (u, n)); cbv zeta in Hop;
      (match type of Hop with context [ensure_loop ?a ?b ?c ?d] =>
         destruct (ensure_loop a b c d) as [[bytes ch]|]; [|discriminate] end);
      injection Hop as <-; exact Hb.
  - pose proof (removeApp_evict_shape K kMax kMaxDel s t n u s' Hop) as Hsh. cbv zeta in Hsh.
    assert (Hl1 : (length (if hasApp s u n then mDeletedApps s ++ [(u, n)] else mDeletedApps s)
                     <= S kMaxDel)%nat)
      by (destruct (hasApp s u n); rewrite ?List.length_app; cbn; lia).
    revert Hsh Hl1.
    generalize (if hasApp s u n then mDeletedApps s ++ [(u, n)] else mDeletedApps s) as d1.
    intros d1 [(-> & Hle)|(o & _ & _ & -> & Hlt)] Hl1; [exact Hle|].
    destruct d1; cbn in *; lia.
  - injection Hop as <-. unfold appendUidMap.
    repeat match goal with |- context [match ?e with (_, _) => _ end] => destruct e end.
    exact Hb.
  - injection Hop as <-. exact Hb.
  - injection Hop as <-. exact Hb.
  - injection Hop as <-. exact Hb.
  - injection Hop as <-. exact Hb.
Qed.

(** (X16) In every state reached from the initial map, the list of deleted
    apps kept for late events holds at most [kMaxDeletedAppsInUidMap]
    entries. *)
Theorem deleted_apps_bounded (K kMax : Z) (kMaxDel : nat) (override : Z) (ops : list Op) (s : UidMapState) :
  run_ops K kMax kMaxDel ops (initialUidMap override) = Some s ->
  (length (mDeletedApps s) <= kMaxDel)%nat.
Proof.
  assert (H0 : (length (mDeletedApps (initialUidMap override)) <= kMaxDel)%nat) by (cbn; lia).
  revert H0. generalize (initialUidMap override) as s0. revert s.
  induction ops as [|op rest IH]; intros s s0 H0 Hrun; cbn in Hrun.
  - injection Hrun as <-. exact H0.
  - destruct (apply_op K kMax kMaxDel op s0) as [s1|] eqn:Hop; [|discriminate].
    exact (IH s s1 (apply_op_deleted_bound K kMax kMaxDel op s0 s1 H0 Hop) Hrun).
Qed.


Lemma updateMap_fold_infos (infos : list AppInfo) :
  forall m0 : gmap (Z * string) AppData,
  map_Forall (fun _ d => deleted d = false) m0 ->
  map_Forall (fun _ d => deleted d = false)
    (fold_left (fun m a =>
               <[(ai_uid a, package_name a) :=
                   mkAppData (ai_version a) (version_string a) (ai_installer a)
                             (certificate_hash a) false]> m) infos m0) /\
  forall k, is_Some (fold_left (fun m a =>
               <[(ai_uid a, package_name a) :=
                   mkAppData (ai_version a) (version_string a) (ai_installer a)
                             (certificate_hash a) false]> m) infos m0 !! k) <->
            is_Some (m0 !! k) \/ exists a, In a infos /\ (ai_uid a, package_name a) = k.
Proof.
  induction infos as [|a rest IH]; intros m0 Hm0; cbn [fold_left].
  - split; [exact Hm0|]. intros k. split; [tauto|]. intros [H|(a & [] & _)]. exact H.
  - destruct (IH (<[(ai_uid a, package_name a) :=
                      mkAppData (ai_version a) (version_string a) (ai_installer a)
                                (certificate_hash a) false]> m0))
      as [Hf Hk]; [apply map_Forall_insert_2; [reflexivity|exact Hm0]|]. split; [exact Hf|].
    intros k. rewrite Hk. destruct (decide ((ai_uid a, package_name a) = k)) as [<-|Hne].
    + rewrite lookup_insert_eq. split; [intros _; right; exists a; cbn; auto|intros _; left; eauto].
    + rewrite lookup_insert_ne by exact Hne. split.
      * intros [H|(a' & Ha' & Heq)]; [left; exact H|right; exists a'; cbn; auto].
      * intros [H|(a' & [<-|Ha'] & Heq)]; [left; exact H|congruence|right; eauto].
Qed.

Lemma updateMap_fold_deleted (m1 dm : gmap (Z * string) AppData) (k : Z * string) :
  map_fold (fun k d (m : gmap (Z * string) AppData) =>
              if bool_decide (is_Some (m !! k)) then <[k := d]> m else m) m1 dm !! k =
  match dm !! k, m1 !! k with
  | Some d, Some _ => Some d
  | _, x => x
  end.
Proof.
  revert k.
  apply (map_fold_weak_ind (fun (r dm : gmap (Z * string) AppData) =>
    forall k, r !! k = match dm !! k, m1 !! k with Some d, Some _ => Some d | _, x => x end)).
  - intros k. rewrite lookup_empty. reflexivity.
  - intros i x m' r Hnone IH k.
    assert (Hri : r !! i = m1 !! i) by (rewrite IH, Hnone; reflexivity).
    destruct (decide (i = k)) as [<-|Hne].
    + rewrite lookup_insert_eq. rewrite Hri.
      destruct (m1 !! i) eqn:Hm1.
      * rewrite bool_decide_true by (eexists; reflexivity). apply lookup_insert_eq.
      * rewrite bool_decide_false by (intros [? ?]; discriminate). exact Hri.
    + rewrite lookup_insert_ne by exact Hne.
      destruct (bool_decide (is_Some (r !! i))); [rewrite lookup_insert_ne by exact Hne|]; apply IH.
Qed.

(** (X17) [updateMap] replaces the map by the given snapshot: afterwards the
    map holds exactly the snapshot's (uid, package) keys, and an app counts
    as installed exactly when it is in the snapshot and was not a deleted
    app before (a deleted app that is still in the snapshot stays deleted);
    the deleted-apps list is kept and a listener is told the map was
    received. *)
Theorem updateMap_spec (K kMax : Z) (s : UidMapState) (timestamp : Z) (app_info : list AppInfo)
    (s' : UidMapState) :
  updateMap K kMax s timestamp app_info = Some s' ->
  (forall u p, hasApp s' u p = true <->
     (exists a, In a app_info /\ ai_uid a = u /\ package_name a = p) /\
     ~ (exists d, mMap s !! (u, p) = Some d /\ deleted d = true)) /\
  (forall k, is_Some (mMap s' !! k) <-> exists a, In a app_info /\ (ai_uid a, package_name a) = k) /\
  mDeletedApps s' = mDeletedApps s /\
  notifications s' = notifications s ++ (if mSubscriber s then [OnUidMapReceived timestamp] else []).
Proof.
  intros Hup. unfold updateMap in Hup.
  match type of Hup with context [ensure_loop ?a ?b ?c ?d] =>
    destruct (ensure_loop a b c d) as [[bytes ch]|]; [|discriminate] end.
  injection Hup as <-. cbn [mMap mDeletedApps notifications].
  destruct (updateMap_fold_infos app_info ∅ (map_Forall_empty _)) as [Hf Hk].
  set (m1 := fold_left _ app_info ∅) in *.
  set (dm := filter (fun kv : (Z * string) * AppData => deleted kv.2 = true) (mMap s)).
  assert (Hin : forall k, is_Some (m1 !! k) <-> exists a, In a app_info /\ (ai_uid a, package_name a) = k).
  { intros k. rewrite Hk, lookup_empty. split; [intros [[? [=]]|H]; exact H|intros H; right; exact H]. }
  assert (Hdm : forall k, dm !! k = match mMap s !! k with
                                    | Some d => if deleted d then Some d else None
                                    | None => None end).
  { intros k. unfold dm. rewrite map_lookup_filter. destruct (mMap s !! k) as [d|]; cbn; [|reflexivity].
    destruct (deleted d); reflexivity. }
  split; [|split; [|split; reflexivity]].
  - intros u p. unfold hasApp. cbn [mMap]. rewrite updateMap_fold_deleted, Hdm.
    specialize (Hin (u, p)).
    destruct (mMap s !! (u, p)) as [d|] eqn:Hs; [destruct (deleted d) eqn:Hd|].
    + destruct (m1 !! (u, p)) eqn:Hm1; cbn [negb]; rewrite ?Hd.
      * split; [discriminate|]. intros [_ Hno]. exfalso. apply Hno. eauto.
      * split; [discriminate|]. intros [_ Hno]. exfalso. apply Hno. eauto.
    + destruct (m1 !! (u, p)) as [x|] eqn:Hm1.
      * rewrite (map_Forall_lookup_1 _ _ _ _ Hf Hm1). cbn. split; [intros _|reflexivity].
        split; [destruct (proj1 Hin ltac:(eexists; reflexivity)) as (a & Ha & Heq);
                injection Heq as <- <-; eauto|].
        intros (d' & Hd' & Hdel). congruence.
      * split; [discriminate|]. intros [(a & Ha & <- & <-) _].
        destruct (proj2 Hin (ex_intro _ a (conj Ha eq_refl))) as [? ?]. congruence.
    + destruct (m1 !! (u, p)) as [x|] eqn:Hm1.
      * rewrite (map_Forall_lookup_1 _ _ _ _ Hf Hm1). cbn. split; [intros _|reflexivity].
        split; [destruct (proj1 Hin ltac:(eexists; reflexivity)) as (a & Ha & Heq);
                injection Heq as <- <-; eauto|].
        intros (d' & Hd' & Hdel). congruence.
      * split; [discriminate|]. intros [(a & Ha & <- & <-) _].
        destruct (proj2 Hin (ex_intro _ a (conj Ha eq_refl))) as [? ?]. congruence.
  - intros k. rewrite <- Hin, updateMap_fold_deleted, Hdm.
    destruct (mMap s !! k) as [d|]; [destruct (deleted d)|]; destruct (m1 !! k); cbn;
      split; intros [? ?]; try discriminate; eexists; reflexivity.
Qed.


(** (X18) Isolated uids resolve in one step: after [assignIsolatedUid iso
    parent] the host of iso is parent, after [removeIsolatedUid iso] iso is
    its own host again, and no other uid's host changes; a uid never
    assigned is its own host. *)
Theorem isolated_uid_roundtrip (m : gmap Z Z) (isolatedUid parentUid : Z) :
  getHostUidOrSelf (assignIsolatedUid m isolatedUid parentUid) isolatedUid = parentUid /\
  getHostUidOrSelf (removeIsolatedUid m isolatedUid) isolatedUid = isolatedUid /\
  (forall uid, uid <> isolatedUid ->
     getHostUidOrSelf (assignIsolatedUid m isolatedUid parentUid) uid = getHostUidOrSelf m uid /\
     getHostUidOrSelf (removeIsolatedUid m isolatedUid) uid = getHostUidOrSelf m uid) /\
  (forall uid, m !! uid = None -> getHostUidOrSelf m uid = uid).
Proof.
  unfold getHostUidOrSelf, assignIsolatedUid, removeIsolatedUid.
  rewrite lookup_insert_eq, lookup_delete_eq. split; [reflexivity|]. split; [reflexivity|].
  split.
  - intros uid Hne. rewrite lookup_insert_ne, lookup_delete_ne by congruence. auto.
  - intros uid ->. reflexivity.
Qed.

Lemma min_fold_nonzero (marks : list (ConfigKey * Z)) :
  forall m, m <> 0 -> (forall kv, In kv marks -> kv.2 <> 0) ->
  let r := fold_left (fun m kv => if m =? 0 then kv.2 else if kv.2 <? m then kv.2 else m) marks m in
  (r = m \/ In r (map snd marks)) /\ r <= m /\ forall kv, In kv marks -> r <= kv.2.
Proof.
  induction marks as [|kv rest IH]; intros m Hm Hall; cbv zeta; cbn [fold_left].
  - split; [left; reflexivity|]. split; [lia|]. intros kv [].
  - rewrite (proj2 (Z.eqb_neq m 0) Hm).
    assert (Hkv : kv.2 <> 0) by (apply Hall; left; reflexivity).
    assert (Hrest : forall kv', In kv' rest -> kv'.2 <> 0) by (intros; apply Hall; right; assumption).
    destruct (Z.ltb_spec kv.2 m) as [Hlt|Hge].
    + destruct (IH kv.2 Hkv Hrest) as (Hin & Hle & Hmin). cbv zeta in Hin, Hle, Hmin.
      split; [right; destruct Hin as [->|Hin]; [left; reflexivity|right; exact Hin]|].
      split; [lia|]. intros kv' [<-|Hkv']; [lia|]. apply Hmin. exact Hkv'.
    + destruct (IH m Hm Hrest) as (Hin & Hle & Hmin). cbv zeta in Hin, Hle, Hmin.
      split; [destruct Hin as [->|Hin]; [left; reflexivity|right; right; exact Hin]|].
      split; [exact Hle|]. intros kv' [<-|Hkv']; [lia|]. apply Hmin. exact Hkv'.
Qed.

(** (X19) When no config's mark is 0, [getMinimumTimestampNs] returns the
    least mark (one of the marks); with no config it returns 0. *)
Theorem getMinimumTimestampNs_least (marks : list (ConfigKey * Z)) :
  (forall kv, In kv marks -> kv.2 <> 0) ->
  (marks = [] /\ getMinimumTimestampNs marks = 0) \/
  (In (getMinimumTimestampNs marks) (map snd marks) /\
   forall kv, In kv marks -> getMinimumTimestampNs marks <= kv.2).
Proof.
  intros Hall. unfold getMinimumTimestampNs. destruct marks as [|kv rest]; [left; auto|right].
  cbn [fold_left]. rewrite Z.eqb_refl.
  assert (Hkv : kv.2 <> 0) by (apply Hall; left; reflexivity).
  destruct (min_fold_nonzero rest kv.2 Hkv ltac:(intros; apply Hall; right; assumption))
    as (Hin & Hle & Hmin).
  split; [destruct Hin as [->|Hin]; [left; reflexivity|right; exact Hin]|].
  intros kv' [<-|Hkv']; [exact Hle|]. apply Hmin. exact Hkv'.
Qed.

Lemma appendUidMap_marks (K : Z) (s : UidMapState) (timestamp : Z) (key : ConfigKey) :
  exists marks1, mLastUpdatePerConfigKey (appendUidMap K s timestamp key).1 = mark_set marks1 key timestamp.
Proof.
  unfold appendUidMap. destruct (emit_loop (mLastUpdatePerConfigKey s) key (mChanges s)) as [marks1 emitted].
  exists marks1.
  match goal with |- context [match ?e with (_, _) => _ end] => destruct e as [bytes changes] end.
  reflexivity.
Qed.

Lemma appendUidMap_emitted (K : Z) (s : UidMapState) (timestamp : Z) (key : ConfigKey) :
  out_changes (appendUidMap K s timestamp key).2 =
    List.filter (fun r => match mark_find (mLastUpdatePerConfigKey s) key with
                          | Some v => v | None => 0 end <? timestampNs r) (mChanges s).
Proof.
  unfold appendUidMap. rewrite UidMapFacts.emit_loop_spec.
  match goal with |- context [match ?e with (_, _) => _ end] => destruct e as [bytes changes] end.
  reflexivity.
Qed.

(** (X20) Two reports for the same config compose: the second
    [appendUidMap] emits exactly the change records, kept after the first
    one's pruning, whose timestamp is above the first report's timestamp;
    and the first report after [OnConfigUpdated] (mark -1) emits every
    record with a non-negative timestamp. *)
Theorem appendUidMap_compose (K : Z) (s : UidMapState) (t1 t2 : Z) (key : ConfigKey) :
  out_changes (appendUidMap K (appendUidMap K s t1 key).1 t2 key).2 =
    List.filter (fun r => t1 <? timestampNs r) (mChanges (appendUidMap K s t1 key).1) /\
  out_changes (appendUidMap K (OnConfigUpdated s key) t2 key).2 =
    List.filter (fun r => -1 <? timestampNs r) (mChanges s).
Proof.
  rewrite !appendUidMap_emitted. split.
  - destruct (appendUidMap_marks K s t1 key) as [marks1 ->].
    rewrite UidMapFacts.mark_find_set, UidMapFacts.ConfigKey_eqb_refl. reflexivity.
  - cbn [OnConfigUpdated mLastUpdatePerConfigKey mChanges].
    rewrite UidMapFacts.mark_find_set, UidMapFacts.ConfigKey_eqb_refl. reflexivity.
Qed.


(** Witnesses. *)

(** "maps" matches the uid of "Maps". *)
Lemma tryMatchString_uid_package_witness :
  fv_uid example_uid_field = true /\ aid_find "maps" = None /\
  tryMatchString (fun uid => elements (getAppNamesFromUidLocked example_app_state uid true))
    example_uid_field "maps" = true /\
  tryMatchString (fun uid => elements (getAppNamesFromUidLocked example_app_state uid true))
    example_uid_field "Maps" = false.
Proof.
  split; [reflexivity|]. split; [reflexivity|]. split.
  - apply (proj1 (tryMatchString_uid_package example_app_state example_uid_field "maps" eq_refl eq_refl)).
    exists "Maps"%string. split; reflexivity.
  - exact (proj2 (tryMatchString_uid_package example_app_state example_uid_field "Maps" eq_refl eq_refl)
             eq_refl).
Defined.

(** Removing the installed "app". *)
Lemma removeApp_spec_witness :
  exists s s', run_ops 1 100 1 example_install_ops (initialUidMap 0) = Some s /\
    removeApp 1 100 1 s 2 "app" 1000 = Some s' /\
    hasApp s' 1000 "app" = false /\
    notifications s' = notifications s ++ [NotifyAppRemoved 2 "app" 1000].
Proof.
  destruct (run_ops 1 100 1 example_install_ops (initialUidMap 0)) as [s|] eqn:E;
    [|vm_compute in E; discriminate].
  destruct (removeApp 1 100 1 s 2 "app" 1000) as [s'|] eqn:E2;
    [|vm_compute in E; injection E as <-; vm_compute in E2; discriminate].
  exists s, s'. split; [reflexivity|]. split; [exact E2|].
  destruct (removeApp_spec 1 100 1 s 2 "app" 1000 s' E2) as (Hh & _ & _ & Hn).
  split; [exact Hh|]. rewrite Hn.
  vm_compute in E. injection E as <-. reflexivity.
Defined.

(** "a" was reinstalled but is still the oldest deleted app: removing "b"
    with room for one deleted app erases the installed "a". *)
Lemma removeApp_evicts_oldest_witness :
  exists s s', run_ops 1 100 1 example_reinstall_live_ops (initialUidMap 0) = Some s /\
    mDeletedApps s = [(1000, "a")] /\ hasApp s 1000 "a" = true /\ hasApp s 1001 "b" = true /\
    removeApp 1 100 1 s 5 "b" 1001 = Some s' /\
    mMap s' !! (1000, "a") = None /\ mDeletedApps s' = [(1001, "b")].
Proof.
  destruct (run_ops 1 100 1 example_reinstall_live_ops (initialUidMap 0)) as [s|] eqn:E;
    [|vm_compute in E; discriminate].
  assert (Hdel : mDeletedApps s = [(1000, "a")]) by (vm_compute in E; injection E as <-; reflexivity).
  assert (Hlive : hasApp s 1001 "b" = true) by (vm_compute in E; injection E as <-; reflexivity).
  assert (Ha : hasApp s 1000 "a" = true) by (vm_compute in E; injection E as <-; reflexivity).
  destruct (removeApp 1 100 1 s 5 "b" 1001) as [s'|] eqn:E2;
    [|vm_compute in E; injection E as <-; vm_compute in E2; discriminate].
  exists s, s'. split; [reflexivity|]. split; [exact Hdel|]. split; [exact Ha|].
  split; [exact Hlive|]. split; [exact E2|].
  destruct (removeApp_evicts_oldest 1 100 1 s 5 "b" 1001 s' (1000, "a") [] Hdel
              ltac:(rewrite Hdel; reflexivity) Hlive E2) as (Hn & Hd & _).
  split; [exact Hn|exact Hd].
Defined.

(** With room for no deleted app, a removal leaves the list empty. *)
Lemma deleted_apps_bounded_witness :
  exists s, run_ops 1 100 0 example_reinstall_ops (initialUidMap 0) = Some s /\
    (length (mDeletedApps s) <= 0)%nat.
Proof.
  destruct (run_ops 1 100 0 example_reinstall_ops (initialUidMap 0)) as [s|] eqn:E;
    [|vm_compute in E; discriminate].
  exists s. split; [reflexivity|]. exact (deleted_apps_bounded 1 100 0 0 _ s E).
Defined.

(** A snapshot after "app" was removed: "app" stays deleted, "b" is
    installed. *)
Lemma updateMap_spec_witness :
  exists s s', run_ops 1 100 1 example_reinstall_ops (initialUidMap 0) = Some s /\
    updateMap 1 100 s 9 example_snapshot = Some s' /\
    hasApp s' 1001 "b" = true /\ hasApp s' 1000 "app" = false /\
    is_Some (mMap s' !! (1000, "app")).
Proof.
  destruct (run_ops 1 100 1 example_reinstall_ops (initialUidMap 0)) as [s|] eqn:E;
    [|vm_compute in E; discriminate].
  destruct (updateMap 1 100 s 9 example_snapshot) as [s'|] eqn:E2;
    [|vm_compute in E; injection E as <-; vm_compute in E2; discriminate].
  exists s, s'. split; [reflexivity|]. split; [exact E2|].
  destruct (updateMap_spec 1 100 s 9 example_snapshot s' E2) as (Hh & Hk & _).
  assert (Hs : mMap s !! (1000, "app") = Some (mkAppData 1 EmptyString EmptyString EmptyString true))
    by (vm_compute in E; injection E as <-; reflexivity).
  split; [|split].
  - apply Hh. split.
    + exists (mkAppInfo 1001 "b" 1 EmptyString EmptyString EmptyString). cbn; auto.
    + intros (d & Hd & Hdel).
      assert (Hb : mMap s !! (1001, "b") = None)
        by (vm_compute in E; injection E as <-; reflexivity).
      rewrite Hb in Hd. discriminate.
  - apply not_true_is_false. intros Happ. apply Hh in Happ as [_ Hno]. apply Hno. eauto.
  - apply Hk. exists (mkAppInfo 1000 "app" 1 EmptyString EmptyString EmptyString). cbn; auto.
Defined.

(** Marks 5, 3 and 7: the minimum is 3. *)
Lemma getMinimumTimestampNs_least_witness :
  (forall kv, In kv [(mkConfigKey 1 1, 5); (mkConfigKey 1 2, 3); (mkConfigKey 2 1, 7)] -> kv.2 <> 0) /\
  getMinimumTimestampNs [(mkConfigKey 1 1, 5); (mkConfigKey 1 2, 3); (mkConfigKey 2 1, 7)] = 3 /\
  forall kv, In kv [(mkConfigKey 1 1, 5); (mkConfigKey 1 2, 3); (mkConfigKey 2 1, 7)] ->
    getMinimumTimestampNs [(mkConfigKey 1 1, 5); (mkConfigKey 1 2, 3); (mkConfigKey 2 1, 7)] <= kv.2.
Proof.
  assert (H : forall kv, In kv [(mkConfigKey 1 1, 5); (mkConfigKey 1 2, 3); (mkConfigKey 2 1, 7)] ->
                         kv.2 <> 0).
  { intros kv [<-|[<-|[<-|[]]]]; cbn; lia. }
  split; [exact H|]. split; [reflexivity|].
  destruct (getMinimumTimestampNs_least _ H) as [[Hnil _]|[_ Hmin]]; [discriminate|exact Hmin].
Defined.

End UidMapExtra.
